(** * vox-slicer: streaming transcription orchestration and segment export

    A shallow embedding of the pure core of [src/App.vue] and of the
    transcription worker, with the properties of the chunk estimator, the
    resampler, the job controller, the auto-grouper and the group
    derivation used by the export.

    Numbers.  A JavaScript [number] that holds a count or an index is a
    [Z] (or a [nat] where it indexes a list); one that holds seconds, a
    rate, a sample or the value typed in the grouping dialog is a rational
    [Q], the exact value of the double.  The only ways the source can
    leave the finite numbers from finite inputs are a division by zero and
    a read outside an array ([undefined], then [NaN]); both are results
    [None] of the option monad, so that "no division by zero" and "no read
    out of bounds" are theorems and not assumptions.  The auto-grouper
    compares the numbers it computes with the value of the dialog, so
    there the sums, the differences and the quotient are rounded as
    binary64 rounds them ([Js.round64]); elsewhere the arithmetic is the
    exact one. *)

From Stdlib Require Import Ascii String ZArith QArith Qround Qabs Qreduction.
From Stdlib Require Qcanon.
From Stdlib Require Import Lia Lqa.
From stdpp Require Import base option list strings pretty.

(** ** JavaScript arithmetic *)

Module Js.

(** [a / b]: [None] stands for the non-finite result of a zero divisor. *)
Definition div (a b : Q) : option Q :=
  if Qeq_bool b 0 then None else Some (a / b)%Q.

(** [Math.ceil], [Math.floor]. *)
Definition ceil (x : Q) : Z := Qceiling x.
Definition floor (x : Q) : Z := Qfloor x.

(** [Math.round]: to the nearest integer, ties towards plus infinity. *)
Definition round (x : Q) : Z := Qfloor (x + (1 # 2))%Q.

(** [a <= b], [a < b] and [a === b] on numbers. *)
Definition le (a b : Q) : bool := Qle_bool a b.
Definition lt (a b : Q) : bool := negb (Qle_bool b a).
Definition eq (a b : Q) : bool := Qeq_bool a b.

(** [a % b]: the quotient is cut towards zero and the remainder, which
    has the sign of [a], is exact; [None] stands for [NaN], the result
    for a zero divisor. *)
Definition rem (a b : Q) : option Q :=
  if Qeq_bool b 0 then None else
  let q := (a / b)%Q in
  let t := if Qle_bool 0 q then Qfloor q else Qceiling q in
  Some (a - b * inject_Z t)%Q.

(** Binary64.  [pow2 e] is [2^e]; [exponent x], for a positive [x], is
    the [e] with [2^e <= x < 2^(e+1)]; [nearest_even] rounds to the nearest
    integer, a tie to the even one.  [round64 x] is the double nearest to
    [x]: 53 significant bits, to the nearest with a tie to the even
    significand, in steps of [2^-1074] below the normal numbers.  A
    result beyond the largest double ([Infinity]) is not modelled. *)
Definition pow2 (e : Z) : Q :=
  if (0 <=? e)%Z then inject_Z (2 ^ e) else 1 # Z.to_pos (2 ^ (- e)).

Definition exponent (x : Q) : Z :=
  if le 1 x then Z.log2 (Qfloor x) else (- Z.log2_up (Qceiling (/ x)))%Z.

Definition nearest_even (x : Q) : Z :=
  let f := Qfloor x in
  let r := (x - inject_Z f)%Q in
  if lt r (1 # 2) then f
  else if lt (1 # 2) r then (f + 1)%Z
  else if Z.even f then f else (f + 1)%Z.

Definition round64 (x : Q) : Q :=
  if eq x 0 then 0%Q else
  let a := Qabs x in
  let e := Z.max (exponent a - 52) (-1074) in
  let y := (inject_Z (nearest_even (a / pow2 e)) * pow2 e)%Q in
  if lt x 0 then (- y)%Q else y.

(** [a + b], [a - b] and [a / b] on doubles: the exact result, rounded. *)
Definition add (a b : Q) : Q := round64 (a + b).
Definition sub (a b : Q) : Q := round64 (a - b).
Definition quot (a b : Q) : option Q := round64 <$> div a b.

End Js.

(** [Math.max] and [Math.min] on numbers. *)
Definition js_max (a b : Q) : Q := if Js.le a b then b else a.
Definition js_min (a b : Q) : Q := if Js.le a b then a else b.

(** ** Chunk estimator (worker, [estimateChunkTotal]) *)

Definition estimateChunkTotal
    (sampleCount sampleRate chunkLength strideLength : Q) : option Z :=
  if Js.le chunkLength 0 then Some 1%Z else
  let window := (sampleRate * chunkLength)%Q in
  let stride := (sampleRate * strideLength)%Q in
  let jump := (window - 2 * stride)%Q in
  if Js.le window 0 then Some 1%Z else
  if Js.le sampleCount window then Some 1%Z else
  if Js.le jump 0 then
    q ← Js.div sampleCount window; Some (Js.ceil q)
  else
    q ← Js.div (sampleCount - window) jump;
    Some (Z.max 1 (Js.ceil q + 1)).

(** The estimate as the specification words it: [window], [stride] and
    [jump] first, then the four cases in order.  Division is the field
    operation of [Q]. *)
Definition estimateTotal_spec
    (sampleCount sampleRate chunkLengthSeconds strideLengthSeconds : Q) : Z :=
  let window := (sampleRate * chunkLengthSeconds)%Q in
  let stride := (sampleRate * strideLengthSeconds)%Q in
  let jump := (window - 2 * stride)%Q in
  if Qle_bool chunkLengthSeconds 0 || Qle_bool window 0 then 1%Z
  else if Qle_bool sampleCount window then 1%Z
  else if Qle_bool jump 0 then Qceiling (sampleCount / window)
  else Z.max 1 (Qceiling ((sampleCount - window) / jump) + 1).

(** Order on results: both are numbers and the first is not larger. *)
Definition result_le (a b : option Z) : Prop :=
  exists x y, a = Some x /\ b = Some y /\ (x <= y)%Z.

(** ** Completions and arrays *)

(** How a piece of code ends: it returns, or an exception leaves it;
    either way with the values that its variables have reached. *)
Inductive Completion (A : Type) : Type :=
| Returned (a : A)
| Thrown (a : A).

Arguments Returned {A} a.
Arguments Thrown {A} a.

Definition completed {A : Type} (c : Completion A) : A :=
  match c with
  | Returned a | Thrown a => a
  end.

#[global] Instance Completion_fmap : FMap Completion :=
  fun A B f c =>
    match c with
    | Returned a => Returned (f a)
    | Thrown a => Thrown (f a)
    end.

Definition and_then {A : Type} (c : Completion A) (f : A -> Completion A)
    : Completion A :=
  match c with
  | Returned a => f a
  | Thrown a => Thrown a
  end.

(** [for (let k = i; k < i + n; k += 1) body]: the body does not touch
    the counter, so the loop runs [n] times unless the body throws. *)
Fixpoint for_loop {St : Type} (n i : nat)
    (body : nat -> St -> Completion St) (st : St) : Completion St :=
  match n with
  | O => Returned st
  | S n' => and_then (body i st) (for_loop n' (S i) body)
  end.

(** [l.forEach((x, idx) => ...)] threading the variables the callback
    assigns; [idx] counts from the given start. *)
Fixpoint forEach_from {A St : Type} (f : St -> A -> nat -> St) (idx : nat)
    (l : list A) (st : St) : St :=
  match l with
  | [] => st
  | x :: l' => forEach_from f (S idx) l' (f st x idx)
  end.

Definition forEach {A St : Type} (f : St -> A -> nat -> St) (l : list A)
    (st : St) : St :=
  forEach_from f 0 l st.

(** [input[k]] for a number [k] that holds an integer: [undefined]
    ([None]) below zero and from the length on. *)
Definition array_get {A : Type} (l : list A) (k : Z) : option A :=
  if (k <? 0)%Z then None else l !! Z.to_nat k.

(** [TypedArray.prototype.subarray(begin, end)]: a negative index counts
    from the end, both are clamped to the array, and an end before the
    begin gives the empty array. *)
Definition relative_index (len : nat) (k : Z) : nat :=
  if (k <? 0)%Z then Z.to_nat (Z.max (Z.of_nat len + k) 0)
  else Z.to_nat (Z.min k (Z.of_nat len)).

Definition subarray {A : Type} (l : list A) (from to : Z) : list A :=
  let b := relative_index (length l) from in
  let e := relative_index (length l) to in
  take (e - b) (drop b l).

(** [String.prototype.trim] on the ASCII white space characters (tab, line
    feed, vertical tab, form feed, carriage return, space). *)
Definition is_space (c : ascii) : bool :=
  let n := nat_of_ascii c in
  ((9 <=? n) && (n <=? 13)) || (n =? 32).

Fixpoint trimStart (s : string) : string :=
  match s with
  | String c s' => if is_space c then trimStart s' else s
  | EmptyString => EmptyString
  end.

Fixpoint trimEnd (s : string) : string :=
  match s with
  | String c s' =>
      match trimEnd s' with
      | EmptyString => if is_space c then EmptyString else String c EmptyString
      | t => String c t
      end
  | EmptyString => EmptyString
  end.

Definition trim (s : string) : string := trimEnd (trimStart s).

(** ** Resampler ([resampleToRate], the same text in [App.vue] and in the
    worker) *)

(** The body of the loop: the sample written at [output[i]]. *)
Definition resample_at (input : list Q) (ratio : Q) (i : nat) : option Q :=
  position ← Js.div (inject_Z (Z.of_nat i)) ratio;
  let index := Js.floor position in
  let next := Z.min (index + 1) (Z.of_nat (length input) - 1) in
  let weight := (position - inject_Z index)%Q in
  a ← array_get input index;
  b ← array_get input next;
  Some (a * (1 - weight) + b * weight)%Q.

Definition resample_length (n : nat) (ratio : Q) : nat :=
  Z.to_nat (Z.max 1 (Js.round (inject_Z (Z.of_nat n) * ratio)%Q)).

Definition resampleToRate (input : list Q) (sourceRate targetRate : Q)
    : option (list Q) :=
  if Js.eq sourceRate targetRate then Some input else
  ratio ← Js.div targetRate sourceRate;
  let length := resample_length (length input) ratio in
  mapM (resample_at input ratio) (seq 0 length).

(** ** Data model ([App.vue]) *)

Module WorkerChunk.
(** [{ timestamp: [number, number]; text: string }]; the engine may leave
    the end of the last timestamp out ([null]). *)
Record t : Type := mk { timestamp : Q * option Q; text : string }.
End WorkerChunk.

Inductive WorkerMessage : Type :=
| Progress (jobId processed total : Z)
| Partial (jobId processed total : Z) (chunks : list WorkerChunk.t)
| Done (jobId : Z) (chunks : list WorkerChunk.t)
| Error (jobId : Z) (message : string).

Definition jobId_of (m : WorkerMessage) : Z :=
  match m with
  | Progress j _ _ | Partial j _ _ _ | Done j _ | Error j _ => j
  end.

Record Segment : Type := mkSegment {
  id : Z;
  start : Q;
  end_ : Q;
  text : string;
  selected : bool;
  linkNext : bool
}.

Definition set_linkNext (b : bool) (seg : Segment) : Segment :=
  mkSegment (id seg) (start seg) (end_ seg) (text seg) (selected seg) b.

Definition set_selected (b : bool) (seg : Segment) : Segment :=
  mkSegment (id seg) (start seg) (end_ seg) (text seg) b (linkNext seg).

Inductive AutoGroupMode : Type := ModeTime | ModeCount | ModeTotal.

(** The part of an [AudioBuffer] the code reads. *)
Record AudioBuffer : Type := mkAudioBuffer {
  duration : Q;
  sampleRate : Q;
  channelData : list (list Q)
}.

(** The refs and variables of the component that the functions below read
    or assign.  [autoGroupValue] is what [v-model.number] stores for the
    number field of the dialog: the number typed, whole or not; the
    emptied field stores the empty string, which both readers of the
    value ([Math.max(1, v)] and [v || 1]) treat as they treat 0. *)
Record State : Type := mkState {
  audioBuffer : option AudioBuffer;
  segments : list Segment;
  status : string;
  isLoading : bool;
  selectAll : bool;
  showAutoGroupModal : bool;
  autoGroupMode : AutoGroupMode;
  autoGroupValue : Q;
  activeJobId : Z;
  processedChunks : Z;
  totalChunks : Z;
  isTranscribing : bool
}.

Definition with_audioBuffer (v : option AudioBuffer) (s : State) : State :=
  mkState v (segments s) (status s) (isLoading s) (selectAll s)
    (showAutoGroupModal s) (autoGroupMode s) (autoGroupValue s)
    (activeJobId s) (processedChunks s) (totalChunks s) (isTranscribing s).

Definition with_segments (v : list Segment) (s : State) : State :=
  mkState (audioBuffer s) v (status s) (isLoading s) (selectAll s)
    (showAutoGroupModal s) (autoGroupMode s) (autoGroupValue s)
    (activeJobId s) (processedChunks s) (totalChunks s) (isTranscribing s).

Definition with_status (v : string) (s : State) : State :=
  mkState (audioBuffer s) (segments s) v (isLoading s) (selectAll s)
    (showAutoGroupModal s) (autoGroupMode s) (autoGroupValue s)
    (activeJobId s) (processedChunks s) (totalChunks s) (isTranscribing s).

Definition with_isLoading (v : bool) (s : State) : State :=
  mkState (audioBuffer s) (segments s) (status s) v (selectAll s)
    (showAutoGroupModal s) (autoGroupMode s) (autoGroupValue s)
    (activeJobId s) (processedChunks s) (totalChunks s) (isTranscribing s).

Definition with_selectAll (v : bool) (s : State) : State :=
  mkState (audioBuffer s) (segments s) (status s) (isLoading s) v
    (showAutoGroupModal s) (autoGroupMode s) (autoGroupValue s)
    (activeJobId s) (processedChunks s) (totalChunks s) (isTranscribing s).

Definition with_showAutoGroupModal (v : bool) (s : State) : State :=
  mkState (audioBuffer s) (segments s) (status s) (isLoading s) (selectAll s)
    v (autoGroupMode s) (autoGroupValue s)
    (activeJobId s) (processedChunks s) (totalChunks s) (isTranscribing s).

Definition with_autoGroup (m : AutoGroupMode) (v : Q) (s : State) : State :=
  mkState (audioBuffer s) (segments s) (status s) (isLoading s) (selectAll s)
    (showAutoGroupModal s) m v
    (activeJobId s) (processedChunks s) (totalChunks s) (isTranscribing s).

Definition with_activeJobId (v : Z) (s : State) : State :=
  mkState (audioBuffer s) (segments s) (status s) (isLoading s) (selectAll s)
    (showAutoGroupModal s) (autoGroupMode s) (autoGroupValue s)
    v (processedChunks s) (totalChunks s) (isTranscribing s).

Definition with_processedChunks (v : Z) (s : State) : State :=
  mkState (audioBuffer s) (segments s) (status s) (isLoading s) (selectAll s)
    (showAutoGroupModal s) (autoGroupMode s) (autoGroupValue s)
    (activeJobId s) v (totalChunks s) (isTranscribing s).

Definition with_totalChunks (v : Z) (s : State) : State :=
  mkState (audioBuffer s) (segments s) (status s) (isLoading s) (selectAll s)
    (showAutoGroupModal s) (autoGroupMode s) (autoGroupValue s)
    (activeJobId s) (processedChunks s) v (isTranscribing s).

Definition with_isTranscribing (v : bool) (s : State) : State :=
  mkState (audioBuffer s) (segments s) (status s) (isLoading s) (selectAll s)
    (showAutoGroupModal s) (autoGroupMode s) (autoGroupValue s)
    (activeJobId s) (processedChunks s) (totalChunks s) v.

(** The state of the component when it is mounted. *)
Definition initial : State :=
  mkState None [] "" false true false ModeTime 10 0 0 0 false.

(** ** Job controller: the [onmessage] handler of [attachWorker] and the
    synchronous blocks of [handleFileUpload] *)

Definition syncSegmentsFromChunks (chunks : list WorkerChunk.t) (s : State)
    : State :=
  let duration := from_option duration 0%Q (audioBuffer s) in
  let s := with_segments
    (imap (fun idx chunk =>
       {| id := Z.of_nat idx + 1;
          start := fst (WorkerChunk.timestamp chunk);
          end_ := default duration (snd (WorkerChunk.timestamp chunk));
          text := trim (WorkerChunk.text chunk);
          selected := true;
          linkNext := false |}) chunks) s in
  with_selectAll true s.

Definition analysing (processed total : Z) : string :=
  "正在分析语音内容... (" +:+ pretty processed +:+ "/" +:+ pretty total +:+ ")".

Definition onmessage (data : WorkerMessage) (s : State) : State :=
  if negb (jobId_of data =? activeJobId s)%Z then s else
  match data with
  | Progress _ processed total =>
      let s := with_processedChunks processed s in
      let s := with_totalChunks total s in
      with_status (analysing processed total) s
  | Partial _ processed total chunks =>
      let s := with_processedChunks processed s in
      let s := with_totalChunks total s in
      let s := syncSegmentsFromChunks chunks s in
      with_status (analysing processed total) s
  | Done _ chunks =>
      let s := syncSegmentsFromChunks chunks s in
      let s := with_status "" s in
      let s := with_isLoading false s in
      let s := with_isTranscribing false s in
      let s := with_processedChunks (Z.of_nat (length chunks)) s in
      with_totalChunks (Z.of_nat (length chunks)) s
  | Error _ message =>
      let s := with_status
        (if String.eqb message "" then "处理失败，请稍后重试。" else message) s in
      let s := with_isLoading false s in
      with_isTranscribing false s
  end.

(** [handleFileUpload] runs in four synchronous blocks separated by
    [await]: the reset before decoding, the assignment of the decoded
    buffer, the submission of the job, and the [catch] and [finally]
    blocks of a failure. *)
Definition handleFileUpload_begin (s : State) : State :=
  let s := with_status "正在解码音频..." s in
  let s := with_isLoading true s in
  let s := with_isTranscribing false s in
  let s := with_segments [] s in
  let s := with_processedChunks 0 s in
  with_totalChunks 0 s.

Definition handleFileUpload_decoded (buffer : AudioBuffer) (s : State)
    : State :=
  with_audioBuffer (Some buffer) s.

(** Returns the [jobId] posted to the worker with the new state. *)
Definition handleFileUpload_submit (s : State) : Z * State :=
  let s := with_activeJobId (activeJobId s + 1) s in
  let jobId := activeJobId s in
  let s := with_processedChunks 0 s in
  let s := with_totalChunks 0 s in
  let s := with_isTranscribing true s in
  let s := with_status "正在分析语音内容..." s in
  (jobId, s).

Definition handleFileUpload_failed (s : State) : State :=
  let s := with_status "处理失败，请确认模型文件已就绪且浏览器支持 WebAudio。" s in
  let s := with_isTranscribing false s in
  let s := with_isLoading false s in
  if negb (isTranscribing s) then with_isLoading false s else s.

(** ** Segment store edits *)

Definition toggleLink (index : nat) (s : State) : State :=
  with_segments
    (alter (fun target => set_linkNext (negb (linkNext target)) target)
       index (segments s)) s.

Definition toggleSelectAll (s : State) : State :=
  with_segments (map (set_selected (selectAll s)) (segments s)) s.

Definition resetGroupingState (s : State) : State :=
  let s := with_segments
    (map (fun seg => set_selected true (set_linkNext false seg))
       (segments s)) s in
  with_selectAll true s.

(** ** Auto-grouper ([applyAutoGroup]) *)

(** [raw[cursor].linkNext = true]: a [TypeError] when [cursor] is outside
    the array, where [raw[cursor]] is [undefined]. *)
Definition link (cursor : nat) (raw : list Segment)
    : Completion (list Segment) :=
  match raw !! cursor with
  | Some seg => Returned (<[cursor := set_linkNext true seg]> raw)
  | None => Thrown raw
  end.

(** Count mode: the callback of [raw.forEach].  A remainder that is not a
    number is different from 0. *)
Definition count_link (val : Q) (len idx : nat) (seg : Segment) : Segment :=
  let different :=
    match Js.rem (inject_Z (Z.of_nat idx + 1)) val with
    | Some remainder => negb (Js.eq remainder 0)
    | None => true
    end in
  if different && (idx <? len - 1) then set_linkNext true seg else seg.

(** Total mode: the body of the inner loop, on the array and [cursor]. *)
Definition total_inner (totalSentences : nat) (currentGroupSize : Z)
    (i : nat) (st : list Segment * nat) : Completion (list Segment * nat) :=
  let '(raw, cursor) := st in
  let isLastSentence := cursor =? totalSentences - 1 in
  let isLastInGroup := (Z.of_nat i =? currentGroupSize - 1)%Z in
  if negb isLastSentence && negb isLastInGroup
  then match link cursor raw with
       | Returned raw => Returned (raw, cursor + 1)
       | Thrown raw => Thrown (raw, cursor)
       end
  else Returned (raw, cursor + 1).

(** Total mode: the body of the outer loop.  [i < currentGroupSize] holds
    for the first [currentGroupSize] values of [i]. *)
Definition total_outer (totalSentences : nat) (baseSize : Z) (remainder : Q)
    (g : nat) (st : list Segment * nat) : Completion (list Segment * nat) :=
  let currentGroupSize :=
    if Js.lt (inject_Z (Z.of_nat g)) remainder
    then (baseSize + 1)%Z else baseSize in
  for_loop (Z.to_nat currentGroupSize) 0
    (total_inner totalSentences currentGroupSize) st.

(** Time mode: the body of the loop, on the array and [groupDuration];
    [seg.end] of a [seg] that is [undefined] is a [TypeError]. *)
Definition time_body (val : Q) (i : nat) (st : list Segment * Q)
    : Completion (list Segment * Q) :=
  let '(raw, groupDuration) := st in
  match raw !! i with
  | None => Thrown st
  | Some seg =>
      let groupDuration :=
        Js.add groupDuration (Js.sub (end_ seg) (start seg)) in
      if Js.lt groupDuration val
      then Returned (<[i := set_linkNext true seg]> raw, groupDuration)
      else Returned (raw, 0%Q)
  end.

(** The three branches, on the array after the reset.  In total mode
    [g < targetGroups] holds for the first [ceil(targetGroups)] values of
    [g]; with a [targetGroups] of 0, for which the quotient and the
    remainder are not numbers, the loop does not run. *)
Definition auto_grouped (mode : AutoGroupMode) (val : Q)
    (raw : list Segment) : Completion (list Segment) :=
  match mode with
  | ModeCount => Returned (imap (count_link val (length raw)) raw)
  | ModeTotal =>
      let totalSentences := length raw in
      let total := inject_Z (Z.of_nat totalSentences) in
      let targetGroups := js_min val total in
      match Js.quot total targetGroups, Js.rem total targetGroups with
      | Some quotient, Some remainder =>
          let baseSize := Js.floor quotient in
          fst <$> for_loop (Z.to_nat (Js.ceil targetGroups)) 0
                    (total_outer totalSentences baseSize remainder) (raw, 0)
      | _, _ => Returned raw
      end
  | ModeTime =>
      fst <$> for_loop (length raw - 1) 0 (time_body val) (raw, 0%Q)
  end.

(** An exception leaves the handler before the dialog is closed, with
    the segments as the loop has left them. *)
Definition applyAutoGroup (s : State) : Completion State :=
  if length (segments s) =? 0 then Returned s else
  let val := js_max 1 (autoGroupValue s) in
  let s := resetGroupingState s in
  match auto_grouped (autoGroupMode s) val (segments s) with
  | Returned raw => Returned (with_showAutoGroupModal false (with_segments raw s))
  | Thrown raw => Thrown (with_segments raw s)
  end.

(** [autoGroupValue.value || 1]: 1 for a value of 0. *)
Definition openAutoGroupModal (s : State) : State :=
  let s :=
    match autoGroupMode s with
    | ModeTotal =>
        if length (segments s) =? 0 then s else
        with_autoGroup ModeTotal
          (js_min (if Js.eq (autoGroupValue s) 0 then 1 else autoGroupValue s)
                  (inject_Z (Z.of_nat (length (segments s))))) s
    | _ => s
    end in
  with_showAutoGroupModal true s.

(** ** Export ([buildGroups] and the per-group part of
    [generateAndDownload]) *)

(** The callback of [segments.value.forEach], on [groups] and [current]. *)
Definition buildGroups_step (len : nat)
    (st : list (list Segment) * list Segment) (seg : Segment) (idx : nat)
    : list (list Segment) * list Segment :=
  let '(groups, current) := st in
  let current := if selected seg then current ++ [seg] else current in
  if (negb (linkNext seg) || (idx =? len - 1)) && negb (length current =? 0)
  then (groups ++ [current], [])
  else (groups, current).

Definition buildGroups (segments : list Segment) : list (list Segment) :=
  fst (forEach (buildGroups_step (length segments)) segments ([], [])).

(** What the callback of [groups.forEach] computes for one group before
    it encodes; the file name, which only formats these numbers, is left
    out. *)
Record ExportEntry : Type := mkExportEntry {
  startTime : Q;
  endTime : Q;
  combinedText : string;
  startSample : Z;
  endSample : Z;
  channels : list (list Q)
}.

(** [group[0]] and [group[group.length - 1]] of an empty group are
    [undefined], and reading [.start] from it throws ([None]). *)
Definition exportGroup (buffer : AudioBuffer) (group : list Segment)
    : option ExportEntry :=
  first ← group !! 0;
  final ← group !! (length group - 1);
  let startTime := start first in
  let endTime := end_ final in
  let combinedText := String.concat " " (map text group) in
  let startSample := Js.floor (startTime * sampleRate buffer)%Q in
  let endSample := Js.floor (endTime * sampleRate buffer)%Q in
  Some (mkExportEntry startTime endTime combinedText startSample endSample
          (map (fun data => subarray data startSample endSample)
             (channelData buffer))).

Definition exportEntries (s : State) : option (list ExportEntry) :=
  buffer ← audioBuffer s;
  mapM (exportGroup buffer) (buildGroups (segments s)).

(** ** The component as a transition system *)

Inductive Event : Type :=
| UploadBegin
| UploadDecoded (buffer : AudioBuffer)
| UploadSubmit
| UploadFailed
| WorkerMsg (data : WorkerMessage)
| ToggleLink (index : nat)
| CheckSelectAll (checked : bool)
| CheckSegment (index : nat) (checked : bool)
| ChooseAutoGroup (mode : AutoGroupMode) (value : Q)
| OpenAutoGroupModal
| ApplyAutoGroup.

(** One event of the component.  When [applyAutoGroup] throws, the
    component goes on in the state the handler has left. *)
Definition step (s : State) (e : Event) : State :=
  match e with
  | UploadBegin => handleFileUpload_begin s
  | UploadDecoded buffer => handleFileUpload_decoded buffer s
  | UploadSubmit => snd (handleFileUpload_submit s)
  | UploadFailed => handleFileUpload_failed s
  | WorkerMsg data => onmessage data s
  | ToggleLink index => toggleLink index s
  | CheckSelectAll checked => toggleSelectAll (with_selectAll checked s)
  | CheckSegment index checked =>
      with_segments (alter (set_selected checked) index (segments s)) s
  | ChooseAutoGroup mode value => with_autoGroup mode value s
  | OpenAutoGroupModal => openAutoGroupModal s
  | ApplyAutoGroup => completed (applyAutoGroup s)
  end.

Definition run (events : list Event) (s : State) : State :=
  foldl step s events.

(** ** The specification's words, as definitions to compare with *)

(** The maximal runs of consecutive segments joined by [linkNext]: a run
    ends at a segment whose [linkNext] is false and at the end of the
    list. *)
Fixpoint chains (segs : list Segment) : list (list Segment) :=
  match segs with
  | [] => []
  | seg :: rest =>
      if linkNext seg then
        match chains rest with
        | [] => [[seg]]
        | chain :: more => (seg :: chain) :: more
        end
      else [seg] :: chains rest
  end.

Definition nonempty {A : Type} (l : list A) : bool :=
  match l with [] => false | _ => true end.

(** The groups of the export: the selected members of every chain, for the
    chains that have one. *)
Definition groups_spec (segs : list Segment) : list (list Segment) :=
  List.filter nonempty (map (List.filter selected) (chains segs)).

(** A closed list of segments: no chain runs out of it. *)
Definition closed (segs : list Segment) : Prop :=
  forall seg, last segs = Some seg -> linkNext seg = false.

(** The audio of a group if it were put together from the members' own
    time ranges, so that a skipped segment is not heard. *)
Definition members_audio (buffer : AudioBuffer) (group : list Segment)
    : list (list Q) :=
  map (fun data =>
         concat (map (fun seg =>
                        subarray data
                          (Js.floor (start seg * sampleRate buffer)%Q)
                          (Js.floor (end_ seg * sampleRate buffer)%Q))
                   group))
      (channelData buffer).

(** The linear blend of the sample at the floor of [position] and of its
    clamped successor, weighted by the fractional part of [position]. *)
Definition blend_at (input : list Q) (position : Q) (y : Q) : Prop :=
  let index := Qfloor position in
  let weight := (position - inject_Z index)%Q in
  exists a b,
    array_get input index = Some a
    /\ array_get input (Z.min (index + 1) (Z.of_nat (length input) - 1))
       = Some b
    /\ (y == a * (1 - weight) + b * weight)%Q.

(** The resampler when the rates differ: the length of the output, the
    blend at every output index, and the first sample. *)
Definition resample_blend_claim (input : list Q) (sourceRate targetRate : Q)
    : Prop :=
  exists output,
    resampleToRate input sourceRate targetRate = Some output
    /\ length output
       = Z.to_nat (Z.max 1 (Js.round (inject_Z (Z.of_nat (length input))
                                      * (targetRate / sourceRate))%Q))
    /\ (forall i, i < length output ->
          exists y,
            output !! i = Some y
            /\ blend_at input
                 (inject_Z (Z.of_nat i) * sourceRate / targetRate)%Q y)
    /\ (exists x y, input !! 0 = Some x /\ output !! 0 = Some y
                    /\ (y == x)%Q).

(** The resampler as the specification words it, for every input. *)
Definition resample_claim (input : list Q) (sourceRate targetRate : Q)
    : Prop :=
  ((sourceRate == targetRate)%Q ->
   resampleToRate input sourceRate targetRate = Some input)
  /\ (~ (sourceRate == targetRate)%Q ->
      resample_blend_claim input sourceRate targetRate).

(** [G] clamped to [1..=total]. *)
Definition clamp_groups (G : Z) (total : nat) : nat :=
  Z.to_nat (Z.min (Z.max 1 G) (Z.of_nat total)).

(** The sizes of total-groups mode: the first [total mod G] groups have
    one member more than [total / G]. *)
Definition total_group_sizes (total G : nat) : list nat :=
  replicate (total mod G) (total / G + 1)
  ++ replicate (G - total mod G) (total / G).

(** The links of consecutive groups of the given sizes: all members of a
    group but its last one. *)
Definition link_pattern (sizes : list nat) : list bool :=
  concat (map (fun size => replicate (size - 1) true ++ [false]) sizes).

(** The chunks a message carries for the segment list, if it is one of
    the two kinds that do. *)
Definition chunks_of (data : WorkerMessage)
    : option (list WorkerChunk.t) :=
  match data with
  | Partial _ _ _ chunks | Done _ chunks => Some chunks
  | Progress _ _ _ | Error _ _ => None
  end.

(** The segment a decode pass makes of the chunk at position [idx]. *)
Definition fresh_segment (duration : Q) (idx : nat) (chunk : WorkerChunk.t)
    : Segment :=
  {| id := Z.of_nat idx + 1;
     start := fst (WorkerChunk.timestamp chunk);
     end_ := default duration (snd (WorkerChunk.timestamp chunk));
     text := trim (WorkerChunk.text chunk);
     selected := true;
     linkNext := false |}.

(** The loop of [buildGroups] from the segment it has reached, by
    recursion on the segments that are left: [current] is the group being
    collected, and the last index is the one with nothing after it. *)
Fixpoint groups_from (current : list Segment) (segs : list Segment)
    : list (list Segment) :=
  match segs with
  | [] => []
  | seg :: rest =>
      let current := if selected seg then current ++ [seg] else current in
      if (negb (linkNext seg) || negb (nonempty rest)) && nonempty current
      then current :: groups_from [] rest
      else groups_from current rest
  end.


(** What is exported for one group: the times of its first and last
    member, the members' text joined by single spaces, and the samples
    between the two times. *)
Definition entry_of_group (buffer : AudioBuffer) (group : list Segment)
    (entry : ExportEntry) : Prop :=
  exists first final,
    head group = Some first /\ last group = Some final
    /\ startTime entry = start first
    /\ endTime entry = end_ final
    /\ combinedText entry = String.concat " " (map text group)
    /\ startSample entry = Qfloor (start first * sampleRate buffer)
    /\ endSample entry = Qfloor (end_ final * sampleRate buffer)
    /\ channels entry
       = map (fun data => subarray data (startSample entry) (endSample entry))
           (channelData buffer).


(** A group of consecutive segments with all members but the last one
    linked to the next. *)
Fixpoint link_block (block : list Segment) : list Segment :=
  match block with
  | [] => []
  | [seg] => [seg]
  | seg :: rest => set_linkNext true seg :: link_block rest
  end.

(** The list cut into consecutive groups of the given sizes, and the
    list with every such group linked. *)
Fixpoint split_by (sizes : list nat) (segs : list Segment)
    : list (list Segment) :=
  match sizes with
  | [] => []
  | size :: sizes' => take size segs :: split_by sizes' (drop size segs)
  end.

Fixpoint link_groups (sizes : list nat) (segs : list Segment)
    : list Segment :=
  match sizes with
  | [] => segs
  | size :: sizes' =>
      link_block (take size segs) ++ link_groups sizes' (drop size segs)
  end.

(** A segment as [resetGroupingState] leaves it. *)
Definition reset_segment (seg : Segment) : Segment :=
  set_selected true (set_linkNext false seg).

(** Every member of a chain but its last one is linked to the next. *)
Fixpoint linked_inside (chain : list Segment) : bool :=
  match chain with
  | [] => true
  | [seg] => true
  | seg :: rest => linkNext seg && linked_inside rest
  end.

(** [runs] cuts [segs] into its maximal runs of linked segments: the runs
    put together give [segs] back, none is empty, inside a run every
    segment is linked to the next, and every run but the last one ends
    at a segment that is not linked. *)
Definition maximal_runs (segs : list Segment) (runs : list (list Segment))
    : Prop :=
  concat runs = segs
  /\ Forall (fun run => run <> [] /\ linked_inside run = true) runs
  /\ forall (i : nat) (run : list Segment),
       runs !! i = Some run -> i + 1 < length runs -> closed run.

(** The size of group [g] in total-groups mode, as the outer loop
    computes it. *)
Definition group_size (baseSize remainder g : nat) : nat :=
  if g <? remainder then baseSize + 1 else baseSize.

(** ** Derived values of the component ([progressPercent],
    [segmentsWithColors], [groupCount]) *)

(** [Math.min(100, Math.round(processed / total * 100))], and 0 when
    [totalChunks] is 0. *)
Definition progressPercent (s : State) : option Z :=
  if (totalChunks s =? 0)%Z then Some 0%Z else
  q ← Js.div (inject_Z (processedChunks s)) (inject_Z (totalChunks s));
  Some (Z.min 100 (Js.round (q * 100)%Q)).

Definition colorPalette : list (string * string) :=
  [("bg-white", "bg-gray-200");
   ("bg-blue-50", "bg-blue-300");
   ("bg-green-50", "bg-green-300");
   ("bg-amber-50", "bg-amber-300");
   ("bg-purple-50", "bg-purple-300");
   ("bg-pink-50", "bg-pink-300")].

Record ColoredSegment : Type := mkColoredSegment {
  ref : Segment;
  bgColorClass : string;
  accentColorClass : string;
  isEndOfGroup : bool
}.

(** The callback of [segments.value.map] with the [groupIndex] it
    counts up; an index outside the palette would give [undefined], whose
    [bg] cannot be read ([None]). *)
Fixpoint segmentsWithColors_from (groupIndex : nat) (segs : list Segment)
    : option (list ColoredSegment) :=
  match segs with
  | [] => Some []
  | seg :: rest =>
      color ← colorPalette !! (groupIndex mod length colorPalette);
      let item := mkColoredSegment seg (fst color) (snd color)
                    (negb (linkNext seg)) in
      let groupIndex := if negb (linkNext seg) then groupIndex + 1
                        else groupIndex in
      items ← segmentsWithColors_from groupIndex rest;
      Some (item :: items)
  end.

Definition segmentsWithColors (s : State) : option (list ColoredSegment) :=
  segmentsWithColors_from 0 (segments s).

(** [segments.filter((s) => !s.linkNext).length || (segments.length ? 1 : 0)] *)
Definition groupCount (s : State) : nat :=
  let unlinked :=
    length (List.filter (fun seg => negb (linkNext seg)) (segments s)) in
  if unlinked =? 0
  then (if length (segments s) =? 0 then 0 else 1)
  else unlinked.

(** [playSegment]: the offset and the duration handed to the audio
    source, when a buffer is loaded. *)
Definition playSegment (seg : Segment) (s : State) : option (Q * Q) :=
  _ ← audioBuffer s;
  let duration :=
    if Js.le (1 # 100) (end_ seg - start seg)%Q
    then (end_ seg - start seg)%Q else (1 # 100)%Q in
  Some (start seg, duration).

(** The number of segments that are not linked to the next one, and the
    link of the last segment. *)
Definition count_unlinked (segs : list Segment) : nat :=
  length (List.filter (fun seg => negb (linkNext seg)) segs).

Definition last_linked (segs : list Segment) : bool :=
  match last segs with
  | Some seg => linkNext seg
  | None => false
  end.

(** The palette entry of group [k]. *)
Definition color_at (k : nat) : string * string :=
  nth (k mod 6) colorPalette ("", "").

(** What [toggleLink] does to its target. *)
Definition flip_link (target : Segment) : Segment :=
  set_linkNext (negb (linkNext target)) target.

(** The loop of time mode by recursion on the segments that are left,
    with the duration accumulated so far; the last segment is not
    visited. *)
Fixpoint time_links (val : Q) (groupDuration : Q) (segs : list Segment)
    : list Segment :=
  match segs with
  | [] => []
  | [seg] => [seg]
  | seg :: rest =>
      let groupDuration :=
        Js.add groupDuration (Js.sub (end_ seg) (start seg)) in
      if Js.lt groupDuration val
      then set_linkNext true seg :: time_links val groupDuration rest
      else seg :: time_links val 0 rest
  end.

(** [raw] is [segs] with other links, and no link after the last
    segment. *)
Definition relinked (segs raw : list Segment) : Prop :=
  map (set_linkNext false) raw = map (set_linkNext false) segs
  /\ closed raw.

(** The links of count mode for a whole number [N] of segments: every
    segment but each [N]-th and the last. *)
Definition link_every (N len idx : nat) (seg : Segment) : Segment :=
  if negb ((idx + 1) mod N =? 0) && (idx <? len - 1)
  then set_linkNext true seg else seg.

(** The smallest whole number of segments that is a multiple of [val]:
    the numerator of [val] in lowest terms. *)
Definition period (val : Q) : nat := Z.to_nat (Qnum (Qred val)).

(** The duration of a group as the loop of time mode adds it up: member
    after member from [carried], every difference and every sum rounded
    to a double. *)
Definition running_duration (carried : Q) (group : list Segment) : Q :=
  foldl (fun groupDuration seg =>
           Js.add groupDuration (Js.sub (end_ seg) (start seg)))
    carried group.

(** The exact duration of a group: the sum of the durations of its
    members. *)
Definition total_duration (group : list Segment) : Q :=
  foldr (fun seg acc => ((end_ seg - start seg) + acc)%Q) 0%Q group.

(** Every group but the last one reaches [val] seconds with its last
    member and not before; [carried] is the duration already accumulated
    when the first group starts. *)
Fixpoint groups_reach (val : Q) (carried : Q) (groups : list (list Segment))
    : Prop :=
  match groups with
  | [] => True
  | [group] => True
  | group :: more =>
      (val <= running_duration carried group)%Q
      /\ (running_duration carried (removelast group) < val)%Q
      /\ groups_reach val 0 more
  end.

(** ** Audio preparation ([mixToMono] and the two lines of
    [handleFileUpload] that make the audio posted to the worker) *)

(** [Math.sqrt(2)]: the double nearest to the square root of 2, which is
    this rational. *)
Definition sqrt2 : Q := 6369051672525773 # 4503599627370496.

Definition TARGET_SAMPLE_RATE : Q := 16000.
Definition CHUNK_LENGTH_S : Q := 15.
Definition STRIDE_LENGTH_S : Q := 5.

(** [buffer.getChannelData(k)] throws ([None]) when there is no channel
    [k]; [numberOfChannels] is the number of channels. *)
Definition mixToMono (buffer : AudioBuffer) : option (list Q) :=
  if length (channelData buffer) =? 1 then channelData buffer !! 0 else
  left ← channelData buffer !! 0;
  right ← channelData buffer !! 1;
  let length := length left `min` length right in
  let scaling := sqrt2 in
  mapM (fun i => l ← left !! i; r ← right !! i; Js.div (l + r) scaling)
       (seq 0 length).

Definition handleFileUpload_audio (buffer : AudioBuffer)
    : option (list Q) :=
  mono ← mixToMono buffer;
  resampleToRate mono (sampleRate buffer) TARGET_SAMPLE_RATE.

(** ** PCM conversion and blocks of [encodeMP3] *)

(** Storing a number in an [Int16Array]: the fraction is dropped and the
    integer wraps around to 16 bits. *)
Definition trunc (x : Q) : Z := if Js.le 0 x then Qfloor x else Qceiling x.

Definition toInt16 (x : Q) : Z :=
  ((trunc x + 32768) mod 65536 - 32768)%Z.

(** One turn of the loop of [floatTo16BitPCM]. *)
Definition floatTo16BitPCM_sample (x : Q) : Z :=
  let s := js_max (-1) (js_min 1 x) in
  toInt16 (if Js.lt s 0 then s * 32768 else s * 32767)%Q.

Definition floatTo16BitPCM (input : list Q) : list Z :=
  map floatTo16BitPCM_sample input.

Definition maxSamples : nat := 1152.

(** The arguments of the successive calls of [encoder.encodeBuffer]:
    [for (let i = 0; i < left.length; i += maxSamples)].  Every turn adds
    [maxSamples] to [i], so [left.length] turns of fuel are enough. *)
Fixpoint encode_loop (fuel i : nat) (left : list Z) (right : option (list Z))
    : list (list Z * option (list Z)) :=
  match fuel with
  | O => []
  | S fuel' =>
      if i <? length left then
        (subarray left (Z.of_nat i) (Z.of_nat (i + maxSamples)),
         (fun channel =>
            subarray channel (Z.of_nat i) (Z.of_nat (i + maxSamples)))
         <$> right)
        :: encode_loop fuel' (i + maxSamples) left right
      else []
  end.

(** [channels[1]] is [undefined] for a mono group. *)
Definition encodeMP3_blocks (channels : list (list Q))
    : option (list (list Z * option (list Z))) :=
  first ← channels !! 0;
  let left := floatTo16BitPCM first in
  let right := floatTo16BitPCM <$> channels !! 1 in
  Some (encode_loop (length left) 0 left right).

(** ** Transcription worker ([ensureTranscriber] and [ctx.onmessage]) *)

Record WorkerConfig : Type := mkWorkerConfig {
  wasmPath : string;
  allowLocalModels : bool;
  allowRemoteModels : bool;
  useBrowserCache : bool;
  localModelPath : string
}.

(** The variables of the worker module: [cachedConfig],
    [transcriberPromise] (the promise of the [n]-th call of [pipeline],
    counted from 0), the settings written to [env], and the number of
    calls of [pipeline] made so far. *)
Record WorkerState : Type := mkWorkerState {
  cachedConfig : option WorkerConfig;
  transcriberPromise : option nat;
  env : option WorkerConfig;
  pipelines : nat
}.

Definition worker_start : WorkerState := mkWorkerState None None None 0.

Definition needsRefresh (cached : option WorkerConfig) (config : WorkerConfig)
    : bool :=
  match cached with
  | None => true
  | Some cachedConfig =>
      negb (String.eqb (wasmPath cachedConfig) (wasmPath config))
      || negb (Bool.eqb (allowLocalModels cachedConfig)
                 (allowLocalModels config))
      || negb (Bool.eqb (allowRemoteModels cachedConfig)
                 (allowRemoteModels config))
      || negb (Bool.eqb (useBrowserCache cachedConfig)
                 (useBrowserCache config))
      || negb (String.eqb (localModelPath cachedConfig)
                 (localModelPath config))
  end.

(** Returns the promise with the new state of the module. *)
Definition ensureTranscriber (config : WorkerConfig) (w : WorkerState)
    : nat * WorkerState :=
  let reload :=
    (pipelines w,
     mkWorkerState (Some config) (Some (pipelines w)) (Some config)
       (S (pipelines w))) in
  match transcriberPromise w with
  | None => reload
  | Some promise =>
      if needsRefresh (cachedConfig w) config then reload else (promise, w)
  end.

Record TranscribePayload : Type := mkTranscribePayload {
  config : WorkerConfig;
  audio : list Q;
  payloadSampleRate : Q;
  chunkLength : Q;
  strideLength : Q;
  returnTimestamps : bool
}.

(** An element of the [Float32Array] handed to the engine: a number, or
    [NaN]. *)
Inductive Sample : Type :=
| Num (x : Q)
| NaN.

(** What the worker makes of the audio of a request: the samples for the
    engine, or the [RangeError] of [new Float32Array(Infinity)]. *)
Inductive Prepared : Type :=
| Audio (samples : list Sample)
| RangeError.

(** [resampleToRate] as the worker calls it, with the results that are
    not lists of numbers.  [resampleToRate] is [None] for a zero source
    rate, for a zero target rate and for an empty input, and the code
    then does this:
    - source rate 0: the ratio is plus or minus [Infinity], by the sign of
      the target rate.  For an empty input [0 * ratio] is [NaN], so are
      [Math.round] and [Math.max(1, NaN)], [new Float32Array(NaN)] is
      empty and the loop does not run.  Otherwise the length is
      [Math.max(1, Infinity)], for which [new Float32Array] throws, or
      [Math.max(1, -Infinity) = 1]: then [position] and [index] are [-0],
      [weight] is 0, and [output[0]] is [input[0] * 1 + input[next] * 0],
      that is [input[0]];
    - target rate 0, or an empty input with a ratio that is a number: the
      length is [Math.max(1, 0) = 1]; [position] is [0 / 0], or
      [input[0]] is [undefined], and [output[0]] is [NaN]. *)
Definition worker_resample (input : list Q) (sourceRate targetRate : Q)
    : Prepared :=
  match resampleToRate input sourceRate targetRate with
  | Some output => Audio (Num <$> output)
  | None =>
      if Js.eq sourceRate 0 then
        match input with
        | [] => Audio []
        | first :: _ =>
            if Js.lt 0 targetRate then RangeError else Audio [Num first]
        end
      else Audio [NaN]
  end.

Section Worker.

(** The chunks the engine hands to [chunk_callback], and the message of
    the [RangeError] that [new Float32Array] throws. *)
Variable Raw : Type.
Variable invalidLength : string.

(** A loaded pipeline, as far as the worker uses it: the sample rate of
    its feature extractor when the configuration has one; what
    [tokenizer._decode_asr] makes of the chunks collected so far, that is
    [optional?.chunks], which may be missing, or the message of the error
    it throws, which may be missing; and a call on an audio: the chunks
    the engine has for the callback, in order, and then the [chunks] of
    the result (which may be missing) or the message of the error thrown
    (which may be missing). *)
Record Transcriber : Type := mkTranscriber {
  sampling_rate : option Q;
  decode_asr : list Raw -> bool ->
               option string + option (list WorkerChunk.t);
  transcribe : list Sample -> Q -> Q -> bool ->
               list Raw * (option string + option (list WorkerChunk.t))
}.

(** The promise of [ensureTranscriber] when it settles: the pipeline, or
    the message of the error of the load. *)
Definition Settled : Type := (option string + Transcriber)%type.

Definition error_message (message : option string) : string :=
  default "转写失败" message.

(** The calls of [chunk_callback]: the partial messages posted, and the
    error of [decodePartial] that ended the run, if one did.  [processed]
    and [collected] are the variables of the handler. *)
Fixpoint chunk_callbacks (transcriber : Transcriber) (jobId totalChunks : Z)
    (returnTimestamps : bool) (processed : Z) (collected : list Raw)
    (chunks : list Raw) : list WorkerMessage * option (option string) :=
  match chunks with
  | [] => ([], None)
  | chunk :: rest =>
      let collected := collected ++ [chunk] in
      let processed := (processed + 1)%Z in
      match decode_asr transcriber collected returnTimestamps with
      | inl message => ([], Some message)
      | inr optional =>
          let partialChunks := default [] optional in
          let '(posted, thrown) :=
            chunk_callbacks transcriber jobId totalChunks returnTimestamps
              processed collected rest in
          (Partial jobId processed totalChunks partialChunks :: posted,
           thrown)
      end
  end.

(** The messages that one [transcribe] message makes the worker post, in
    order: everything the handler does is inside its [try], so an error
    of the load, of the resampling, of a callback or of the call ends in
    the error message of the [catch].  The estimate is a result of
    [estimateChunkTotal], which is a number for every input (lemma
    [estimate_is_spec]). *)
Definition worker_onmessage (transcriber : Settled) (jobId : Z)
    (payload : TranscribePayload) : option (list WorkerMessage) :=
  match transcriber with
  | inl message => Some [Error jobId (error_message message)]
  | inr transcriber =>
      let expectedRate :=
        default (payloadSampleRate payload) (sampling_rate transcriber) in
      let sourceAudio := audio payload in
      match (if Js.eq (payloadSampleRate payload) expectedRate
             then Audio (Num <$> sourceAudio)
             else worker_resample sourceAudio (payloadSampleRate payload)
                    expectedRate) with
      | RangeError => Some [Error jobId (error_message (Some invalidLength))]
      | Audio audio =>
          totalChunks ← estimateChunkTotal
                          (inject_Z (Z.of_nat (length audio)))
                          expectedRate (chunkLength payload)
                          (strideLength payload);
          let '(chunks, result) :=
            transcribe transcriber audio (chunkLength payload)
              (strideLength payload) (returnTimestamps payload) in
          let '(posted, thrown) :=
            chunk_callbacks transcriber jobId totalChunks
              (returnTimestamps payload) 0 [] chunks in
          let final :=
            match thrown with
            | Some message => Error jobId (error_message message)
            | None =>
                match result with
                | inr chunks => Done jobId (default [] chunks)
                | inl message => Error jobId (error_message message)
                end
            end in
          Some (posted ++ [final])
      end
  end.

End Worker.

Arguments sampling_rate {Raw} _.
Arguments decode_asr {Raw} _ _ _.
Arguments transcribe {Raw} _ _ _ _ _.
Arguments chunk_callbacks {Raw} _ _ _ _ _ _ _.
Arguments worker_onmessage {Raw} _ _ _ _.

(** The page handling the messages of the worker one after the other. *)
Definition deliver (messages : list WorkerMessage) (s : State) : State :=
  foldl (fun s data => onmessage data s) s messages.

(** A message that ends a job. *)
Definition is_final (data : WorkerMessage) : bool :=
  match data with
  | Done _ _ | Error _ _ => true
  | Progress _ _ _ | Partial _ _ _ _ => false
  end.

(** ** Runtime path ([pickWasmPath]) *)

Definition localWasmBase : string := "models/onnx-runtime/".

Definition wasmBases (isLocalhost : bool) : list string :=
  if isLocalhost
  then [localWasmBase;
        "https://cdn.jsdelivr.net/npm/onnxruntime-web/dist/";
        "https://unpkg.com/onnxruntime-web/dist/";
        "https://cdn.bootcdn.net/ajax/libs/onnxruntime-web/1.14.0/"]
  else ["https://cdn.jsdelivr.net/npm/onnxruntime-web/dist/";
        "https://unpkg.com/onnxruntime-web/dist/";
        "https://cdn.bootcdn.net/ajax/libs/onnxruntime-web/1.14.0/";
        localWasmBase].

(** The loop over the bases.  [probe base] tells whether the [HEAD]
    request for the runtime file under [base] answers [ok]; a request that
    throws or times out is caught and counts as not [ok]. *)
Fixpoint pickWasmPath_from (probe : string -> bool) (bases : list string)
    : string :=
  match bases with
  | [] => localWasmBase
  | base :: rest =>
      if String.prefix "models/" base then base
      else if probe base then base
      else pickWasmPath_from probe rest
  end.

Definition pickWasmPath (probe : string -> bool) (isLocalhost : bool)
    : string :=
  pickWasmPath_from probe (wasmBases isLocalhost).

(** ** Names and lists of the export ([generateAndDownload]) *)

Definition tab : string := String "009"%char "".
Definition newline : string := String "010"%char "".

(** [x.toFixed(2)] on an exact number below [10^21]: the nearest
    hundredth, a tie going up in absolute value, with at least one digit
    before the point and two after it. *)
Definition toFixed2 (x : Q) : string :=
  let negative := Js.lt x 0 in
  let x := if negative then (- x)%Q else x in
  let n := Qfloor (x * 100 + (1 # 2))%Q in
  let cents := (n mod 100)%Z in
  (if negative then "-" else "")
  +:+ pretty (n / 100)%Z +:+ "."
  +:+ (if (cents <? 10)%Z then "0" else "") +:+ pretty cents.

Definition fileName (index : nat) (startTime endTime : Q) : string :=
  pretty (index + 1) +:+ "-" +:+ toFixed2 startTime +:+ "-"
  +:+ toFixed2 endTime +:+ ".mp3".

(** The files put in the [audio] folder, with their entries, in order;
    an entry that cannot be made ends the export. *)
Definition exportFiles (s : State) : option (list (string * ExportEntry)) :=
  entries ← exportEntries s;
  Some (imap (fun index entry =>
                (fileName index (startTime entry) (endTime entry), entry))
          entries).

Definition txtParts (files : list (string * ExportEntry)) : list string :=
  map (fun file => fst file +:+ tab +:+ combinedText (snd file)) files.

Definition transcription (files : list (string * ExportEntry)) : string :=
  String.concat newline (txtParts files).

Definition htmlData (files : list (string * ExportEntry))
    : list (string * string) :=
  map (fun file => ("audio/" +:+ fst file, combinedText (snd file))) files.

(** A string without the character [-]. *)
Fixpoint dashfree (s : string) : bool :=
  match s with
  | EmptyString => true
  | String c s' => negb (Ascii.eqb c "-") && dashfree s'
  end.

(** The first and the last character of a string. *)
Definition first_char (s : string) : option ascii :=
  match s with
  | EmptyString => None
  | String c _ => Some c
  end.

Fixpoint last_char (s : string) : option ascii :=
  match s with
  | EmptyString => None
  | String c EmptyString => Some c
  | String _ s' => last_char s'
  end.

(** The group sizes of count mode: groups of [N], and a last group of
    what is left over. *)
Definition count_sizes (total N : nat) : list nat :=
  replicate (total / N) N
  ++ (if total mod N =? 0 then [] else [total mod N]).

(** * Properties *)

(** ** Arithmetic *)

Lemma Js_le_true a b : Js.le a b = true <-> (a <= b)%Q.
Proof. apply Qle_bool_iff. Qed.

Lemma Js_le_false a b : Js.le a b = false <-> (b < a)%Q.
Proof.
  unfold Js.le. split; intros H.
  - apply Qnot_le_lt. intros Hle. apply Qle_bool_iff in Hle. congruence.
  - destruct (Qle_bool a b) eqn:E; [|reflexivity].
    apply Qle_bool_iff in E. exfalso. apply (Qlt_not_le _ _ H E).
Qed.

Lemma Js_div_nonzero a b : ~ (b == 0)%Q -> Js.div a b = Some (a / b)%Q.
Proof.
  intros Hb. unfold Js.div. destruct (Qeq_bool b 0) eqn:E; [|reflexivity].
  apply Qeq_bool_iff in E. contradiction.
Qed.

Lemma Js_div_pos a b : (0 < b)%Q -> Js.div a b = Some (a / b)%Q.
Proof. intros Hb. apply Js_div_nonzero. intros E. rewrite E in Hb. lra. Qed.

Lemma Qdiv_le_mono a b c : (0 < c)%Q -> (a <= b)%Q -> (a / c <= b / c)%Q.
Proof.
  intros Hc Hab. unfold Qdiv. apply Qmult_le_compat_r; [assumption|].
  apply Qinv_le_0_compat. lra.
Qed.

Lemma Qceiling_gt_1 x : (1 < x)%Q -> (1 < Qceiling x)%Z.
Proof.
  intros Hx. rewrite Zlt_Qlt. eapply Qlt_le_trans; [exact Hx|].
  apply Qle_ceiling.
Qed.

Lemma inject_Z_pos (k : Z) : (0 < k)%Z -> (0 < inject_Z k)%Q.
Proof.
  intros H. change 0%Q with (inject_Z 0). rewrite <- Zlt_Qlt. exact H.
Qed.

Lemma Js_lt_true (a b : Q) : Js.lt a b = true <-> (a < b)%Q.
Proof.
  unfold Js.lt. rewrite negb_true_iff. apply (Js_le_false b a).
Qed.

Lemma Js_lt_false (a b : Q) : Js.lt a b = false <-> (b <= a)%Q.
Proof.
  unfold Js.lt. rewrite negb_false_iff. apply (Js_le_true b a).
Qed.

(** ** Chunk estimator *)

Example estimate_one_minute :
  estimateChunkTotal 960000 16000 15 5 = Some 10%Z.
Proof. reflexivity. Qed.

Example estimate_short_clip :
  estimateChunkTotal 1000 16000 15 5 = Some 1%Z.
Proof. reflexivity. Qed.

Example estimate_no_room_to_jump :
  estimateChunkTotal 100 10 4 2 = Some 3%Z.
Proof. reflexivity. Qed.

Lemma estimate_is_spec sampleCount rate chunk stride :
  estimateChunkTotal sampleCount rate chunk stride
  = Some (estimateTotal_spec sampleCount rate chunk stride).
Proof.
  unfold estimateChunkTotal, estimateTotal_spec.
  change Qle_bool with Js.le.
  destruct (Js.le chunk 0) eqn:Hc; [reflexivity|]. cbn [orb].
  destruct (Js.le (rate * chunk) 0) eqn:Hw; [reflexivity|].
  destruct (Js.le sampleCount (rate * chunk)) eqn:Hs; [reflexivity|].
  apply Js_le_false in Hw.
  destruct (Js.le (rate * chunk - 2 * (rate * stride)) 0) eqn:Hj.
  - rewrite Js_div_pos by exact Hw. reflexivity.
  - apply Js_le_false in Hj. rewrite Js_div_pos by exact Hj. reflexivity.
Qed.

Lemma estimate_spec_ge_1 sampleCount rate chunk stride :
  (1 <= estimateTotal_spec sampleCount rate chunk stride)%Z.
Proof.
  unfold estimateTotal_spec. change Qle_bool with Js.le.
  destruct (Js.le chunk 0) eqn:Hc; [cbn; lia|]. cbn [orb].
  destruct (Js.le (rate * chunk) 0) eqn:Hw; [lia|].
  destruct (Js.le sampleCount (rate * chunk)) eqn:Hs; [lia|].
  destruct (Js.le (rate * chunk - 2 * (rate * stride)) 0) eqn:Hj; [|lia].
  apply Js_le_false in Hw, Hs.
  apply Z.lt_le_incl, Qceiling_gt_1.
  apply Qlt_shift_div_l; [exact Hw|]. lra.
Qed.

Lemma estimate_spec_mono rate chunk stride s1 s2 :
  (s1 <= s2)%Q ->
  (estimateTotal_spec s1 rate chunk stride
   <= estimateTotal_spec s2 rate chunk stride)%Z.
Proof.
  intros Hs.
  pose proof (estimate_spec_ge_1 s2 rate chunk stride) as Hge.
  revert Hge. unfold estimateTotal_spec. change Qle_bool with Js.le.
  destruct (Js.le chunk 0) eqn:Hc; [cbn; lia|]. cbn [orb].
  destruct (Js.le (rate * chunk) 0) eqn:Hw; [lia|].
  destruct (Js.le s1 (rate * chunk)) eqn:H1.
  { destruct (Js.le s2 (rate * chunk)); [lia|]. intros Hge. exact Hge. }
  destruct (Js.le s2 (rate * chunk)) eqn:H2.
  { apply Js_le_true in H2. apply Js_le_false in H1. lra. }
  apply Js_le_false in Hw.
  destruct (Js.le (rate * chunk - 2 * (rate * stride)) 0) eqn:Hj; intros _.
  - apply Qceiling_resp_le, Qdiv_le_mono; assumption.
  - apply Js_le_false in Hj.
    apply Z.max_le_compat_l, Z.add_le_mono_r.
    apply Qceiling_resp_le, Qdiv_le_mono; [assumption|lra].
Qed.

(** C2: for every [sampleCount], [sampleRate], [chunkLengthSeconds] and
    [strideLengthSeconds] the estimator returns a number (it never divides
    by zero), that number is the one the four cases of the specification
    give, and it is an integer that is at least 1. *)
Theorem estimateChunkTotal_cases_C2 :
  forall sampleCount sampleRate chunkLengthSeconds strideLengthSeconds : Q,
    estimateChunkTotal sampleCount sampleRate chunkLengthSeconds
      strideLengthSeconds
    = Some (estimateTotal_spec sampleCount sampleRate chunkLengthSeconds
              strideLengthSeconds)
    /\ (1 <= estimateTotal_spec sampleCount sampleRate chunkLengthSeconds
              strideLengthSeconds)%Z.
Proof.
  intros. split; [apply estimate_is_spec | apply estimate_spec_ge_1].
Qed.

(** C8: for positive [sampleRate], [chunkLengthSeconds] and
    [strideLengthSeconds] the estimate does not decrease when
    [sampleCount] grows; at [sampleCount] equal to the window it is 1; and
    at [sampleCount = 0] it is 1, for every configuration, with no
    division by zero. *)
Theorem estimateChunkTotal_monotone_C8 :
  (forall sampleRate chunkLengthSeconds strideLengthSeconds s1 s2 : Q,
      (0 < sampleRate)%Q -> (0 < chunkLengthSeconds)%Q ->
      (0 < strideLengthSeconds)%Q -> (s1 <= s2)%Q ->
      result_le
        (estimateChunkTotal s1 sampleRate chunkLengthSeconds
           strideLengthSeconds)
        (estimateChunkTotal s2 sampleRate chunkLengthSeconds
           strideLengthSeconds))
  /\ (forall sampleRate chunkLengthSeconds strideLengthSeconds : Q,
        estimateChunkTotal (sampleRate * chunkLengthSeconds) sampleRate
          chunkLengthSeconds strideLengthSeconds = Some 1%Z)
  /\ (forall sampleRate chunkLengthSeconds strideLengthSeconds : Q,
        estimateChunkTotal 0 sampleRate chunkLengthSeconds
          strideLengthSeconds = Some 1%Z).
Proof.
  split; [|split].
  - intros rate chunk stride s1 s2 _ _ _ Hs.
    exists (estimateTotal_spec s1 rate chunk stride),
           (estimateTotal_spec s2 rate chunk stride).
    rewrite !estimate_is_spec.
    split; [reflexivity|]. split; [reflexivity|].
    apply estimate_spec_mono, Hs.
  - intros rate chunk stride. unfold estimateChunkTotal.
    destruct (Js.le chunk 0); [reflexivity|].
    destruct (Js.le (rate * chunk) 0); [reflexivity|].
    destruct (Js.le (rate * chunk) (rate * chunk)) eqn:E; [reflexivity|].
    apply Js_le_false in E. lra.
  - intros rate chunk stride. unfold estimateChunkTotal.
    destruct (Js.le chunk 0); [reflexivity|].
    destruct (Js.le (rate * chunk) 0) eqn:Hw; [reflexivity|].
    destruct (Js.le 0 (rate * chunk)) eqn:E; [reflexivity|].
    apply Js_le_false in E, Hw. lra.
Qed.

Lemma estimateChunkTotal_monotone_C8_witness :
  result_le (estimateChunkTotal 300000 16000 15 5)
            (estimateChunkTotal 960000 16000 15 5)
  /\ estimateChunkTotal (16000 * 15) 16000 15 5 = Some 1%Z
  /\ estimateChunkTotal 0 16000 15 5 = Some 1%Z.
Proof.
  split; [|split].
  - apply (proj1 estimateChunkTotal_monotone_C8
             16000%Q 15%Q 5%Q 300000%Q 960000%Q); lra.
  - apply (proj1 (proj2 estimateChunkTotal_monotone_C8)).
  - apply (proj2 (proj2 estimateChunkTotal_monotone_C8)).
Defined.

(** ** Resampler *)

Example resample_up_twice :
  exists output,
    resampleToRate [0; 1; 2]%Q 1 2 = Some output
    /\ Forall2 Qeq output [0; 1 # 2; 1; 3 # 2; 2; 2]%Q.
Proof.
  eexists. split; [reflexivity|].
  repeat (constructor; [vm_compute; reflexivity|]). constructor.
Qed.

Example resample_down_to_one_sample :
  exists output,
    resampleToRate [7; 9]%Q 10 1 = Some output /\ Forall2 Qeq output [7]%Q.
Proof.
  eexists. split; [reflexivity|].
  repeat (constructor; [vm_compute; reflexivity|]). constructor.
Qed.

Example resample_empty_reads_nothing : resampleToRate [] 1 2 = None.
Proof. reflexivity. Qed.

Lemma mapM_seq_lookup {B : Type} (f : nat -> option B) (n : nat)
    (out : list B) :
  mapM f (seq 0 n) = Some out ->
  length out = n /\ forall i, i < n -> out !! i = f i.
Proof.
  intros H. apply mapM_Some_1 in H. split.
  - apply Forall2_length in H. rewrite length_seq in H. congruence.
  - intros i Hi.
    destruct (Forall2_lookup_l _ _ _ i i H) as (y & Hy & Hf).
    + apply lookup_seq. split; [reflexivity|assumption].
    + congruence.
Qed.

Lemma array_get_in_range {A : Type} (l : list A) (k : Z) :
  (0 <= k < Z.of_nat (length l))%Z -> is_Some (array_get l k).
Proof.
  intros Hk. unfold array_get.
  destruct (k <? 0)%Z eqn:E; [lia|].
  apply lookup_lt_is_Some. lia.
Qed.

Lemma array_get_zero {A : Type} (l : list A) : array_get l 0 = l !! 0.
Proof. reflexivity. Qed.

(** The source position of every output index lies inside the input. *)
Lemma position_in_range (n : nat) (ratio : Q) (i : nat) :
  0 < n -> ~ (ratio == 0)%Q -> i < resample_length n ratio ->
  (0 <= inject_Z (Z.of_nat i) / ratio)%Q
  /\ (inject_Z (Z.of_nat i) / ratio < inject_Z (Z.of_nat n))%Q.
Proof.
  intros Hn Hr Hi. unfold resample_length, Js.round in Hi.
  assert (Hn' : (1 <= inject_Z (Z.of_nat n))%Q).
  { change 1%Q with (inject_Z 1). rewrite <- Zle_Qle. lia. }
  assert (Hi0 : (0 <= inject_Z (Z.of_nat i))%Q).
  { change 0%Q with (inject_Z 0). rewrite <- Zle_Qle. lia. }
  destruct (Qlt_le_dec 0 ratio) as [Hpos|Hneg].
  - split.
    + apply Qle_shift_div_l; [assumption|]. lra.
    + apply Qlt_shift_div_r; [assumption|].
      destruct (Z.max_spec 1
        (Qfloor (inject_Z (Z.of_nat n) * ratio + (1 # 2)))) as [[_ E]|[_ E]];
        rewrite E in Hi.
      * pose proof (Qfloor_le (inject_Z (Z.of_nat n) * ratio + (1 # 2))) as F.
        assert (G : (inject_Z (Z.of_nat i + 1)
                     <= inject_Z (Qfloor (inject_Z (Z.of_nat n) * ratio
                                          + (1 # 2))))%Q).
        { rewrite <- Zle_Qle. lia. }
        rewrite inject_Z_plus in G. change (inject_Z 1) with 1%Q in G. lra.
      * assert (i = 0)%nat as -> by lia. cbn [Z.of_nat].
        change (inject_Z 0) with 0%Q.
        apply Qmult_lt_0_compat; lra.
  - assert (Hlt : (ratio < 0)%Q).
    { destruct (Qle_lt_or_eq _ _ Hneg) as [H|H]; [assumption|contradiction]. }
    assert (Hfl : (Qfloor (inject_Z (Z.of_nat n) * ratio + (1 # 2)) < 1)%Z).
    { rewrite Zlt_Qlt. eapply Qle_lt_trans; [apply Qfloor_le|].
      change (inject_Z 1) with 1%Q.
      assert (0 < inject_Z (Z.of_nat n) * - ratio)%Q
        by (apply Qmult_lt_0_compat; lra).
      lra. }
    assert (i = 0)%nat as -> by lia. cbn [Z.of_nat].
    change (inject_Z 0) with 0%Q.
    assert (E : (0 / ratio == 0)%Q) by (field; assumption).
    rewrite E. split; lra.
Qed.

Lemma floor_in_range (n : nat) (x : Q) :
  (0 <= x)%Q -> (x < inject_Z (Z.of_nat n))%Q ->
  (0 <= Qfloor x <= Z.of_nat n - 1)%Z.
Proof.
  intros H0 Hn. split.
  - change 0%Z with (Qfloor 0). apply Qfloor_resp_le, H0.
  - enough (Qfloor x < Z.of_nat n)%Z by lia.
    rewrite Zlt_Qlt. eapply Qle_lt_trans; [apply Qfloor_le|exact Hn].
Qed.

(** What one turn of the loop writes, when the position is in range. *)
Lemma resample_at_in_range (input : list Q) (ratio : Q) (i : nat) :
  ~ (ratio == 0)%Q ->
  (0 <= inject_Z (Z.of_nat i) / ratio)%Q ->
  (inject_Z (Z.of_nat i) / ratio < inject_Z (Z.of_nat (length input)))%Q ->
  exists a b,
    let position := (inject_Z (Z.of_nat i) / ratio)%Q in
    let index := Qfloor position in
    array_get input index = Some a
    /\ array_get input (Z.min (index + 1) (Z.of_nat (length input) - 1))
       = Some b
    /\ resample_at input ratio i
       = Some (a * (1 - (position - inject_Z index))
               + b * (position - inject_Z index))%Q.
Proof.
  intros Hr H0 Hn.
  pose proof (floor_in_range _ _ H0 Hn) as Hidx.
  destruct (array_get_in_range input
              (Qfloor (inject_Z (Z.of_nat i) / ratio))) as [a Ha]; [lia|].
  destruct (array_get_in_range input
              (Z.min (Qfloor (inject_Z (Z.of_nat i) / ratio) + 1)
                 (Z.of_nat (length input) - 1))) as [b Hb]; [lia|].
  exists a, b. cbn zeta. split; [exact Ha|]. split; [exact Hb|].
  unfold resample_at. rewrite Js_div_nonzero by exact Hr.
  cbn [mbind option_bind]. unfold Js.floor.
  rewrite Ha. cbn [mbind option_bind]. rewrite Hb. reflexivity.
Qed.

Lemma resampleToRate_runs (input : list Q) (sourceRate targetRate : Q) :
  input <> [] -> ~ (sourceRate == 0)%Q -> ~ (targetRate == 0)%Q ->
  Js.eq sourceRate targetRate = false ->
  exists output,
    resampleToRate input sourceRate targetRate = Some output
    /\ length output
       = resample_length (length input) (targetRate / sourceRate)
    /\ forall i, i < length output ->
         output !! i
         = resample_at input (targetRate / sourceRate) i.
Proof.
  intros Hin Hs Ht Hne. unfold resampleToRate. rewrite Hne.
  rewrite Js_div_nonzero by exact Hs. cbn [mbind option_bind].
  assert (Hr : ~ (targetRate / sourceRate == 0)%Q).
  { intros E. apply Ht.
    assert (E' : (targetRate == targetRate / sourceRate * sourceRate)%Q)
      by (field; assumption).
    rewrite E'. rewrite E. ring. }
  assert (Hlen : 0 < length input) by (destruct input; [done|cbn; lia]).
  destruct (mapM (resample_at input (targetRate / sourceRate))
              (seq 0 (resample_length (length input)
                        (targetRate / sourceRate)))) as [output|] eqn:E.
  - exists output. destruct (mapM_seq_lookup _ _ _ E) as [Hl Hlk].
    split; [reflexivity|]. split; [exact Hl|].
    intros i Hi. apply Hlk. lia.
  - exfalso. apply mapM_None_1 in E. apply Exists_exists in E.
    destruct E as (i & Hi & Hnone).
    apply elem_of_seq in Hi.
    destruct (position_in_range (length input) _ i Hlen Hr) as [P0 Pn];
      [lia|].
    destruct (resample_at_in_range input _ i Hr P0 Pn) as (a & b & _ & _ & R).
    cbn zeta in R. congruence.
Qed.

Lemma Js_eq_true a b : Js.eq a b = true <-> (a == b)%Q.
Proof. apply Qeq_bool_iff. Qed.

Lemma Js_eq_false a b : Js.eq a b = false <-> ~ (a == b)%Q.
Proof.
  unfold Js.eq. split.
  - intros H E. apply Qeq_bool_iff in E. congruence.
  - intros H. destruct (Qeq_bool a b) eqn:E; [|reflexivity].
    apply Qeq_bool_iff in E. contradiction.
Qed.

Lemma ratio_nonzero (sourceRate targetRate : Q) :
  ~ (sourceRate == 0)%Q -> ~ (targetRate == 0)%Q ->
  ~ (targetRate / sourceRate == 0)%Q.
Proof.
  intros Hs Ht E. apply Ht.
  assert (E' : (targetRate == targetRate / sourceRate * sourceRate)%Q)
    by (field; assumption).
  rewrite E', E. ring.
Qed.

Lemma position_as_specified (i sourceRate targetRate : Q) :
  ~ (sourceRate == 0)%Q -> ~ (targetRate == 0)%Q ->
  (i / (targetRate / sourceRate) == i * sourceRate / targetRate)%Q.
Proof. intros Hs Ht. field. split; assumption. Qed.

Lemma resample_length_pos (n : nat) (ratio : Q) :
  0 < resample_length n ratio.
Proof. unfold resample_length. lia. Qed.

(** C10: for a non-empty input and positive rates the resampler returns,
    and at every output index [i] the index it reads,
    [floor(i * sourceRate / targetRate)], is at most [inputLength - 1]
    (and not negative), as is the clamped successor: both reads find a
    sample. *)
Theorem resample_reads_in_bounds_C10 :
  forall (input : list Q) (sourceRate targetRate : Q),
    input <> [] -> (0 < sourceRate)%Q -> (0 < targetRate)%Q ->
    is_Some (resampleToRate input sourceRate targetRate)
    /\ forall i : nat,
         i < resample_length (length input) (targetRate / sourceRate) ->
         let index :=
           Qfloor (inject_Z (Z.of_nat i) * sourceRate / targetRate)%Q in
         let next := Z.min (index + 1) (Z.of_nat (length input) - 1) in
         Js.floor (inject_Z (Z.of_nat i) / (targetRate / sourceRate))%Q
         = index
         /\ (0 <= index <= Z.of_nat (length input) - 1)%Z
         /\ (0 <= next <= Z.of_nat (length input) - 1)%Z
         /\ is_Some (array_get input index)
         /\ is_Some (array_get input next).
Proof.
  intros input s t Hin Hs Ht.
  assert (Hs0 : ~ (s == 0)%Q) by (intros E; rewrite E in Hs; lra).
  assert (Ht0 : ~ (t == 0)%Q) by (intros E; rewrite E in Ht; lra).
  assert (Hlen : 0 < length input) by (destruct input; [done|cbn; lia]).
  split.
  - destruct (Js.eq s t) eqn:E.
    + unfold resampleToRate. rewrite E. eauto.
    + destruct (resampleToRate_runs input s t Hin Hs0 Ht0 E) as (o & -> & _).
      eauto.
  - intros i Hi index next.
    destruct (position_in_range _ _ i Hlen (ratio_nonzero s t Hs0 Ht0) Hi)
      as [P0 Pn].
    pose proof (floor_in_range _ _ P0 Pn) as Hidx.
    assert (E : Qfloor (inject_Z (Z.of_nat i) / (t / s)) = index).
    { apply Qfloor_comp, position_as_specified; assumption. }
    unfold Js.floor. rewrite E in *.
    split; [reflexivity|]. split; [lia|]. split; [subst next; lia|].
    split; apply array_get_in_range; subst next; lia.
Qed.

Lemma resample_reads_in_bounds_C10_witness :
  is_Some (resampleToRate [0; 1; 2]%Q 1 2)
  /\ Js.floor (inject_Z (Z.of_nat 5) / (2 / 1))%Q = 2%Z.
Proof.
  destruct (resample_reads_in_bounds_C10 [0; 1; 2]%Q 1%Q 2%Q) as [R B].
  - discriminate.
  - reflexivity.
  - reflexivity.
  - split; [exact R|]. destruct (B 5) as [E _].
    + vm_compute. lia.
    + rewrite E. reflexivity.
Defined.

(** On an empty input the loop still runs once and reads [input[0]],
    which is not there; with a rate of zero the ratio or the position is
    a division by zero.  The specified behaviour fails at these inputs. *)
Lemma resample_claim_fails_on_empty_or_zero_rate :
  ~ resample_claim [] 1 2
  /\ ~ resample_claim [1]%Q 0 1
  /\ ~ resample_claim [1]%Q 1 0.
Proof.
  repeat split; intros [_ H]; destruct H as (output & Hrun & _);
    try discriminate Hrun; intros E; discriminate E.
Qed.

(** A rate of zero makes the ratio or the position a division by zero. *)
Example resample_zero_rate :
  resampleToRate [1]%Q 0 1 = None /\ resampleToRate [1]%Q 1 0 = None.
Proof. split; reflexivity. Qed.

(** C7: the resampler returns its input whenever the rates are equal,
    for every input and every rate; when they differ, for every non-empty
    input and rates other than zero, the output has length
    [max(1, round(n * targetRate/sourceRate))], every output index [i]
    holds the linear blend of [input[floor(i * sourceRate/targetRate)]]
    and its clamped successor weighted by the fractional part, and
    [output[0]] equals [input[0]]. *)
Theorem resampleToRate_blend_C7 :
  forall (input : list Q) (sourceRate targetRate : Q),
    ((sourceRate == targetRate)%Q ->
     resampleToRate input sourceRate targetRate = Some input)
    /\ (~ (sourceRate == targetRate)%Q ->
        input <> [] -> ~ (sourceRate == 0)%Q -> ~ (targetRate == 0)%Q ->
        resample_blend_claim input sourceRate targetRate).
Proof.
  intros input s t. split.
  - intros E. apply Js_eq_true in E. unfold resampleToRate. now rewrite E.
  - intros Hne Hin Hs Ht. apply Js_eq_false in Hne.
    destruct (resampleToRate_runs input s t Hin Hs Ht Hne)
      as (output & Hrun & Hlen & Hlk).
    pose proof (ratio_nonzero s t Hs Ht) as Hr.
    assert (Hn : 0 < length input) by (destruct input; [done|cbn; lia]).
    assert (Hat : forall i, i < length output ->
              exists y, output !! i = Some y
                /\ blend_at input (inject_Z (Z.of_nat i) * s / t)%Q y).
    { intros i Hi. rewrite (Hlk i Hi).
      destruct (position_in_range _ _ i Hn Hr) as [P0 Pn]; [lia|].
      destruct (resample_at_in_range input _ i Hr P0 Pn)
        as (a & b & Ha & Hb & ->).
      cbn zeta in Ha, Hb.
      pose proof (position_as_specified (inject_Z (Z.of_nat i)) s t Hs Ht)
        as E.
      pose proof (Qfloor_comp _ _ E) as Ef.
      eexists. split; [reflexivity|].
      exists a, b. cbn zeta. rewrite <- Ef.
      split; [exact Ha|]. split; [exact Hb|].
      generalize (inject_Z (Qfloor (inject_Z (Z.of_nat i) / (t / s)))).
      intros k. now rewrite E. }
    exists output. split; [exact Hrun|]. split; [exact Hlen|].
    split; [exact Hat|].
    assert (H0 : 0 < length output).
    { rewrite Hlen. apply resample_length_pos. }
    destruct (Hat 0%nat H0) as (y & Hy & a & b & Ha & _ & Eq).
    cbn zeta in Ha, Eq.
    assert (Ez : (inject_Z (Z.of_nat 0) * s / t == 0)%Q)
      by (change (inject_Z (Z.of_nat 0)) with 0%Q; field; assumption).
    rewrite (Qfloor_comp _ _ Ez) in Ha, Eq.
    change (Qfloor 0) with 0%Z in Ha, Eq. rewrite array_get_zero in Ha.
    exists a, y. split; [exact Ha|]. split; [exact Hy|].
    rewrite Eq, Ez. change (inject_Z 0) with 0%Q. ring.
Qed.

Lemma resampleToRate_blend_C7_witness :
  resampleToRate [] 0 0 = Some []
  /\ resample_blend_claim [0; 1; 2]%Q 1 2.
Proof.
  split.
  - apply (proj1 (resampleToRate_blend_C7 [] 0%Q 0%Q)). reflexivity.
  - apply (proj2 (resampleToRate_blend_C7 [0; 1; 2]%Q 1%Q 2%Q));
      discriminate.
Defined.

(** ** Job controller *)

Lemma onmessage_other_job (data : WorkerMessage) (s : State) :
  jobId_of data <> activeJobId s -> onmessage data s = s.
Proof.
  intros Hne. unfold onmessage.
  destruct (Z.eqb_spec (jobId_of data) (activeJobId s)) as [E|_];
    [contradiction|reflexivity].
Qed.

Lemma onmessage_activeJobId (data : WorkerMessage) (s : State) :
  activeJobId (onmessage data s) = activeJobId s.
Proof.
  unfold onmessage.
  destruct (negb (jobId_of data =? activeJobId s)%Z); [reflexivity|].
  destruct data; reflexivity.
Qed.

Lemma applyAutoGroup_activeJobId (s : State) :
  activeJobId (completed (applyAutoGroup s)) = activeJobId s.
Proof.
  unfold applyAutoGroup.
  destruct (length (segments s) =? 0); [reflexivity|].
  cbn zeta. destruct (auto_grouped _ _ _); reflexivity.
Qed.

Lemma step_activeJobId_mono (s : State) (e : Event) :
  (activeJobId s <= activeJobId (step s e))%Z.
Proof.
  destruct e; cbn [step].
  - cbn. lia.
  - cbn. lia.
  - cbn. lia.
  - unfold handleFileUpload_failed. cbn. lia.
  - rewrite onmessage_activeJobId. lia.
  - cbn. lia.
  - cbn. lia.
  - cbn. lia.
  - cbn. lia.
  - unfold openAutoGroupModal.
    destruct (autoGroupMode s); cbn; try lia.
    destruct (length (segments s) =? 0); cbn; lia.
  - rewrite applyAutoGroup_activeJobId. lia.
Qed.

Lemma run_activeJobId_mono (events : list Event) (s : State) :
  (activeJobId s <= activeJobId (run events s))%Z.
Proof.
  unfold run. revert s.
  induction events as [|e events IH]; intros s; cbn [foldl]; [lia|].
  etransitivity; [apply step_activeJobId_mono|apply IH].
Qed.

(** C1: once a new job is submitted the active job id is larger than the
    id of every older job, it stays so whatever happens later, and a
    worker message tagged with an older id (progress, partial, done or
    error) leaves the whole state as it is: the segment list, the progress
    counters and the status do not change and nothing is shown. *)
Theorem superseded_job_is_silent_C1 :
  forall (s : State) (later : list Event) (data : WorkerMessage),
    (jobId_of data <= activeJobId s)%Z ->
    fst (handleFileUpload_submit s) = (activeJobId s + 1)%Z
    /\ activeJobId (snd (handleFileUpload_submit s)) = (activeJobId s + 1)%Z
    /\ onmessage data (run later (snd (handleFileUpload_submit s)))
       = run later (snd (handleFileUpload_submit s)).
Proof.
  intros s later data Hold.
  split; [reflexivity|]. split; [reflexivity|].
  apply onmessage_other_job.
  pose proof (run_activeJobId_mono later (snd (handleFileUpload_submit s))).
  change (activeJobId (snd (handleFileUpload_submit s)))
    with (activeJobId s + 1)%Z in H.
  lia.
Qed.

Lemma superseded_job_is_silent_C1_witness :
  (jobId_of (Done 1 []) <= activeJobId (snd (handleFileUpload_submit initial)))%Z
  /\ onmessage (Done 1 [])
       (run [WorkerMsg (Partial 2 1 4 [WorkerChunk.mk (0, Some 1)%Q "a"]);
             ToggleLink 0]
          (snd (handleFileUpload_submit
                  (snd (handleFileUpload_submit initial)))))
     = run [WorkerMsg (Partial 2 1 4 [WorkerChunk.mk (0, Some 1)%Q "a"]);
            ToggleLink 0]
         (snd (handleFileUpload_submit
                 (snd (handleFileUpload_submit initial)))).
Proof.
  split.
  - vm_compute. discriminate.
  - apply (superseded_job_is_silent_C1
             (snd (handleFileUpload_submit initial))).
    vm_compute. discriminate.
Defined.

Example stale_partial_after_resubmission :
  let s := run [UploadBegin;
                UploadDecoded (mkAudioBuffer 3 2 [[0; 0; 0; 0; 0; 0]%Q]);
                UploadSubmit; UploadBegin;
                UploadDecoded (mkAudioBuffer 5 2 [[0; 0; 0; 0; 0; 0]%Q]);
                UploadSubmit] initial in
  activeJobId s = 2%Z
  /\ step s (WorkerMsg (Partial 1 1 1 [WorkerChunk.mk (0, None)%Q "old"]))
     = s
  /\ segments
       (step s (WorkerMsg (Partial 2 1 1 [WorkerChunk.mk (0, None)%Q " new "])))
     = [mkSegment 1 0 5 "new" true false].
Proof. vm_compute. repeat split. Qed.

Lemma syncSegmentsFromChunks_segments chunks (s : State) :
  segments (syncSegmentsFromChunks chunks s)
  = imap (fresh_segment (from_option duration 0%Q (audioBuffer s))) chunks.
Proof. reflexivity. Qed.

Lemma onmessage_active_segments (data : WorkerMessage) (s : State) chunks :
  jobId_of data = activeJobId s -> chunks_of data = Some chunks ->
  segments (onmessage data s)
  = imap (fresh_segment (from_option duration 0%Q (audioBuffer s))) chunks.
Proof.
  intros Hid Hch. unfold onmessage. rewrite Hid, Z.eqb_refl. cbn [negb].
  destruct data; cbn in Hch; try discriminate; injection Hch as ->;
    reflexivity.
Qed.

(** C6: a partial or done message of the active job replaces the segment
    list by one made of its chunks alone: one segment per chunk, ids
    counting from 1 by position, every segment selected and not linked
    whatever the list held before, and the end of the final segment is
    the duration of the audio when the engine left it out. *)
Theorem decode_replaces_segments_C6 :
  forall (s : State) (buffer : AudioBuffer) (data : WorkerMessage)
         (chunks : list WorkerChunk.t),
    audioBuffer s = Some buffer ->
    jobId_of data = activeJobId s ->
    chunks_of data = Some chunks ->
    segments (onmessage data s) = imap (fresh_segment (duration buffer)) chunks
    /\ (forall prior : list Segment,
          segments (onmessage data (with_segments prior s))
          = segments (onmessage data s))
    /\ length (segments (onmessage data s)) = length chunks
    /\ (forall (i : nat) (seg : Segment),
          segments (onmessage data s) !! i = Some seg ->
          id seg = (Z.of_nat i + 1)%Z
          /\ selected seg = true /\ linkNext seg = false)
    /\ (forall chunk : WorkerChunk.t,
          last chunks = Some chunk ->
          exists seg,
            last (segments (onmessage data s)) = Some seg
            /\ end_ seg = match snd (WorkerChunk.timestamp chunk) with
                          | Some finish => finish
                          | None => duration buffer
                          end).
Proof.
  intros s buffer data chunks Hbuf Hid Hch.
  assert (E : segments (onmessage data s)
              = imap (fresh_segment (duration buffer)) chunks).
  { rewrite (onmessage_active_segments data s chunks Hid Hch), Hbuf.
    reflexivity. }
  split; [exact E|]. split.
  { intros prior.
    rewrite !(onmessage_active_segments data _ chunks) by assumption.
    reflexivity. }
  rewrite E. split; [apply length_imap|]. split.
  - intros i seg Hseg. rewrite list_lookup_imap in Hseg.
    destruct (chunks !! i) as [chunk|]; [|discriminate].
    injection Hseg as <-. repeat split.
  - intros chunk Hlast. rewrite last_lookup in Hlast.
    exists (fresh_segment (duration buffer) (pred (length chunks)) chunk).
    split.
    + rewrite last_lookup, length_imap, list_lookup_imap, Hlast. reflexivity.
    + cbn. destruct (snd (WorkerChunk.timestamp chunk)); reflexivity.
Qed.

Lemma decode_replaces_segments_C6_witness :
  segments
    (onmessage (Done 1 [WorkerChunk.mk (0, Some 1)%Q "a";
                        WorkerChunk.mk (1, None)%Q " b "])
       (with_segments [mkSegment 9 0 1 "x" false true]
          (snd (handleFileUpload_submit
                  (handleFileUpload_decoded (mkAudioBuffer 3 2 [])
                     initial)))))
  = [mkSegment 1 0 1 "a" true false; mkSegment 2 1 3 "b" true false].
Proof.
  destruct (decode_replaces_segments_C6
              (with_segments [mkSegment 9 0 1 "x" false true]
                 (snd (handleFileUpload_submit
                         (handleFileUpload_decoded (mkAudioBuffer 3 2 [])
                            initial))))
              (mkAudioBuffer 3 2 [])
              (Done 1 [WorkerChunk.mk (0, Some 1)%Q "a";
                       WorkerChunk.mk (1, None)%Q " b "])
              [WorkerChunk.mk (0, Some 1)%Q "a";
               WorkerChunk.mk (1, None)%Q " b "]) as [E _].
  - reflexivity.
  - reflexivity.
  - reflexivity.
  - rewrite E. reflexivity.
Defined.

(** ** Group derivation *)

Lemma nonempty_length {A : Type} (l : list A) :
  negb (length l =? 0) = nonempty l.
Proof. destruct l; reflexivity. Qed.

Lemma nonempty_true {A : Type} (l : list A) : nonempty l = true <-> l <> [].
Proof. destruct l; cbn; split; congruence. Qed.

Lemma buildGroups_loop (len : nat) (segs : list Segment) :
  forall (idx : nat) (groups : list (list Segment)) (current : list Segment),
    idx + length segs = len ->
    fst (forEach_from (buildGroups_step len) idx segs (groups, current))
    = groups ++ groups_from current segs.
Proof.
  induction segs as [|seg rest IH]; intros idx groups current Hlen.
  - cbn. now rewrite app_nil_r.
  - cbn [forEach_from groups_from]. cbn [length] in Hlen.
    unfold buildGroups_step at 2. cbn zeta.
    assert (Hlast : (idx =? len - 1) = negb (nonempty rest)).
    { destruct rest; cbn [nonempty negb length] in *.
      - apply Nat.eqb_eq. lia.
      - apply Nat.eqb_neq. lia. }
    rewrite Hlast, nonempty_length.
    destruct ((negb (linkNext seg) || negb (nonempty rest))
              && nonempty (if selected seg then current ++ [seg]
                           else current)).
    + rewrite IH by lia. now rewrite <- app_assoc.
    + now rewrite IH by lia.
Qed.

Lemma buildGroups_groups_from (segs : list Segment) :
  buildGroups segs = groups_from [] segs.
Proof.
  unfold buildGroups, forEach. now rewrite buildGroups_loop.
Qed.

Lemma chains_nonempty (seg : Segment) (rest : list Segment) :
  exists chain more, chains (seg :: rest) = chain :: more.
Proof.
  cbn [chains]. destruct (linkNext seg); [|eauto].
  destruct (chains rest); eauto.
Qed.

Lemma filter_nonempty_cons {A : Type} (l : list A) (ls : list (list A)) :
  List.filter nonempty (l :: ls)
  = (if nonempty l then [l] else []) ++ List.filter nonempty ls.
Proof. cbn [List.filter]. destruct (nonempty l); reflexivity. Qed.

Lemma chains_cons (seg : Segment) (rest : list Segment) :
  chains (seg :: rest)
  = if linkNext seg then
      match chains rest with
      | [] => [[seg]]
      | chain :: more => (seg :: chain) :: more
      end
    else [seg] :: chains rest.
Proof. reflexivity. Qed.

Lemma groups_from_cons (current : list Segment) (seg : Segment)
    (rest : list Segment) :
  groups_from current (seg :: rest)
  = if (negb (linkNext seg) || negb (nonempty rest))
       && nonempty (if selected seg then current ++ [seg] else current)
    then (if selected seg then current ++ [seg] else current)
         :: groups_from [] rest
    else groups_from (if selected seg then current ++ [seg] else current)
           rest.
Proof. reflexivity. Qed.

Lemma include_one (current : list Segment) (seg : Segment) :
  current ++ List.filter selected [seg]
  = if selected seg then current ++ [seg] else current.
Proof. cbn. destruct (selected seg); [reflexivity|apply app_nil_r]. Qed.

Lemma groups_from_chains (segs : list Segment) :
  forall (seg : Segment) (current : list Segment),
    groups_from current (seg :: segs)
    = match chains (seg :: segs) with
      | [] => []
      | chain :: more =>
          List.filter nonempty
            ((current ++ List.filter selected chain)
             :: map (List.filter selected) more)
      end.
Proof.
  induction segs as [|next rest IH]; intros seg current.
  - rewrite groups_from_cons, chains_cons. cbn [chains nonempty negb].
    rewrite orb_true_r. cbn [andb].
    destruct (linkNext seg); rewrite filter_nonempty_cons, include_one;
      destruct (nonempty _); reflexivity.
  - destruct (chains_nonempty next rest) as (chain & more & Hch).
    pose proof (IH next) as IHn. rewrite Hch in IHn.
    rewrite groups_from_cons, chains_cons, Hch. cbn [nonempty negb].
    rewrite orb_false_r.
    destruct (linkNext seg); cbn [negb andb].
    + rewrite IHn. f_equal. f_equal. cbn [List.filter].
      destruct (selected seg); [now rewrite <- app_assoc|reflexivity].
    + rewrite filter_nonempty_cons, include_one. cbn [map].
      rewrite !IHn. cbn [app].
      destruct (nonempty (if selected seg then current ++ [seg] else current))
        eqn:En; [reflexivity|].
      destruct (selected seg); destruct current; cbn in En; try discriminate.
      reflexivity.
Qed.

Lemma buildGroups_is_spec (segs : list Segment) :
  buildGroups segs = groups_spec segs.
Proof.
  rewrite buildGroups_groups_from. unfold groups_spec.
  destruct segs as [|seg rest]; [reflexivity|].
  rewrite groups_from_chains.
  destruct (chains_nonempty seg rest) as (chain & more & ->). reflexivity.
Qed.

Lemma closed_cons (seg : Segment) (chain : list Segment) :
  chain <> [] -> closed chain -> closed (seg :: chain).
Proof.
  intros Hne Hc final Hlast. apply Hc.
  destruct chain; [contradiction|exact Hlast].
Qed.

Lemma chains_maximal_runs (segs : list Segment) :
  maximal_runs segs (chains segs).
Proof.
  induction segs as [|seg rest (Hcat & Hall & Hclosed)].
  - repeat split; [constructor|]. intros i run H. discriminate H.
  - rewrite chains_cons. destruct (linkNext seg) eqn:Hl.
    + destruct (chains rest) as [|chain more] eqn:Hch.
      * cbn in Hcat. subst rest. repeat split.
        -- repeat constructor. discriminate.
        -- intros i run _ Hi. cbn in Hi. lia.
      * apply Forall_cons in Hall as [[Hne Hin] Hall]. split; [|split].
        -- cbn in Hcat |- *. now rewrite Hcat.
        -- constructor; [|exact Hall]. split; [discriminate|].
           destruct chain; [contradiction|]. cbn [linked_inside] in *.
           now rewrite Hl, Hin.
        -- intros [|i] run Hrun Hi.
           ++ injection Hrun as <-. apply closed_cons; [exact Hne|].
              apply (Hclosed 0%nat); [reflexivity|exact Hi].
           ++ apply (Hclosed (S i)); [exact Hrun|exact Hi].
    + split; [|split].
      * cbn. now rewrite Hcat.
      * constructor; [|exact Hall]. split; [discriminate|reflexivity].
      * intros [|i] run Hrun Hi.
        -- injection Hrun as <-. intros final [= <-]. exact Hl.
        -- apply (Hclosed i); [exact Hrun|]. cbn [length] in Hi. lia.
Qed.

Lemma concat_filter_nonempty {A : Type} (ls : list (list A)) :
  concat (List.filter nonempty ls) = concat ls.
Proof.
  induction ls as [|l ls IH]; [reflexivity|].
  cbn [List.filter]. destruct l; cbn; [exact IH|]. now rewrite IH.
Qed.

Lemma buildGroups_selected (segs : list Segment) :
  concat (buildGroups segs) = List.filter selected segs.
Proof.
  rewrite buildGroups_is_spec. unfold groups_spec.
  rewrite concat_filter_nonempty, List.concat_filter_map.
  destruct (chains_maximal_runs segs) as [-> _]. reflexivity.
Qed.

Lemma groups_from_nonempty (segs : list Segment) :
  forall current, Forall (fun group => group <> []) (groups_from current segs).
Proof.
  induction segs as [|seg rest IH]; intros current; [constructor|].
  rewrite groups_from_cons.
  destruct (negb (linkNext seg) || negb (nonempty rest)); cbn [andb];
    [|apply IH].
  destruct (nonempty _) eqn:E; [|apply IH].
  constructor; [|apply IH]. now apply nonempty_true.
Qed.

Lemma buildGroups_nonempty (segs : list Segment) :
  Forall (fun group => group <> []) (buildGroups segs).
Proof. rewrite buildGroups_groups_from. apply groups_from_nonempty. Qed.

Lemma exportGroup_nonempty (buffer : AudioBuffer) (group : list Segment) :
  group <> [] -> is_Some (exportGroup buffer group).
Proof.
  intros Hne. unfold exportGroup.
  destruct (lookup_lt_is_Some_2 group 0) as [first ->].
  { destruct group; [contradiction|cbn; lia]. }
  destruct (lookup_lt_is_Some_2 group (length group - 1)) as [final ->].
  { destruct group; [contradiction|cbn; lia]. }
  cbn. eauto.
Qed.

Lemma exportGroup_entry (buffer : AudioBuffer) (group : list Segment)
    (entry : ExportEntry) :
  exportGroup buffer group = Some entry -> entry_of_group buffer group entry.
Proof.
  unfold exportGroup. intros H.
  destruct (group !! 0) as [first|] eqn:Hf; [|discriminate].
  destruct (group !! (length group - 1)) as [final|] eqn:Hl; [|discriminate].
  cbn in H. injection H as <-.
  exists first, final. cbn.
  split; [destruct group; [discriminate|exact Hf]|].
  split; [rewrite last_lookup, <- Nat.sub_1_r; exact Hl|].
  repeat split.
Qed.

Lemma export_runs (buffer : AudioBuffer) (segs : list Segment) :
  exists entries,
    mapM (exportGroup buffer) (buildGroups segs) = Some entries
    /\ Forall2 (entry_of_group buffer) (buildGroups segs) entries.
Proof.
  destruct (mapM_is_Some_2 (exportGroup buffer) (buildGroups segs))
    as [entries Hrun].
  { eapply Forall_impl; [apply buildGroups_nonempty|].
    intros group Hne. now apply exportGroup_nonempty. }
  exists entries. split; [exact Hrun|].
  apply mapM_Some_1 in Hrun.
  eapply Forall2_impl; [exact Hrun|]. apply exportGroup_entry.
Qed.

(** Three abutting segments in one chain, the middle one unselected, over
    a buffer of six samples at 2 Hz. *)
Example skipped_middle_is_exported :
  let buffer := mkAudioBuffer 3 2 [[10; 11; 12; 13; 14; 15]%Q] in
  let segs := [mkSegment 1 0 1 "a" true true;
               mkSegment 2 1 2 "b" false true;
               mkSegment 3 2 3 "c" true false] in
  mapM (exportGroup buffer) (buildGroups segs)
  = Some [mkExportEntry 0 3 "a c" 0 6 [[10; 11; 12; 13; 14; 15]%Q]]
  /\ members_audio buffer [mkSegment 1 0 1 "a" true true;
                           mkSegment 3 2 3 "c" true false]
     = [[10; 11; 14; 15]%Q].
Proof. split; reflexivity. Qed.



Lemma filter_unselected (chain : list Segment) :
  Forall (fun seg => selected seg = false) chain ->
  List.filter selected chain = [].
Proof.
  induction 1 as [|seg chain Hseg _ IH]; [reflexivity|].
  cbn. now rewrite Hseg.
Qed.

Example unselected_chain_is_dropped :
  buildGroups [mkSegment 1 0 1 "a" true false;
               mkSegment 2 1 2 "b" false true;
               mkSegment 3 2 3 "c" false false;
               mkSegment 4 3 4 "d" true false]
  = [[mkSegment 1 0 1 "a" true false]; [mkSegment 4 3 4 "d" true false]].
Proof. reflexivity. Qed.

(** C9: every group that [buildGroups] produces has a member; a chain
    whose segments are all unselected gives no group, the groups being
    those of the other chains; and the export finds a first and a last
    member in every group it is given, so that it makes an entry for
    each and none for a group without segments. *)
Theorem buildGroups_never_empty_C9 :
  forall segs : list Segment,
    Forall (fun group => group <> []) (buildGroups segs)
    /\ (forall before chain after,
          chains segs = before ++ chain :: after ->
          Forall (fun seg => selected seg = false) chain ->
          buildGroups segs
          = List.filter nonempty
              (map (List.filter selected) (before ++ after)))
    /\ (forall buffer : AudioBuffer,
          exists entries,
            mapM (exportGroup buffer) (buildGroups segs) = Some entries
            /\ length entries = length (buildGroups segs)).
Proof.
  intros segs. split; [apply buildGroups_nonempty|]. split.
  - intros before chain after Hch Hun.
    rewrite buildGroups_is_spec. unfold groups_spec. rewrite Hch.
    rewrite !map_app, !List.filter_app. cbn [map List.filter].
    now rewrite (filter_unselected chain Hun).
  - intros buffer. destruct (export_runs buffer segs) as (entries & H & H2).
    exists entries. split; [exact H|].
    symmetry. eapply Forall2_length, H2.
Qed.

Lemma buildGroups_never_empty_C9_witness :
  buildGroups [mkSegment 1 0 1 "a" true false;
               mkSegment 2 1 2 "b" false true;
               mkSegment 3 2 3 "c" false false;
               mkSegment 4 3 4 "d" true false]
  = List.filter nonempty
      (map (List.filter selected)
         ([[mkSegment 1 0 1 "a" true false]]
          ++ [[mkSegment 4 3 4 "d" true false]])).
Proof.
  apply (proj1 (proj2 (buildGroups_never_empty_C9 _))
           [[mkSegment 1 0 1 "a" true false]]
           [mkSegment 2 1 2 "b" false true; mkSegment 3 2 3 "c" false false]
           [[mkSegment 4 3 4 "d" true false]]).
  - reflexivity.
  - repeat constructor.
Defined.

(** ** Numbers of the dialog *)

Lemma Qfloor_div_Z (a b : Z) :
  (0 < b)%Z -> Qfloor (inject_Z a / inject_Z b) = (a / b)%Z.
Proof.
  intros Hb. destruct b as [|p|p]; try lia.
  assert (E : (inject_Z a / inject_Z (Z.pos p) == a # p)%Q).
  { unfold Qeq, Qdiv, Qmult, Qinv, inject_Z. cbn. lia. }
  rewrite (Qfloor_comp _ _ E). reflexivity.
Qed.

Lemma nearest_even_bounds (x : Q) :
  (Qfloor x <= Js.nearest_even x <= Qfloor x + 1)%Z
  /\ (Js.nearest_even x = (Qfloor x + 1)%Z ->
      (1 # 2 <= x - inject_Z (Qfloor x))%Q).
Proof.
  unfold Js.nearest_even, Js.lt.
  destruct (Qle_bool (1 # 2) (x - inject_Z (Qfloor x))) eqn:E1; cbn [negb].
  - apply Qle_bool_iff in E1.
    destruct (Qle_bool (x - inject_Z (Qfloor x)) (1 # 2)); cbn [negb];
      [destruct (Z.even (Qfloor x))|]; split; try lia; intros _; exact E1.
  - split; [lia|]. intros H. lia.
Qed.

Lemma pow2_nonpos (s : Z) :
  (0 <= s)%Z -> (Js.pow2 (- s) == 1 / inject_Z (2 ^ s))%Q.
Proof.
  intros Hs. unfold Js.pow2.
  assert (Hp : (0 < 2 ^ s)%Z) by (apply Z.pow_pos_nonneg; lia).
  destruct (Z.leb_spec 0 (- s)) as [H|H].
  - replace s with 0%Z by lia. reflexivity.
  - rewrite Z.opp_involutive.
    destruct (2 ^ s)%Z as [|p|p] eqn:E; try lia.
    unfold Qeq, Qdiv, Qmult, Qinv, inject_Z. cbn. lia.
Qed.

(** The rounded quotient of two whole numbers below [2^53] has the floor
    of the exact quotient: rounding does not reach the next whole
    number. *)
Lemma floor_round64_quotient (n d : Z) :
  (1 <= d <= n)%Z -> (n < 2 ^ 53)%Z ->
  Qfloor (Js.round64 (inject_Z n / inject_Z d)) = (n / d)%Z.
Proof.
  intros Hd Hn.
  set (x := (inject_Z n / inject_Z d)%Q).
  set (k := (n / d)%Z).
  assert (Hk : (1 <= k)%Z) by (apply Z.div_le_lower_bound; lia).
  assert (Hkn : (k <= n)%Z).
  { unfold k. apply Z.div_le_upper_bound; nia. }
  assert (Hfloor : Qfloor x = k) by (apply Qfloor_div_Z; lia).
  assert (Hx1 : (1 <= x)%Q).
  { pose proof (Qfloor_le x) as H. rewrite Hfloor in H.
    assert (inject_Z 1 <= inject_Z k)%Q by (rewrite <- Zle_Qle; exact Hk).
    change (inject_Z 1) with 1%Q in *. lra. }
  set (l := Z.log2 k).
  assert (Hl : (0 <= l <= 52)%Z).
  { split; [apply Z.log2_nonneg|].
    assert (l < 53)%Z; [|lia]. apply Z.log2_lt_pow2; lia. }
  assert (Hlk : (2 ^ l <= k < 2 ^ (l + 1))%Z).
  { replace (l + 1)%Z with (Z.succ l) by lia. apply Z.log2_spec. lia. }
  set (s := (52 - l)%Z).
  set (P := (2 ^ s)%Z).
  assert (HP : (0 < P)%Z) by (apply Z.pow_pos_nonneg; lia).
  assert (HPl : (2 * P * 2 ^ l = 2 ^ 53)%Z).
  { unfold P, s. replace 53%Z with (1 + (52 - l) + l)%Z by lia.
    rewrite !Z.pow_add_r by lia. lia. }
  unfold Js.round64.
  assert (Hx0 : Js.eq x 0 = false).
  { unfold Js.eq. destruct (Qeq_bool x 0) eqn:E; [|reflexivity].
    apply Qeq_bool_iff in E. lra. }
  rewrite Hx0.
  assert (Hneg : Js.lt x 0 = false).
  { unfold Js.lt. apply negb_false_iff, Qle_bool_iff. lra. }
  rewrite Hneg.
  assert (Habs : (Qabs x == x)%Q) by (apply Qabs_pos; lra).
  assert (Hexp : Js.exponent (Qabs x) = l).
  { unfold Js.exponent, Js.le.
    assert (Qle_bool 1 (Qabs x) = true) as -> by (apply Qle_bool_iff; lra).
    rewrite (Qfloor_comp _ _ Habs), Hfloor. reflexivity. }
  rewrite Hexp.
  replace (Z.max (l - 52) (-1074)) with (- s)%Z by lia.
  pose proof (pow2_nonpos s ltac:(lia)) as Hpow. fold P in Hpow.
  assert (HPq : (0 < inject_Z P)%Q)
    by (change 0%Q with (inject_Z 0); rewrite <- Zlt_Qlt; exact HP).
  assert (Hdq : (0 < inject_Z d)%Q)
    by (change 0%Q with (inject_Z 0); rewrite <- Zlt_Qlt; lia).
  assert (Harg : (Qabs x / Js.pow2 (- s) == inject_Z (n * P) / inject_Z d)%Q).
  { rewrite Habs, Hpow. unfold x. rewrite inject_Z_mult. field. lra. }
  set (m := Js.nearest_even (Qabs x / Js.pow2 (- s))).
  destruct (nearest_even_bounds (Qabs x / Js.pow2 (- s))) as [Hb Hup].
  fold m in Hb, Hup.
  rewrite (Qfloor_comp _ _ Harg), Qfloor_div_Z in Hb, Hup by lia.
  assert (Hres : (inject_Z m * Js.pow2 (- s) == inject_Z m / inject_Z P)%Q).
  { rewrite Hpow. field. lra. }
  rewrite (Qfloor_comp _ _ Hres), Qfloor_div_Z by lia.
  pose proof (Z.div_mod n d ltac:(lia)) as Hnd. fold k in Hnd.
  pose proof (Z.mod_pos_bound n d ltac:(lia)) as Hr0.
  set (r0 := (n mod d)%Z) in *.
  pose proof (Z.div_mod (n * P) d ltac:(lia)) as HF.
  pose proof (Z.mod_pos_bound (n * P) d ltac:(lia)) as Hb0.
  set (F := (n * P / d)%Z) in *. set (b := ((n * P) mod d)%Z) in *.
  assert (HFlo : (k * P <= F)%Z).
  { apply Z.div_le_lower_bound; [lia|]. nia. }
  assert (HFhi : (F < (k + 1) * P)%Z).
  { apply Z.div_lt_upper_bound; [lia|]. nia. }
  assert (Hm : (k * P <= m < (k + 1) * P)%Z).
  { split; [lia|].
    destruct (Z.eq_dec m (F + 1)%Z) as [E|E]; [|lia].
    specialize (Hup E). rewrite Harg in Hup.
    assert (Hfrac : (inject_Z (n * P) / inject_Z d - inject_Z F
                     == inject_Z b / inject_Z d)%Q).
    { rewrite HF at 1. rewrite inject_Z_plus, inject_Z_mult. field. lra. }
    rewrite Hfrac in Hup.
    assert (H2 : (d <= 2 * b)%Z).
    { apply (Qmult_le_compat_r _ _ (inject_Z d)) in Hup; [|lra].
      assert (Hbd : (inject_Z b / inject_Z d * inject_Z d == inject_Z b)%Q)
        by (field; lra).
      rewrite Hbd in Hup.
      rewrite Zle_Qle, inject_Z_mult. change (inject_Z 2) with 2%Q. lra. }
    destruct (Z.lt_ge_cases (F + 1) ((k + 1) * P)) as [Hlt|Hge]; [lia|].
    assert (HFe : F = ((k + 1) * P - 1)%Z) by lia.
    pose proof (f_equal (fun z => (z * P)%Z) Hnd) as Hn1. cbn beta in Hn1.
    rewrite HFe in HF.
    assert (Heq : ((d - r0) * P = d - b)%Z) by lia.
    assert (HPle : (P <= (d - r0) * P)%Z).
    { rewrite <- (Z.mul_1_l P) at 1. apply Z.mul_le_mono_nonneg_r; lia. }
    assert (Hd2 : (2 * P <= d)%Z) by lia.
    assert (Hdk : (2 ^ 53 <= d * k)%Z).
    { rewrite <- HPl.
      apply Z.mul_le_mono_nonneg; [lia|exact Hd2|lia|lia]. }
    assert (d * k <= n)%Z by lia.
    lia. }
  symmetry. apply Z.div_unique with (r := (m - k * P)%Z); lia.
Qed.

Lemma Js_lt_inject (g m : Z) (r : Q) :
  (r == inject_Z m)%Q -> Js.lt (inject_Z g) r = (g <? m)%Z.
Proof.
  intros E. destruct (Z.ltb_spec g m) as [H|H].
  - apply Js_lt_true. rewrite E, <- Zlt_Qlt. exact H.
  - apply Js_lt_false. rewrite E, <- Zle_Qle. exact H.
Qed.

(** [round64] reads its argument through comparisons and floors only. *)
Lemma round64_comp (x y : Q) : (x == y)%Q -> Js.round64 x = Js.round64 y.
Proof.
  intros E. unfold Js.round64, Js.eq, Js.lt, Js.exponent, Js.nearest_even,
    Js.le, Js.lt.
  assert (Ea : (Qabs x == Qabs y)%Q) by now rewrite E.
  rewrite (Qeqb_comp x y E 0%Q 0%Q (Qeq_refl 0%Q)).
  rewrite (Qleb_comp 0%Q 0%Q (Qeq_refl 0%Q) x y E).
  rewrite (Qleb_comp 1%Q 1%Q (Qeq_refl 1%Q) _ _ Ea).
  rewrite (Qfloor_comp _ _ Ea).
  assert (Ei : (/ Qabs x == / Qabs y)%Q) by now rewrite Ea.
  rewrite (Qceiling_comp _ _ Ei).
  set (e := Z.max _ _).
  assert (Eq : (Qabs x / Js.pow2 e == Qabs y / Js.pow2 e)%Q) by now rewrite Ea.
  rewrite (Qfloor_comp _ _ Eq).
  assert (Er : (Qabs x / Js.pow2 e - inject_Z (Qfloor (Qabs y / Js.pow2 e))
                == Qabs y / Js.pow2 e
                   - inject_Z (Qfloor (Qabs y / Js.pow2 e)))%Q)
    by now rewrite Eq.
  rewrite (Qleb_comp _ _ (Qeq_refl (1 # 2)) _ _ Er).
  rewrite (Qleb_comp _ _ Er _ _ (Qeq_refl (1 # 2))).
  reflexivity.
Qed.

Lemma js_max_integer (v : Q) (G : Z) :
  (v == inject_Z G)%Q -> (js_max 1 v == inject_Z (Z.max 1 G))%Q.
Proof.
  intros E. unfold js_max. destruct (Js.le 1 v) eqn:H.
  - apply Js_le_true in H. rewrite E in H.
    change 1%Q with (inject_Z 1) in H. rewrite <- Zle_Qle in H.
    rewrite E. now rewrite Z.max_r.
  - apply Js_le_false in H. rewrite E in H.
    change 1%Q with (inject_Z 1) in H. rewrite <- Zlt_Qlt in H.
    rewrite Z.max_l by lia. reflexivity.
Qed.

Lemma js_min_integer (a : Q) (A B : Z) :
  (a == inject_Z A)%Q -> (js_min a (inject_Z B) == inject_Z (Z.min A B))%Q.
Proof.
  intros E. unfold js_min. destruct (Js.le a (inject_Z B)) eqn:H.
  - apply Js_le_true in H. rewrite E, <- Zle_Qle in H.
    rewrite E. now rewrite Z.min_l.
  - apply Js_le_false in H. rewrite E, <- Zlt_Qlt in H.
    rewrite Z.min_r by lia. reflexivity.
Qed.

Lemma js_max_ge_1 (v : Q) : (1 <= js_max 1 v)%Q.
Proof.
  unfold js_max. destruct (Js.le 1 v) eqn:H; [now apply Js_le_true|lra].
Qed.

(** The quotient and the remainder of two whole numbers. *)
Lemma quot_integer (n c : Z) (tg : Q) :
  (1 <= c <= n)%Z -> (n < 2 ^ 53)%Z -> (tg == inject_Z c)%Q ->
  exists quotient,
    Js.quot (inject_Z n) tg = Some quotient
    /\ Js.floor quotient = (n / c)%Z.
Proof.
  intros Hc Hn E. unfold Js.quot, Js.div.
  assert (Hpos : (0 < inject_Z c)%Q) by (apply inject_Z_pos; lia).
  assert (Qeq_bool tg 0 = false) as ->.
  { apply (Js_eq_false tg 0). rewrite E. lra. }
  eexists. split; [reflexivity|]. unfold Js.floor.
  rewrite (round64_comp _ (inject_Z n / inject_Z c)) by now rewrite E.
  now apply floor_round64_quotient.
Qed.

Lemma rem_integer (n c : Z) (tg : Q) :
  (0 <= n)%Z -> (0 < c)%Z -> (tg == inject_Z c)%Q ->
  exists remainder,
    Js.rem (inject_Z n) tg = Some remainder
    /\ (remainder == inject_Z (n mod c))%Q.
Proof.
  intros Hn Hc E. unfold Js.rem.
  assert (Hpos : (0 < inject_Z c)%Q) by (apply inject_Z_pos; lia).
  assert (Qeq_bool tg 0 = false) as ->.
  { apply (Js_eq_false tg 0). rewrite E. lra. }
  eexists. split; [reflexivity|]. cbn zeta.
  assert (Eq : (inject_Z n / tg == inject_Z n / inject_Z c)%Q)
    by now rewrite E.
  assert (Hq : (0 <= inject_Z n / tg)%Q).
  { rewrite Eq. apply Qle_shift_div_l; [exact Hpos|].
    rewrite Qmult_0_l. change 0%Q with (inject_Z 0). now rewrite <- Zle_Qle. }
  apply Qle_bool_iff in Hq. rewrite Hq.
  rewrite (Qfloor_comp _ _ Eq), Qfloor_div_Z by exact Hc.
  rewrite E, (Z.mod_eq n c) by lia.
  replace (n - c * (n / c))%Z with (n + - (c * (n / c)))%Z by lia.
  rewrite inject_Z_plus, inject_Z_opp, inject_Z_mult. reflexivity.
Qed.

Lemma period_pos (val : Q) : (0 < val)%Q -> (0 < Qnum (Qred val))%Z.
Proof.
  intros H. rewrite <- (Qred_correct val) in H.
  unfold Qlt in H. cbn in H. lia.
Qed.

(** A whole number is a multiple of [val] exactly when it is a multiple
    of the numerator of [val] in lowest terms. *)
Lemma rem_zero_iff (a : Z) (val : Q) :
  (0 <= a)%Z -> (0 < val)%Q ->
  exists remainder,
    Js.rem (inject_Z a) val = Some remainder
    /\ (Js.eq remainder 0 = true <-> (Qnum (Qred val) | a)%Z).
Proof.
  intros Ha Hval. unfold Js.rem.
  assert (Qeq_bool val 0 = false) as ->.
  { apply (Js_eq_false val 0). lra. }
  eexists. split; [reflexivity|]. cbn zeta.
  pose proof (Qred_correct val) as Hred.
  pose proof (proj1 (Qcanon.Qred_iff (Qred val)) (Qcanon.Qred_involutive val))
    as Hgcd.
  pose proof (period_pos val Hval) as Hp.
  destruct (Qred val) as [p q] eqn:Ev. cbn [Qnum Qden] in *.
  assert (Eq : (inject_Z a / val == a * Z.pos q # Z.to_pos p)%Q).
  { rewrite <- Hred. destruct p as [|pp|pp]; try lia.
    unfold Qeq, Qdiv, Qmult, Qinv, inject_Z. cbn. lia. }
  assert (Hq : (0 <= inject_Z a / val)%Q).
  { rewrite Eq. unfold Qle. cbn. nia. }
  apply Qle_bool_iff in Hq. rewrite Hq.
  rewrite (Qfloor_comp _ _ Eq). unfold Qfloor.
  rewrite Z2Pos.id by exact Hp.
  rewrite Js_eq_true.
  assert (Ez : (inject_Z a - val * inject_Z (a * Z.pos q / p) == 0)%Q
               <-> (a * Z.pos q = p * (a * Z.pos q / p))%Z).
  { rewrite <- Hred. unfold Qeq, Qminus, Qplus, Qopp, Qmult, inject_Z.
    cbn. split; intros H; nia. }
  rewrite Ez. split.
  - intros H. apply Z.gauss with (m := Z.pos q).
    + exists (a * Z.pos q / p)%Z. lia.
    + exact Hgcd.
  - intros [k Hk]. subst a.
    rewrite <- Z.mul_assoc, (Z.mul_comm p), Z.mul_assoc.
    rewrite Z.div_mul by lia. lia.
Qed.

Lemma period_integer (val : Q) (N : Z) :
  (val == inject_Z N)%Q -> period val = Z.to_nat N.
Proof.
  intros E. unfold period. rewrite (Qred_complete _ _ E).
  rewrite Qcanon.Qred_identity; [reflexivity|].
  cbn. apply Z.gcd_1_r.
Qed.

Lemma nearest_even_integer (x : Q) (k : Z) :
  (x == inject_Z k)%Q -> Js.nearest_even x = k.
Proof.
  intros E. unfold Js.nearest_even.
  rewrite (Qfloor_comp _ _ E), Qfloor_Z.
  assert (Js.lt (x - inject_Z k) (1 # 2) = true) as ->; [|reflexivity].
  apply Js_lt_true. rewrite E. lra.
Qed.

(** The whole numbers below [2^53] are doubles. *)
Lemma round64_integer (n : Z) :
  (0 <= n < 2 ^ 53)%Z -> (Js.round64 (inject_Z n) == inject_Z n)%Q.
Proof.
  intros Hn. destruct (Z.eq_dec n 0%Z) as [->|Hne]; [reflexivity|].
  assert (Hpos : (0 < inject_Z n)%Q) by (apply inject_Z_pos; lia).
  unfold Js.round64.
  assert (Js.eq (inject_Z n) 0 = false) as ->
    by (apply Js_eq_false; lra).
  assert (Js.lt (inject_Z n) 0 = false) as ->
    by (apply Js_lt_false; lra).
  assert (Habs : (Qabs (inject_Z n) == inject_Z n)%Q)
    by (apply Qabs_pos; lra).
  assert (Hexp : Js.exponent (Qabs (inject_Z n)) = Z.log2 n).
  { unfold Js.exponent.
    assert (Js.le 1 (Qabs (inject_Z n)) = true) as ->.
    { apply Js_le_true. rewrite Habs. change 1%Q with (inject_Z 1).
      rewrite <- Zle_Qle. lia. }
    now rewrite (Qfloor_comp _ _ Habs), Qfloor_Z. }
  rewrite Hexp.
  assert (Hl : (0 <= Z.log2 n <= 52)%Z).
  { split; [apply Z.log2_nonneg|].
    assert (Z.log2 n < 53)%Z; [|lia]. apply Z.log2_lt_pow2; lia. }
  replace (Z.max (Z.log2 n - 52) (-1074)) with (- (52 - Z.log2 n))%Z by lia.
  set (s := (52 - Z.log2 n)%Z).
  pose proof (pow2_nonpos s ltac:(lia)) as Hpow.
  assert (HP : (0 < inject_Z (2 ^ s))%Q)
    by (apply inject_Z_pos, Z.pow_pos_nonneg; lia).
  rewrite (nearest_even_integer _ (n * 2 ^ s)).
  - rewrite Hpow, inject_Z_mult. field. lra.
  - rewrite Habs, Hpow, inject_Z_mult. field. lra.
Qed.

Example round64_of_decimals :
  (Js.round64 (1 # 10) == 3602879701896397 # 36028797018963968)%Q
  /\ (Js.add (Js.round64 (1 # 10)) (Js.round64 (2 # 10))
      == 5404319552844596 # 18014398509481984)%Q
  /\ Js.floor <$> Js.quot 11 (Js.round64 (11 # 10)) = Some 10%Z
  /\ Js.floor (11 / Js.round64 (11 # 10)) = 9%Z.
Proof. vm_compute. repeat split; reflexivity. Qed.

(** ** Auto-grouper *)

Lemma resetGroupingState_segments (s : State) :
  segments (resetGroupingState s) = map reset_segment (segments s).
Proof. reflexivity. Qed.

Lemma reset_segments_fresh (segs : list Segment) :
  Forall (fun seg => selected seg = true /\ linkNext seg = false)
    (map reset_segment segs).
Proof. induction segs; constructor; [split; reflexivity|assumption]. Qed.

Lemma length_link_block (block : list Segment) :
  length (link_block block) = length block.
Proof.
  induction block as [|seg [|next rest] IH]; [reflexivity..|].
  cbn [link_block length] in *. now rewrite IH.
Qed.

Lemma link_block_cons (seg next : Segment) (rest : list Segment) :
  link_block (seg :: next :: rest)
  = set_linkNext true seg :: link_block (next :: rest).
Proof. reflexivity. Qed.

Lemma link_at_cursor (pre post : list Segment) (seg : Segment) :
  link (length pre) (pre ++ seg :: post)
  = Returned (pre ++ set_linkNext true seg :: post).
Proof.
  unfold link. rewrite list_lookup_middle by reflexivity. f_equal.
  rewrite insert_app_r_alt by lia. now rewrite Nat.sub_diag.
Qed.

Lemma for_loop_S {St : Type} (n i : nat)
    (body : nat -> St -> Completion St) (st : St) :
  for_loop (S n) i body st = and_then (body i st) (for_loop n (S i) body).
Proof. reflexivity. Qed.

Lemma total_inner_last (totalSentences size i cursor : nat)
    (raw : list Segment) :
  i = size - 1 -> 1 <= size ->
  total_inner totalSentences (Z.of_nat size) i (raw, cursor)
  = Returned (raw, cursor + 1).
Proof.
  intros -> Hsize. unfold total_inner.
  replace (Z.of_nat (size - 1) =? Z.of_nat size - 1)%Z with true
    by (symmetry; apply Z.eqb_eq; lia).
  cbn [negb]. now rewrite andb_false_r.
Qed.

Lemma total_inner_link (totalSentences size i cursor : nat)
    (raw : list Segment) :
  i <> size - 1 -> cursor <> totalSentences - 1 ->
  total_inner totalSentences (Z.of_nat size) i (raw, cursor)
  = match link cursor raw with
    | Returned raw' => Returned (raw', cursor + 1)
    | Thrown raw' => Thrown (raw', cursor)
    end.
Proof.
  intros Hi Hc. unfold total_inner.
  apply Nat.eqb_neq in Hc. rewrite Hc.
  replace (Z.of_nat i =? Z.of_nat size - 1)%Z with false
    by (symmetry; apply Z.eqb_neq; lia).
  reflexivity.
Qed.

(** The inner loop of total mode links every member of the group it walks
    over but the last one. *)
Lemma total_inner_loop (totalSentences size : nat) (block : list Segment) :
  forall (pre post : list Segment) (i : nat),
    i + length block = size ->
    length pre + length block + length post = totalSentences ->
    for_loop (length block) i (total_inner totalSentences (Z.of_nat size))
      (pre ++ block ++ post, length pre)
    = Returned (pre ++ link_block block ++ post, length pre + length block).
Proof.
  induction block as [|seg block IH]; intros pre post i Hsize Htotal.
  - cbn. now rewrite Nat.add_0_r.
  - cbn [length] in *. rewrite for_loop_S.
    destruct block as [|next block].
    + rewrite total_inner_last by (cbn in Hsize; lia).
      cbn. do 2 f_equal.
    + rewrite total_inner_link by (cbn in Hsize, Htotal; lia).
      rewrite <- app_comm_cons, link_at_cursor.
      cbn [and_then].
      rewrite (cons_middle (set_linkNext true seg) pre), app_assoc.
      replace (length pre + 1) with (length (pre ++ [set_linkNext true seg]))
        by (rewrite length_app; reflexivity).
      rewrite (IH (pre ++ [set_linkNext true seg]) post (S i)).
      * rewrite link_block_cons, length_app. cbn [length].
        rewrite <- !app_assoc. cbn [app]. do 2 f_equal. lia.
      * cbn [length] in *. lia.
      * rewrite length_app. cbn [length] in *. lia.
Qed.

(** With a whole remainder the outer loop takes the sizes of
    [group_size]. *)
Lemma total_outer_eq (totalSentences baseSize remainder g : nat) (r : Q)
    (st : list Segment * nat) :
  (r == inject_Z (Z.of_nat remainder))%Q ->
  total_outer totalSentences (Z.of_nat baseSize) r g st
  = for_loop (group_size baseSize remainder g) 0
      (total_inner totalSentences
         (Z.of_nat (group_size baseSize remainder g))) st.
Proof.
  intros E. unfold total_outer, group_size.
  rewrite (Js_lt_inject _ _ _ E).
  destruct (Z.ltb_spec (Z.of_nat g) (Z.of_nat remainder));
    destruct (Nat.ltb_spec g remainder); try lia.
  - replace (Z.of_nat baseSize + 1)%Z with (Z.of_nat (baseSize + 1)) by lia.
    now rewrite Nat2Z.id.
  - now rewrite Nat2Z.id.
Qed.

Lemma sum_list_cons (x : nat) (l : list nat) :
  sum_list (x :: l) = x + sum_list l.
Proof. reflexivity. Qed.

Lemma sum_list_app (l k : list nat) :
  sum_list (l ++ k) = sum_list l + sum_list k.
Proof.
  induction l as [|x l IH]; [reflexivity|].
  cbn [app]. rewrite !sum_list_cons, IH. lia.
Qed.

(** The outer loop links the groups one after the other. *)
Lemma total_outer_loop (totalSentences baseSize remainder : nat) (r : Q) :
  (r == inject_Z (Z.of_nat remainder))%Q ->
  forall (k g : nat) (pre rest : list Segment),
    sum_list (map (group_size baseSize remainder) (seq g k)) <= length rest ->
    length pre + length rest = totalSentences ->
    for_loop k g (total_outer totalSentences (Z.of_nat baseSize) r)
      (pre ++ rest, length pre)
    = Returned
        (pre ++ link_groups
                  (map (group_size baseSize remainder) (seq g k)) rest,
         length pre
         + sum_list (map (group_size baseSize remainder) (seq g k))).
Proof.
  intros E.
  induction k as [|k IH]; intros g pre rest Hsum Htotal.
  - cbn. now rewrite Nat.add_0_r.
  - cbn [seq map link_groups] in *. rewrite sum_list_cons in *.
    rewrite for_loop_S, (total_outer_eq _ _ remainder) by exact E.
    set (size := group_size baseSize remainder g) in *.
    assert (Hlen : length (take size rest) = size)
      by (rewrite length_take; lia).
    rewrite <- (take_drop size rest) at 1.
    rewrite <- Hlen at 1.
    rewrite total_inner_loop.
    + cbn [and_then]. rewrite app_assoc.
      replace (length pre + length (take size rest))
        with (length (pre ++ link_block (take size rest)))
        by (rewrite length_app, length_link_block; reflexivity).
      rewrite IH.
      * rewrite <- app_assoc, length_app, length_link_block, Hlen.
        do 2 f_equal. lia.
      * rewrite length_drop. lia.
      * rewrite length_app, length_link_block, length_drop. lia.
    + lia.
    + rewrite length_drop. lia.
Qed.

Lemma map_seq_constant {A : Type} (f : nat -> A) (c : A) (k : nat) :
  forall g, (forall j, g <= j < g + k -> f j = c) ->
  map f (seq g k) = replicate k c.
Proof.
  induction k as [|k IH]; intros g H; [reflexivity|].
  cbn. rewrite H by lia. f_equal. apply IH. intros j Hj. apply H. lia.
Qed.

Lemma group_sizes_of_loop (n tg : nat) :
  1 <= tg ->
  map (group_size (n / tg) (n mod tg)) (seq 0 tg) = total_group_sizes n tg.
Proof.
  intros Htg. unfold total_group_sizes.
  assert (Hrem : n mod tg < tg) by (apply Nat.mod_upper_bound; lia).
  replace tg with (n mod tg + (tg - n mod tg)) at 3 by lia.
  rewrite seq_app, map_app. f_equal.
  - apply map_seq_constant. intros j Hj. unfold group_size.
    destruct (Nat.ltb_spec j (n mod tg)); [reflexivity|lia].
  - apply map_seq_constant. intros j Hj. unfold group_size.
    destruct (Nat.ltb_spec j (n mod tg)); [lia|reflexivity].
Qed.

Lemma total_group_sizes_sum (n tg : nat) :
  1 <= tg -> sum_list (total_group_sizes n tg) = n.
Proof.
  intros Htg. unfold total_group_sizes.
  rewrite sum_list_app, !sum_list_replicate.
  pose proof (Nat.div_mod_eq n tg).
  pose proof (Nat.mod_upper_bound n tg). nia.
Qed.

Lemma total_group_sizes_pos (n tg : nat) :
  1 <= tg <= n -> Forall (fun size => 1 <= size) (total_group_sizes n tg).
Proof.
  intros Htg.
  assert (1 <= n / tg) by (apply Nat.div_le_lower_bound; lia).
  unfold total_group_sizes. apply Forall_app.
  split; apply Forall_replicate; lia.
Qed.

Lemma clamp_groups_range (G : Z) (n : nat) :
  1 <= n -> 1 <= clamp_groups G n <= n.
Proof. unfold clamp_groups. lia. Qed.

(** [applyAutoGroup] on a list that is not empty: the reset, then the
    branch of the mode. *)
Lemma applyAutoGroup_eq (s : State) :
  segments s <> [] ->
  applyAutoGroup s
  = match auto_grouped (autoGroupMode s) (js_max 1 (autoGroupValue s))
            (map reset_segment (segments s)) with
    | Returned raw =>
        Returned (with_showAutoGroupModal false
                    (with_segments raw (resetGroupingState s)))
    | Thrown raw => Thrown (with_segments raw (resetGroupingState s))
    end.
Proof.
  intros Hne. unfold applyAutoGroup.
  replace (length (segments s) =? 0) with false
    by (symmetry; apply Nat.eqb_neq; destruct (segments s);
        [contradiction|discriminate]).
  reflexivity.
Qed.

Lemma applyAutoGroup_empty (s : State) :
  segments s = [] -> applyAutoGroup s = Returned s.
Proof. intros E. unfold applyAutoGroup. now rewrite E. Qed.

(** Total mode for a whole number of groups. *)
Lemma auto_grouped_total (val : Q) (G : Z) (raw : list Segment) :
  raw <> [] -> (Z.of_nat (length raw) < 2 ^ 53)%Z ->
  (val == inject_Z (Z.max 1 G))%Q ->
  auto_grouped ModeTotal val raw
  = Returned (link_groups
                (total_group_sizes (length raw)
                   (clamp_groups G (length raw))) raw).
Proof.
  intros Hne Hbound E. unfold auto_grouped. cbn zeta.
  assert (Hn : 1 <= length raw)
    by (destruct raw; [contradiction|cbn; lia]).
  pose proof (clamp_groups_range G _ Hn) as Htg.
  assert (Etg : (js_min val (inject_Z (Z.of_nat (length raw)))
                 == inject_Z (Z.of_nat (clamp_groups G (length raw))))%Q).
  { rewrite (js_min_integer val _ _ E). unfold clamp_groups.
    now rewrite Z2Nat.id by lia. }
  set (tg := clamp_groups G (length raw)) in *.
  destruct (quot_integer (Z.of_nat (length raw)) (Z.of_nat tg) _
              ltac:(lia) Hbound Etg) as (quotient & -> & Hq).
  destruct (rem_integer (Z.of_nat (length raw)) (Z.of_nat tg) _
              ltac:(lia) ltac:(lia) Etg) as (remainder & -> & Hr).
  rewrite <- Nat2Z.inj_div in Hq. rewrite <- Nat2Z.inj_mod in Hr.
  unfold Js.ceil. rewrite (Qceiling_comp _ _ Etg), Qceiling_Z, Nat2Z.id, Hq.
  pose proof (total_outer_loop (length raw) (length raw / tg)
                (length raw mod tg) remainder Hr tg 0 [] raw) as Hloop.
  rewrite group_sizes_of_loop, total_group_sizes_sum in Hloop by lia.
  cbn [app length] in Hloop. rewrite Hloop by lia. reflexivity.
Qed.

Lemma applyAutoGroup_total (s : State) (G : Z) :
  segments s <> [] -> autoGroupMode s = ModeTotal ->
  (autoGroupValue s == inject_Z G)%Q ->
  (Z.of_nat (length (segments s)) < 2 ^ 53)%Z ->
  applyAutoGroup s
  = Returned (with_showAutoGroupModal false
                (with_segments
                   (link_groups
                      (total_group_sizes (length (segments s))
                         (clamp_groups G (length (segments s))))
                      (map reset_segment (segments s)))
                   (resetGroupingState s))).
Proof.
  intros Hne Hmode HG Hbound.
  rewrite applyAutoGroup_eq, Hmode by exact Hne.
  rewrite (auto_grouped_total _ G).
  - now rewrite length_map.
  - intros E. apply (f_equal length) in E. rewrite length_map in E.
    destruct (segments s); [contradiction|discriminate E].
  - now rewrite length_map.
  - now apply js_max_integer.
Qed.

Lemma link_block_flags (block : list Segment) :
  block <> [] -> Forall (fun seg => linkNext seg = false) block ->
  map linkNext (link_block block)
  = replicate (length block - 1) true ++ [false].
Proof.
  induction block as [|seg [|next rest] IH]; intros Hne Hall.
  - contradiction.
  - apply Forall_cons in Hall as [Hseg _]. cbn. now rewrite Hseg.
  - rewrite link_block_cons. cbn [map]. rewrite IH.
    + cbn [length]. rewrite !Nat.sub_1_r. reflexivity.
    + discriminate.
    + now apply Forall_cons in Hall as [_ Hall].
Qed.

Lemma link_groups_flags (sizes : list nat) :
  forall segs : list Segment,
    Forall (fun size => 1 <= size) sizes ->
    sum_list sizes = length segs ->
    Forall (fun seg => linkNext seg = false) segs ->
    map linkNext (link_groups sizes segs) = link_pattern sizes.
Proof.
  induction sizes as [|size sizes IH]; intros segs Hpos Hsum Hall.
  - destruct segs; [reflexivity|discriminate].
  - apply Forall_cons in Hpos as [Hsize Hpos]. rewrite sum_list_cons in Hsum.
    cbn [link_groups]. unfold link_pattern. cbn [map concat].
    fold (link_pattern sizes).
    rewrite map_app, link_block_flags, IH; try assumption.
    + rewrite length_take. now replace (size `min` length segs) with size by lia.
    + rewrite length_drop. lia.
    + now apply Forall_drop.
    + intros E. apply (f_equal length) in E. rewrite length_take in E.
      cbn in E. lia.
    + now apply Forall_take.
Qed.

Lemma link_pattern_last (sizes : list nat) :
  sizes <> [] -> last (link_pattern sizes) = Some false.
Proof.
  induction sizes as [|size sizes IH]; intros Hne; [contradiction|].
  unfold link_pattern. cbn [map concat]. fold (link_pattern sizes).
  rewrite last_app. destruct sizes as [|next sizes].
  - cbn [link_pattern map concat last]. apply last_snoc.
  - now rewrite IH.
Qed.

Lemma link_block_fields (block : list Segment) :
  map (set_linkNext false) (link_block block)
  = map (set_linkNext false) block.
Proof.
  induction block as [|seg [|next rest] IH]; [reflexivity..|].
  rewrite link_block_cons. cbn [map] in *. now rewrite IH.
Qed.

Lemma link_groups_fields (sizes : list nat) :
  forall segs : list Segment,
    map (set_linkNext false) (link_groups sizes segs)
    = map (set_linkNext false) segs.
Proof.
  induction sizes as [|size sizes IH]; intros segs; [reflexivity|].
  cbn [link_groups]. rewrite map_app, link_block_fields, IH, <- map_app.
  now rewrite take_drop.
Qed.

(** The group loop walks through a linked block and closes one group at
    its end. *)
Lemma groups_from_block (block : list Segment) :
  forall (current tail : list Segment),
    block <> [] ->
    Forall (fun seg => selected seg = true /\ linkNext seg = false) block ->
    groups_from current (link_block block ++ tail)
    = (current ++ link_block block) :: groups_from [] tail.
Proof.
  induction block as [|seg [|next rest] IH]; intros current tail Hne Hall.
  - contradiction.
  - apply Forall_cons in Hall as [[Hsel Hlink] _].
    cbn [link_block app]. rewrite groups_from_cons, Hsel, Hlink.
    cbn [negb orb andb]. now destruct current.
  - apply Forall_cons in Hall as [[Hsel Hlink] Hall].
    rewrite link_block_cons, <- app_comm_cons, groups_from_cons.
    cbn [set_linkNext selected linkNext]. rewrite Hsel.
    replace (nonempty (link_block (next :: rest) ++ tail)) with true.
    + cbn [negb orb andb]. rewrite IH by (discriminate || assumption).
      now rewrite <- app_assoc.
    + destruct rest; reflexivity.
Qed.

Lemma buildGroups_link_groups (sizes : list nat) :
  forall segs : list Segment,
    Forall (fun size => 1 <= size) sizes ->
    sum_list sizes = length segs ->
    Forall (fun seg => selected seg = true /\ linkNext seg = false) segs ->
    buildGroups (link_groups sizes segs)
    = map link_block (split_by sizes segs)
    /\ map length (split_by sizes segs) = sizes.
Proof.
  intros segs. rewrite buildGroups_groups_from. revert segs.
  induction sizes as [|size sizes IH]; intros segs Hpos Hsum Hall.
  - destruct segs; [split; reflexivity|discriminate].
  - apply Forall_cons in Hpos as [Hsize Hpos]. rewrite sum_list_cons in Hsum.
    cbn [link_groups split_by map].
    destruct (IH (drop size segs)) as [IHg IHl]; try assumption.
    { rewrite length_drop. lia. }
    { now apply Forall_drop. }
    assert (Hlen : length (take size segs) = size)
      by (rewrite length_take; lia).
    rewrite groups_from_block, IHg, IHl, Hlen.
    + split; reflexivity.
    + intros E. rewrite E in Hlen. cbn in Hlen. lia.
    + now apply Forall_take.
Qed.

Lemma concat_link_blocks (sizes : list nat) :
  forall segs : list Segment,
    sum_list sizes = length segs ->
    concat (map link_block (split_by sizes segs)) = link_groups sizes segs.
Proof.
  induction sizes as [|size sizes IH]; intros segs Hsum.
  - destruct segs; [reflexivity|discriminate].
  - rewrite sum_list_cons in Hsum. cbn [split_by map concat link_groups].
    rewrite IH; [reflexivity|]. rewrite length_drop. lia.
Qed.

Lemma length_link_groups (sizes : list nat) :
  forall segs : list Segment,
    length (link_groups sizes segs) = length segs.
Proof.
  induction sizes as [|size sizes IH]; intros segs; [reflexivity|].
  cbn [link_groups].
  rewrite length_app, length_link_block, IH, <- length_app.
  now rewrite take_drop.
Qed.

Example total_mode_three_of_seven :
  let segs := map (fun k => mkSegment k 0 1 "s" false true)
                [1; 2; 3; 4; 5; 6; 7]%Z in
  (fun s => (map linkNext (segments s), map length (buildGroups (segments s))))
  <$> applyAutoGroup (with_autoGroup ModeTotal 3 (with_segments segs initial))
  = Returned ([true; true; false; true; false; true; false], [3; 2; 2]).
Proof. vm_compute. reflexivity. Qed.

Example total_mode_more_groups_than_segments :
  let segs := map (fun k => mkSegment k 0 1 "s" true false) [1; 2]%Z in
  (fun s => map linkNext (segments s))
  <$> applyAutoGroup (with_autoGroup ModeTotal 9 (with_segments segs initial))
  = Returned [false; false].
Proof. vm_compute. reflexivity. Qed.

(** With two and a half groups asked for on 7 segments the loop makes
    three groups. *)
Example total_mode_two_and_a_half :
  let segs := map (fun k => mkSegment k 0 1 "s" false true)
                [1; 2; 3; 4; 5; 6; 7]%Z in
  (fun s => (map linkNext (segments s), map length (buildGroups (segments s))))
  <$> applyAutoGroup
        (with_autoGroup ModeTotal (5 # 2) (with_segments segs initial))
  = Returned ([true; true; false; true; true; false; false], [3; 3; 1]).
Proof. vm_compute. reflexivity. Qed.

(** C4, at the value the claim fails for: with 1.5 typed in the dialog
    and 5 segments, total mode clamps the value to 1.5, takes
    [base = floor(5 / 1.5) = 3] and [remainder = 5 % 1.5 = 0.5], walks a
    first group of 4 segments, linking the first three, and in the second
    group reaches [raw[5]], which is not there: the assignment throws a
    [TypeError], the handler is left before it closes the dialog, and the
    list is left in one group of 4 and one of 1.  No grouping by [base]
    and [remainder] is made. *)
Theorem total_mode_fractional_value_C4 :
  let segs := map (fun k => mkSegment k 0 1 "s" false true)
                [1; 2; 3; 4; 5]%Z in
  let s := with_showAutoGroupModal true
             (with_autoGroup ModeTotal (3 # 2) (with_segments segs initial)) in
  applyAutoGroup s
  = Thrown (with_segments
              (map (fun '(k, linked) => mkSegment k 0 1 "s" true linked)
                 [(1, true); (2, true); (3, true); (4, false); (5, false)]%Z)
              (resetGroupingState s))
  /\ showAutoGroupModal (completed (applyAutoGroup s)) = true
  /\ map length (buildGroups (segments (completed (applyAutoGroup s))))
     = [4; 1].
Proof. vm_compute. repeat split; reflexivity. Qed.

Lemma auto_grouped_count (val : Q) (raw : list Segment) :
  auto_grouped ModeCount val raw
  = Returned (imap (count_link val (length raw)) raw).
Proof. reflexivity. Qed.

Lemma link_every_flag (N len idx : nat) (seg : Segment) :
  linkNext seg = false -> idx < len ->
  linkNext (link_every N len idx seg) = true
  <-> (idx + 1) mod N <> 0 /\ idx <> len - 1.
Proof.
  intros Hseg Hidx. unfold link_every.
  destruct (Nat.eqb_spec ((idx + 1) mod N) 0) as [E|E];
    destruct (Nat.ltb_spec idx (len - 1)) as [L|L]; cbn [negb andb];
    cbn [set_linkNext linkNext]; rewrite ?Hseg;
    split; try discriminate; try tauto; try lia.
Qed.

Lemma mod_period (idx : nat) (P : Z) :
  (0 < P)%Z ->
  (idx + 1) mod Z.to_nat P = 0 <-> (P | Z.of_nat idx + 1)%Z.
Proof.
  intros HP. rewrite <- Z.mod_divide by lia.
  replace (Z.of_nat idx + 1)%Z with (Z.of_nat (idx + 1)) by lia.
  split; intros H.
  - apply (f_equal Z.of_nat) in H.
    rewrite Nat2Z.inj_mod, Z2Nat.id in H by lia. exact H.
  - apply Nat2Z.inj. rewrite Nat2Z.inj_mod, Z2Nat.id by lia. exact H.
Qed.

(** The remainder test of count mode is the test of a whole period. *)
Lemma count_link_every (val : Q) (len idx : nat) (seg : Segment) :
  (0 < val)%Q ->
  count_link val len idx seg = link_every (period val) len idx seg.
Proof.
  intros Hval. unfold count_link, link_every.
  destruct (rem_zero_iff (Z.of_nat idx + 1) val ltac:(lia) Hval)
    as (remainder & -> & Hr).
  pose proof (period_pos val Hval) as Hp.
  replace (Js.eq remainder 0) with ((idx + 1) mod period val =? 0);
    [reflexivity|].
  unfold period.
  destruct (Js.eq remainder 0).
  - apply Nat.eqb_eq, mod_period; [exact Hp|]. now apply Hr.
  - apply Nat.eqb_neq. intros H.
    assert (X : false = true); [|discriminate X].
    apply Hr, mod_period; assumption.
Qed.

Lemma applyAutoGroup_count (s : State) :
  segments s <> [] -> autoGroupMode s = ModeCount ->
  applyAutoGroup s
  = Returned (with_showAutoGroupModal false
                (with_segments
                   (imap (link_every (period (js_max 1 (autoGroupValue s)))
                            (length (segments s)))
                      (map reset_segment (segments s)))
                   (resetGroupingState s))).
Proof.
  intros Hne Hmode.
  rewrite applyAutoGroup_eq, Hmode, auto_grouped_count, length_map
    by exact Hne.
  do 3 f_equal. apply imap_ext. intros i seg _.
  apply count_link_every. pose proof (js_max_ge_1 (autoGroupValue s)). lra.
Qed.

Example count_mode_three_of_seven :
  let segs := map (fun k => mkSegment k 0 1 "s" false true)
                [1; 2; 3; 4; 5; 6; 7]%Z in
  (fun s => (map linkNext (segments s), map length (buildGroups (segments s))))
  <$> applyAutoGroup (with_autoGroup ModeCount 3 (with_segments segs initial))
  = Returned ([true; true; false; true; true; false; false], [3; 3; 1]).
Proof. vm_compute. reflexivity. Qed.

Example time_mode_two_seconds :
  let segs := map (fun k => mkSegment k 0 1 "s" false true)
                [1; 2; 3; 4; 5]%Z in
  (fun s => map linkNext (segments s))
  <$> applyAutoGroup (with_autoGroup ModeTime 2 (with_segments segs initial))
  = Returned [true; false; true; false; false].
Proof. vm_compute. reflexivity. Qed.

(** C5: in count mode with [N] raised to at least 1, on a non-empty list,
    the grouper runs and the segment at index [i] has [linkNext = true]
    exactly when [(i+1) mod N] is not 0 and [i] is not the last index;
    with [N = 3] on 7 segments the links are at indices 0, 1, 3 and 4 and
    the groups have sizes [3, 3, 1].  The rule is the one of the code for
    every value of the dialog, [(i+1) % N] being the exact remainder of
    the division by a number that need not be whole; for a whole [N] it
    is the remainder of the integer division. *)
Theorem count_mode_links_C5 :
  forall s : State,
    segments s <> [] -> autoGroupMode s = ModeCount ->
    exists s',
      applyAutoGroup s = Returned s'
      /\ length (segments s') = length (segments s)
      /\ (forall (i : nat) (seg : Segment),
            segments s' !! i = Some seg ->
            exists remainder,
              Js.rem (inject_Z (Z.of_nat i + 1))
                (js_max 1 (autoGroupValue s)) = Some remainder
              /\ (linkNext seg = true
                  <-> ~ (remainder == 0)%Q
                      /\ i <> length (segments s) - 1))
      /\ (forall N : Z,
            (autoGroupValue s == inject_Z N)%Q ->
            forall (i : nat) (seg : Segment),
              segments s' !! i = Some seg ->
              linkNext seg = true
              <-> (i + 1) mod Z.to_nat (Z.max 1 N) <> 0
                  /\ i <> length (segments s) - 1)
      /\ (length (segments s) = 7 -> (autoGroupValue s == 3)%Q ->
          map linkNext (segments s')
          = [true; true; false; true; true; false; false]
          /\ map length (buildGroups (segments s')) = [3; 3; 1]).
Proof.
  intros s Hne Hmode.
  pose proof (js_max_ge_1 (autoGroupValue s)) as Hval.
  eexists. split; [apply applyAutoGroup_count; assumption|].
  cbn [segments with_showAutoGroupModal with_segments].
  split; [rewrite length_imap; apply length_map|].
  assert (Hflag : forall (i : nat) (seg : Segment),
            imap (link_every (period (js_max 1 (autoGroupValue s)))
                    (length (segments s)))
              (map reset_segment (segments s)) !! i = Some seg ->
            linkNext seg = true
            <-> (i + 1) mod period (js_max 1 (autoGroupValue s)) <> 0
                /\ i <> length (segments s) - 1).
  { intros i seg Hseg. rewrite list_lookup_imap in Hseg.
    change (map ?f ?l) with (f <$> l) in Hseg.
    rewrite list_lookup_fmap in Hseg.
    destruct (segments s !! i) as [old|] eqn:Hold; [|discriminate].
    injection Hseg as <-. apply link_every_flag; [reflexivity|].
    eapply lookup_lt_Some, Hold. }
  split; [|split].
  - intros i seg Hseg.
    destruct (rem_zero_iff (Z.of_nat i + 1) (js_max 1 (autoGroupValue s))
                ltac:(lia) ltac:(lra)) as (remainder & Hrem & Hr).
    exists remainder. split; [exact Hrem|].
    rewrite (Hflag i seg Hseg), <- Js_eq_true, Hr.
    pose proof (period_pos _ (Qlt_le_trans 0 1 _ eq_refl Hval)) as Hp.
    unfold period. now rewrite (mod_period i _ Hp).
  - intros N HN i seg Hseg. rewrite (Hflag i seg Hseg).
    now rewrite (period_integer _ _ (js_max_integer _ _ HN)).
  - intros H7 H3.
    rewrite (period_integer _ 3 (js_max_integer _ 3 H3)), H7.
    destruct (segments s) as [|a1 [|a2 [|a3 [|a4 [|a5 [|a6 [|a7 [|]]]]]]]];
      try discriminate H7.
    split; reflexivity.
Qed.

Lemma count_mode_links_C5_witness :
  exists s',
    applyAutoGroup
      (with_autoGroup ModeCount 3
         (with_segments
            (map (fun k => mkSegment k 0 1 "s" false true)
               [1; 2; 3; 4; 5; 6; 7]%Z) initial)) = Returned s'
    /\ map linkNext (segments s')
       = [true; true; false; true; true; false; false]
    /\ map length (buildGroups (segments s')) = [3; 3; 1].
Proof.
  destruct (count_mode_links_C5
              (with_autoGroup ModeCount 3
                 (with_segments
                    (map (fun k => mkSegment k 0 1 "s" false true)
                       [1; 2; 3; 4; 5; 6; 7]%Z) initial)))
    as (s' & Hrun & _ & _ & _ & H7).
  - discriminate.
  - reflexivity.
  - exists s'. split; [exact Hrun|]. apply H7; reflexivity.
Defined.

(** * Further properties of the code *)

(** ** Progress bar *)

Lemma round_ge (x : Q) (k : Z) : (inject_Z k <= x)%Q -> (k <= Js.round x)%Z.
Proof.
  intros H. unfold Js.round. rewrite <- (Qfloor_Z k).
  apply Qfloor_resp_le. lra.
Qed.

Lemma inject_Z_nonneg (k : Z) : (0 <= k)%Z -> (0 <= inject_Z k)%Q.
Proof.
  intros H. change 0%Q with (inject_Z 0). rewrite <- Zle_Qle. exact H.
Qed.

Lemma inject_Z_nonzero (k : Z) : k <> 0%Z -> ~ (inject_Z k == 0)%Q.
Proof.
  intros H E. apply H. unfold Qeq in E. cbn in E. lia.
Qed.

Lemma progressPercent_value (s : State) :
  totalChunks s <> 0%Z ->
  progressPercent s
  = Some (Z.min 100
            (Js.round (inject_Z (processedChunks s)
                       / inject_Z (totalChunks s) * 100)%Q)).
Proof.
  intros Ht. unfold progressPercent.
  destruct (Z.eqb_spec (totalChunks s) 0) as [E|_]; [contradiction|].
  rewrite Js_div_nonzero by now apply inject_Z_nonzero. reflexivity.
Qed.

(** X1: the progress percentage is always defined (there is no division
    by zero: it is 0 while the total is 0), never above 100, not negative
    for counters that are not negative, and exactly 100 once the processed
    chunks reach or pass a positive total, as happens when the engine
    makes more passes than the estimate. *)
Theorem progressPercent_bounded_X1 :
  forall s : State,
    exists p : Z,
      progressPercent s = Some p
      /\ (p <= 100)%Z
      /\ (totalChunks s = 0%Z -> p = 0%Z)
      /\ ((0 <= processedChunks s)%Z -> (0 <= totalChunks s)%Z -> (0 <= p)%Z)
      /\ ((0 < totalChunks s)%Z -> (totalChunks s <= processedChunks s)%Z ->
          p = 100%Z).
Proof.
  intros s. destruct (Z.eq_dec (totalChunks s) 0%Z) as [E|Hne].
  - exists 0%Z. unfold progressPercent. rewrite E. cbn.
    repeat split; try lia.
  - eexists. split; [apply progressPercent_value, Hne|].
    split; [lia|]. split; [contradiction|]. split.
    + intros Hp Ht. apply Z.min_glb; [lia|]. apply round_ge.
      change (inject_Z 0) with 0%Q.
      apply Qmult_le_0_compat; [|lra].
      apply Qle_shift_div_l; [apply inject_Z_pos; lia|].
      pose proof (inject_Z_nonneg _ Hp). lra.
    + intros Ht Hge. apply Z.min_l, round_ge.
      change (inject_Z 100) with 100%Q.
      assert (1 <= inject_Z (processedChunks s) / inject_Z (totalChunks s))%Q.
      { apply Qle_shift_div_l; [now apply inject_Z_pos|].
        rewrite Zle_Qle in Hge. lra. }
      lra.
Qed.

Lemma progressPercent_bounded_X1_witness :
  progressPercent (with_processedChunks 7 (with_totalChunks 5 initial))
  = Some 100%Z.
Proof.
  destruct (progressPercent_bounded_X1
              (with_processedChunks 7 (with_totalChunks 5 initial)))
    as (p & -> & _ & _ & _ & H).
  f_equal. apply H; reflexivity || discriminate.
Defined.

Example progress_one_third :
  progressPercent (with_processedChunks 1 (with_totalChunks 3 initial))
  = Some 33%Z.
Proof. reflexivity. Qed.

(** ** Group counter and colours *)

Lemma count_unlinked_cons (seg : Segment) (segs : list Segment) :
  count_unlinked (seg :: segs)
  = (if linkNext seg then 0 else 1) + count_unlinked segs.
Proof. unfold count_unlinked. cbn. now destruct (linkNext seg). Qed.

Lemma count_unlinked_app (l k : list Segment) :
  count_unlinked (l ++ k) = count_unlinked l + count_unlinked k.
Proof. unfold count_unlinked. now rewrite List.filter_app, length_app. Qed.

Lemma chains_length (segs : list Segment) :
  length (chains segs)
  = count_unlinked segs + (if last_linked segs then 1 else 0).
Proof.
  induction segs as [|seg [|next rest] IH]; [reflexivity| |].
  - rewrite chains_cons, count_unlinked_cons. unfold last_linked. cbn.
    now destruct (linkNext seg).
  - rewrite chains_cons, count_unlinked_cons.
    change (last_linked (seg :: next :: rest))
      with (last_linked (next :: rest)).
    rewrite <- Nat.add_assoc, <- IH.
    destruct (chains_nonempty next rest) as (chain & more & ->).
    now destruct (linkNext seg).
Qed.

Lemma closed_last_linked (segs : list Segment) :
  closed segs <-> last_linked segs = false.
Proof.
  unfold closed, last_linked. destruct (last segs) as [seg|].
  - split; [intros H; now apply H|intros H seg' [= <-]; exact H].
  - split; [reflexivity|intros _ seg H; discriminate H].
Qed.

Lemma groupCount_eq (s : State) :
  groupCount s
  = if count_unlinked (segments s) =? 0
    then (if length (segments s) =? 0 then 0 else 1)
    else count_unlinked (segments s).
Proof. reflexivity. Qed.

Lemma filter_all_selected (segs : list Segment) :
  Forall (fun seg => selected seg = true) segs ->
  List.filter selected segs = segs.
Proof.
  induction 1 as [|seg segs Hseg _ IH]; [reflexivity|].
  cbn. now rewrite Hseg, IH.
Qed.

Lemma filter_nonempty_all {A : Type} (ls : list (list A)) :
  Forall (fun l => l <> []) ls -> List.filter nonempty ls = ls.
Proof.
  induction 1 as [|l ls Hl _ IH]; [reflexivity|].
  cbn. destruct l; [contradiction|]. cbn. now rewrite IH.
Qed.

Lemma chains_members (segs : list Segment) (P : Segment -> Prop) :
  Forall P segs -> Forall (Forall P) (chains segs).
Proof.
  intros H. destruct (chains_maximal_runs segs) as [Hcat _].
  rewrite <- Hcat in H. clear Hcat.
  induction (chains segs) as [|chain more IH]; [constructor|].
  cbn in H. apply Forall_app in H as [H1 H2].
  constructor; [exact H1|now apply IH].
Qed.

Lemma buildGroups_all_selected (segs : list Segment) :
  Forall (fun seg => selected seg = true) segs ->
  buildGroups segs = chains segs.
Proof.
  intros Hall. rewrite buildGroups_is_spec. unfold groups_spec.
  assert (E : map (List.filter selected) (chains segs) = chains segs).
  { pose proof (chains_members segs _ Hall) as H.
    induction H as [|chain more Hc _ IH]; [reflexivity|].
    cbn. now rewrite filter_all_selected, IH. }
  rewrite E. apply filter_nonempty_all.
  destruct (chains_maximal_runs segs) as (_ & H & _).
  eapply Forall_impl; [exact H|]. now intros chain [Hne _].
Qed.

(** X2: the group counter of the page is the number of maximal linked
    runs, and with every segment selected the number of groups the export
    makes, whenever the last segment is not linked or no segment is
    unlinked at all; when the last segment is linked while another one is
    not, the counter is one short of the number of runs. *)
Theorem groupCount_runs_X2 :
  forall s : State,
    (closed (segments s) -> groupCount s = length (chains (segments s)))
    /\ (closed (segments s) ->
        Forall (fun seg => selected seg = true) (segments s) ->
        groupCount s = length (buildGroups (segments s)))
    /\ (count_unlinked (segments s) = 0 ->
        groupCount s = length (chains (segments s)))
    /\ (last_linked (segments s) = true ->
        0 < count_unlinked (segments s) ->
        groupCount s + 1 = length (chains (segments s))).
Proof.
  intros s. rewrite groupCount_eq, chains_length.
  assert (Hclosed : closed (segments s) ->
            (if count_unlinked (segments s) =? 0
             then if length (segments s) =? 0 then 0 else 1
             else count_unlinked (segments s))
            = count_unlinked (segments s)
              + (if last_linked (segments s) then 1 else 0)).
  { intros Hc. apply closed_last_linked in Hc. rewrite Hc, Nat.add_0_r.
    destruct (Nat.eqb_spec (count_unlinked (segments s)) 0) as [E|E];
      [|reflexivity].
    rewrite E. unfold last_linked in Hc.
    destruct (segments s) as [|seg rest] eqn:Hs using rev_ind;
      [reflexivity|].
    rewrite last_snoc in Hc. rewrite count_unlinked_app in E.
    rewrite count_unlinked_cons, Hc in E. lia. }
  split; [exact Hclosed|]. split.
  { intros Hc Hsel. rewrite buildGroups_all_selected by assumption.
    rewrite chains_length. now apply Hclosed. }
  split.
  - intros E. rewrite E. cbn [Nat.eqb Nat.add].
    unfold last_linked. destruct (segments s) as [|seg rest] using rev_ind;
      [reflexivity|].
    rewrite last_snoc, length_app. cbn [length].
    rewrite count_unlinked_app, count_unlinked_cons in E.
    destruct (linkNext seg); [|lia].
    now replace (length rest + 1 =? 0) with false
      by (symmetry; apply Nat.eqb_neq; lia).
  - intros -> Hpos.
    destruct (Nat.eqb_spec (count_unlinked (segments s)) 0); lia.
Qed.

Lemma groupCount_runs_X2_witness :
  groupCount (with_segments [mkSegment 1 0 1 "a" true true;
                             mkSegment 2 1 2 "b" true false;
                             mkSegment 3 2 3 "c" true false] initial)
  = 2
  /\ groupCount (with_segments [mkSegment 1 0 1 "a" true false;
                                mkSegment 2 1 2 "b" true true] initial) + 1
     = 2.
Proof.
  split.
  - rewrite (proj1 (groupCount_runs_X2 _)); [reflexivity|].
    intros seg [= <-]. reflexivity.
  - rewrite (proj2 (proj2 (proj2 (groupCount_runs_X2 _))));
      [reflexivity|reflexivity|cbn; lia].
Defined.

Lemma colorPalette_at (k : nat) :
  colorPalette !! (k mod length colorPalette) = Some (color_at k).
Proof.
  unfold color_at. change (length colorPalette) with 6.
  assert (H : k mod 6 < 6) by (apply Nat.mod_upper_bound; lia).
  destruct (k mod 6) as [|[|[|[|[|[|n]]]]]] eqn:E; try reflexivity. lia.
Qed.

Lemma color_at_next (k : nat) : fst (color_at k) <> fst (color_at (k + 1)).
Proof.
  unfold color_at. rewrite <- Nat.Div0.add_mod_idemp_l.
  assert (H : k mod 6 < 6) by (apply Nat.mod_upper_bound; lia).
  destruct (k mod 6) as [|[|[|[|[|[|n]]]]]] eqn:E; try discriminate. lia.
Qed.

Lemma segmentsWithColors_from_eq (segs : list Segment) :
  forall groupIndex : nat,
    segmentsWithColors_from groupIndex segs
    = Some (imap (fun i seg =>
                    mkColoredSegment seg
                      (fst (color_at (groupIndex
                                      + count_unlinked (take i segs))))
                      (snd (color_at (groupIndex
                                      + count_unlinked (take i segs))))
                      (negb (linkNext seg)))
              segs).
Proof.
  induction segs as [|seg rest IH]; intros g; [reflexivity|].
  cbn [segmentsWithColors_from]. rewrite colorPalette_at.
  cbn [mbind option_bind]. rewrite IH. cbn [mbind option_bind imap].
  f_equal. f_equal.
  - cbn [take]. change (count_unlinked []) with 0. now rewrite Nat.add_0_r.
  - apply imap_ext. intros i x _. cbn [compose take].
    rewrite count_unlinked_cons.
    replace (g + ((if linkNext seg then 0 else 1)
                  + count_unlinked (take i rest)))
      with ((if negb (linkNext seg) then g + 1 else g)
            + count_unlinked (take i rest))
      by (destruct (linkNext seg); cbn [negb]; lia).
    reflexivity.
Qed.

(** X3: the coloured list is always defined, keeps the segments in
    order, marks a segment as the end of its group exactly when it is not
    linked, and gives a segment the colour of its successor exactly when
    it is linked to it: the segments of one run share a colour and two
    runs that follow each other never do. *)
Theorem segmentsWithColors_adjacent_X3 :
  forall s : State,
    exists items : list ColoredSegment,
      segmentsWithColors s = Some items
      /\ map ref items = segments s
      /\ (forall item, In item items ->
            isEndOfGroup item = negb (linkNext (ref item)))
      /\ (forall (i : nat) (a b : ColoredSegment),
            items !! i = Some a -> items !! (S i) = Some b ->
            (bgColorClass a = bgColorClass b <-> linkNext (ref a) = true)).
Proof.
  intros s. eexists. split; [apply segmentsWithColors_from_eq|].
  split; [|split].
  - apply list_eq. intros i.
    change (map ref ?l) with (ref <$> l).
    rewrite list_lookup_fmap, list_lookup_imap.
    now destruct (segments s !! i).
  - intros item Hin. apply list_elem_of_In, list_elem_of_lookup in Hin.
    destruct Hin as [i Hi]. rewrite list_lookup_imap in Hi.
    destruct (segments s !! i); [|discriminate]. now injection Hi as <-.
  - intros i a b Ha Hb. rewrite list_lookup_imap in Ha, Hb.
    destruct (segments s !! i) as [x|] eqn:Hx; [|discriminate].
    destruct (segments s !! S i) as [y|] eqn:Hy; [|discriminate].
    injection Ha as <-. injection Hb as <-. cbn.
    rewrite (take_S_r _ _ _ Hx), count_unlinked_app, count_unlinked_cons.
    change (count_unlinked []) with 0.
    destruct (linkNext x).
    + rewrite !Nat.add_0_r. split; reflexivity.
    + rewrite Nat.add_0_r. split; [|discriminate].
      intros E. exfalso. exact (color_at_next _ E).
Qed.

Example colours_of_two_runs :
  (map bgColorClass
   <$> segmentsWithColors
         (with_segments [mkSegment 1 0 1 "a" true true;
                         mkSegment 2 1 2 "b" true false;
                         mkSegment 3 2 3 "c" true false] initial))
  = Some ["bg-white"; "bg-white"; "bg-blue-50"].
Proof. reflexivity. Qed.

Lemma segmentsWithColors_adjacent_X3_witness :
  exists items,
    segmentsWithColors
      (with_segments [mkSegment 1 0 1 "a" true true;
                      mkSegment 2 1 2 "b" true false;
                      mkSegment 3 2 3 "c" true false] initial) = Some items
    /\ map bgColorClass items = ["bg-white"; "bg-white"; "bg-blue-50"].
Proof.
  destruct (segmentsWithColors_adjacent_X3
              (with_segments [mkSegment 1 0 1 "a" true true;
                              mkSegment 2 1 2 "b" true false;
                              mkSegment 3 2 3 "c" true false] initial))
    as (items & Hrun & _).
  exists items. split; [exact Hrun|].
  injection Hrun as <-. reflexivity.
Defined.

(** ** Edits of the segment store *)

Lemma flip_link_twice (seg : Segment) : flip_link (flip_link seg) = seg.
Proof. destruct seg. unfold flip_link. cbn. now rewrite negb_involutive. Qed.

Lemma toggleLink_segments (index : nat) (s : State) :
  segments (toggleLink index s) = alter flip_link index (segments s).
Proof. reflexivity. Qed.

Lemma count_unlinked_flip (segs : list Segment) :
  forall (i : nat) (seg : Segment),
    segs !! i = Some seg ->
    count_unlinked (alter flip_link i segs)
    + (if linkNext seg then 0 else 1)
    = count_unlinked segs + (if linkNext seg then 1 else 0).
Proof.
  induction segs as [|x rest IH]; intros [|i] seg H; try discriminate.
  - injection H as ->. cbn [alter list_alter].
    rewrite !count_unlinked_cons. cbn. destruct (linkNext seg); cbn; lia.
  - cbn [alter list_alter]. rewrite !count_unlinked_cons.
    specialize (IH i seg H). cbn [alter] in IH. lia.
Qed.

Lemma last_alter_before (f : Segment -> Segment) (segs : list Segment)
    (i : nat) :
  i + 1 < length segs -> last (alter f i segs) = last segs.
Proof.
  intros Hi. rewrite !last_lookup, length_alter.
  apply list_lookup_alter_ne. lia.
Qed.

(** X4: toggling the same link twice gives the state back; an index
    outside the list changes nothing; and for a segment that is not the
    last one, unlinking it makes one more run and linking it makes one
    run less. *)
Theorem toggleLink_runs_X4 :
  forall (index : nat) (s : State),
    toggleLink index (toggleLink index s) = s
    /\ (length (segments s) <= index -> toggleLink index s = s)
    /\ (forall seg : Segment,
          segments s !! index = Some seg ->
          index + 1 < length (segments s) ->
          length (chains (segments (toggleLink index s)))
          + (if linkNext seg then 0 else 1)
          = length (chains (segments s)) + (if linkNext seg then 1 else 0)).
Proof.
  intros index s. split; [|split].
  - destruct s. unfold toggleLink, with_segments. simpl. f_equal.
    fold flip_link. rewrite list_alter_alter_eq.
    apply list_alter_id. intros seg. apply flip_link_twice.
  - intros Hout. destruct s. unfold toggleLink, with_segments.
    simpl in *. f_equal. fold flip_link.
    apply list_eq. intros j.
    destruct (decide (j = index)) as [->|Hne].
    + rewrite list_lookup_alter_eq.
      rewrite (lookup_ge_None_2 _ index) by lia. reflexivity.
    + now rewrite list_lookup_alter_ne.
  - intros seg Hseg Hi. rewrite toggleLink_segments, !chains_length.
    unfold last_linked. rewrite last_alter_before by exact Hi.
    pose proof (count_unlinked_flip _ _ _ Hseg). lia.
Qed.

Lemma toggleLink_runs_X4_witness :
  length (chains (segments
     (toggleLink 0 (with_segments [mkSegment 1 0 1 "a" true true;
                                   mkSegment 2 1 2 "b" true false]
                      initial)))) = 2.
Proof.
  pose proof (proj2 (proj2 (toggleLink_runs_X4 0
     (with_segments [mkSegment 1 0 1 "a" true true;
                     mkSegment 2 1 2 "b" true false] initial)))
     (mkSegment 1 0 1 "a" true true) eq_refl) as H.
  cbn [linkNext Nat.add] in H. rewrite Nat.add_0_r in H. apply H.
  cbn. lia.
Defined.

Lemma toggleSelectAll_links (s : State) :
  map linkNext (segments (toggleSelectAll s)) = map linkNext (segments s).
Proof.
  unfold toggleSelectAll. cbn. rewrite map_map. now apply map_ext.
Qed.

Lemma chains_same_links (l k : list Segment) :
  map linkNext l = map linkNext k ->
  map length (chains l) = map length (chains k).
Proof.
  revert k. induction l as [|x l IH]; intros [|y k] H; try discriminate.
  - reflexivity.
  - injection H as Hxy H. specialize (IH k H).
    rewrite !chains_cons, Hxy.
    destruct (linkNext y); [|cbn; now rewrite IH].
    destruct (chains l), (chains k); try discriminate; [reflexivity|].
    cbn in *. injection IH as -> ->. reflexivity.
Qed.

(** X5: the select-all box leaves the links alone; unchecked, no group
    is left to export, and with a buffer loaded the export has no entry;
    checked, the export groups are the maximal linked runs of the whole
    list. *)
Theorem toggleSelectAll_groups_X5 :
  forall s : State,
    map linkNext (segments (toggleSelectAll s)) = map linkNext (segments s)
    /\ (selectAll s = false ->
        buildGroups (segments (toggleSelectAll s)) = []
        /\ forall buffer, audioBuffer s = Some buffer ->
             exportEntries (toggleSelectAll s) = Some [])
    /\ (selectAll s = true ->
        buildGroups (segments (toggleSelectAll s))
        = chains (segments (toggleSelectAll s))
        /\ map length (buildGroups (segments (toggleSelectAll s)))
           = map length (chains (segments s))).
Proof.
  intros s. split; [apply toggleSelectAll_links|]. split.
  - intros Hsel.
    assert (E : buildGroups (segments (toggleSelectAll s)) = []).
    { assert (H : List.filter selected (segments (toggleSelectAll s)) = []).
      { apply filter_unselected. unfold toggleSelectAll. cbn. rewrite Hsel.
        apply Forall_forall. intros seg Hin.
        apply list_elem_of_In, in_map_iff in Hin.
        now destruct Hin as (x & <- & _). }
      rewrite <- buildGroups_selected in H.
      pose proof (buildGroups_nonempty (segments (toggleSelectAll s))) as Hne.
      destruct (buildGroups (segments (toggleSelectAll s))) as [|g gs];
        [reflexivity|].
      apply Forall_cons in Hne as [Hg _]. cbn in H.
      apply app_eq_nil in H as [-> _]. contradiction. }
    split; [exact E|]. intros buffer Hbuf. unfold exportEntries.
    change (audioBuffer (toggleSelectAll s)) with (audioBuffer s).
    rewrite Hbuf, E. reflexivity.
  - intros Hsel.
    assert (E : buildGroups (segments (toggleSelectAll s))
                = chains (segments (toggleSelectAll s))).
    { apply buildGroups_all_selected. unfold toggleSelectAll. cbn.
      rewrite Hsel. apply Forall_forall. intros seg Hin.
      apply list_elem_of_In, in_map_iff in Hin.
      now destruct Hin as (x & <- & _). }
    split; [exact E|]. rewrite E.
    apply chains_same_links, toggleSelectAll_links.
Qed.

Lemma toggleSelectAll_groups_X5_witness :
  buildGroups (segments (toggleSelectAll
     (with_selectAll false
        (with_segments [mkSegment 1 0 1 "a" true true;
                        mkSegment 2 1 2 "b" true false] initial)))) = [].
Proof.
  apply (proj1 (proj2 (toggleSelectAll_groups_X5 _))). reflexivity.
Defined.

(** ** Auto-grouper in every mode *)

Lemma time_links_cons (val d : Q) (seg next : Segment)
    (rest : list Segment) :
  time_links val d (seg :: next :: rest)
  = if Js.lt (Js.add d (Js.sub (end_ seg) (start seg))) val
    then set_linkNext true seg
         :: time_links val (Js.add d (Js.sub (end_ seg) (start seg)))
              (next :: rest)
    else seg :: time_links val 0 (next :: rest).
Proof. reflexivity. Qed.

Lemma time_body_eq (val : Q) (i : nat) (raw : list Segment)
    (groupDuration : Q) (seg : Segment) :
  raw !! i = Some seg ->
  time_body val i (raw, groupDuration)
  = if Js.lt (Js.add groupDuration (Js.sub (end_ seg) (start seg))) val
    then Returned (<[i := set_linkNext true seg]> raw,
                   Js.add groupDuration (Js.sub (end_ seg) (start seg)))
    else Returned (raw, 0%Q).
Proof. intros H. unfold time_body. now rewrite H. Qed.

(** The loop of time mode reads inside the array only, so it returns. *)
Lemma time_loop (val : Q) (segs : list Segment) :
  forall (pre : list Segment) (d : Q),
    exists d',
      for_loop (length segs - 1) (length pre) (time_body val)
        (pre ++ segs, d)
      = Returned (pre ++ time_links val d segs, d').
Proof.
  induction segs as [|seg [|next rest] IH]; intros pre d.
  - exists d. reflexivity.
  - exists d. reflexivity.
  - cbn [length] in *. rewrite Nat.sub_1_r in *. cbn [pred] in *.
    rewrite for_loop_S, (time_body_eq _ _ _ _ seg)
      by (apply list_lookup_middle; reflexivity).
    rewrite time_links_cons.
    destruct (Js.lt _ _); cbn [and_then].
    + rewrite insert_app_r_alt, Nat.sub_diag by lia. cbn [insert list_insert].
      destruct (IH (pre ++ [set_linkNext true seg])
                  (Js.add d (Js.sub (end_ seg) (start seg)))) as [d' Hd'].
      rewrite length_app, <- !app_assoc in Hd'. cbn [length app] in Hd'.
      rewrite Nat.add_1_r in Hd'. exists d'. exact Hd'.
    + destruct (IH (pre ++ [seg]) 0%Q) as [d' Hd'].
      rewrite length_app, <- !app_assoc in Hd'. cbn [length app] in Hd'.
      rewrite Nat.add_1_r in Hd'. exists d'. exact Hd'.
Qed.

Lemma auto_grouped_time (val : Q) (raw : list Segment) :
  auto_grouped ModeTime val raw = Returned (time_links val 0 raw).
Proof.
  unfold auto_grouped. destruct (time_loop val raw [] 0%Q) as [d' Hloop].
  cbn [app length] in Hloop. now rewrite Hloop.
Qed.

Lemma applyAutoGroup_time (s : State) :
  segments s <> [] -> autoGroupMode s = ModeTime ->
  applyAutoGroup s
  = Returned (with_showAutoGroupModal false
                (with_segments
                   (time_links (js_max 1 (autoGroupValue s)) 0
                      (map reset_segment (segments s)))
                   (resetGroupingState s))).
Proof.
  intros Hne Hmode.
  now rewrite applyAutoGroup_eq, Hmode, auto_grouped_time by exact Hne.
Qed.

Lemma time_links_fields (val : Q) (segs : list Segment) :
  forall d,
    map (set_linkNext false) (time_links val d segs)
    = map (set_linkNext false) segs.
Proof.
  induction segs as [|seg [|next rest] IH]; intros d; [reflexivity..|].
  rewrite time_links_cons.
  destruct (Js.lt _ _); cbn [map]; now rewrite IH.
Qed.

Lemma time_links_last (val : Q) (segs : list Segment) :
  forall d, last (time_links val d segs) = last segs.
Proof.
  induction segs as [|seg [|next rest] IH]; intros d; [reflexivity..|].
  rewrite time_links_cons.
  destruct (Js.lt _ _);
    [specialize (IH (Js.add d (Js.sub (end_ seg) (start seg))))
    |specialize (IH 0%Q)];
    destruct (time_links val _ (next :: rest)) eqn:E;
    try (apply (f_equal length) in E;
         rewrite <- (length_map (set_linkNext false)), time_links_fields,
           length_map in E; discriminate E);
    exact IH.
Qed.

Lemma imap_count_link_fields (val : Q) (len : nat) (segs : list Segment) :
  map (set_linkNext false) (imap (count_link val len) segs)
  = map (set_linkNext false) segs.
Proof.
  apply list_eq. intros i.
  change (map ?f ?l) with (f <$> l).
  rewrite !list_lookup_fmap, list_lookup_imap.
  destruct (segs !! i) as [seg|]; [|reflexivity]. cbn. f_equal.
  unfold count_link. now destruct (_ && _).
Qed.

(** A loop keeps what every turn of its body keeps, whether it returns
    or throws. *)
Lemma for_loop_invariant {St : Type} (P : St -> Prop)
    (body : nat -> St -> Completion St) :
  (forall i st, P st -> P (completed (body i st))) ->
  forall (n i : nat) (st : St), P st -> P (completed (for_loop n i body st)).
Proof.
  intros Hbody. induction n as [|n IH]; intros i st Hst; [exact Hst|].
  rewrite for_loop_S. specialize (Hbody i st Hst).
  destruct (body i st) as [st'|st']; cbn [and_then completed] in *.
  - now apply IH.
  - exact Hbody.
Qed.

Lemma relinked_length (segs raw : list Segment) :
  relinked segs raw -> length raw = length segs.
Proof.
  intros [H _]. apply (f_equal length) in H. now rewrite !length_map in H.
Qed.

(** An assignment to [linkNext] before the last segment changes no other
    field and leaves the last segment as it is. *)
Lemma link_keeps (segs raw : list Segment) (cursor : nat) :
  relinked segs raw -> cursor <> length raw - 1 ->
  relinked segs (completed (link cursor raw)).
Proof.
  intros [Hf Hc] Hcursor. unfold link.
  destruct (raw !! cursor) as [seg|] eqn:E; cbn [completed];
    [|split; assumption].
  split.
  - rewrite <- Hf. change (map ?f ?l) with (f <$> l).
    rewrite list_fmap_insert. apply list_insert_id.
    rewrite list_lookup_fmap, E. reflexivity.
  - intros x Hx. apply Hc. rewrite last_lookup in *.
    rewrite length_insert, list_lookup_insert_ne in Hx by lia. exact Hx.
Qed.

Lemma total_inner_keeps (segs : list Segment) (size : Z) (i : nat)
    (st : list Segment * nat) :
  relinked segs (fst st) ->
  relinked segs (fst (completed (total_inner (length segs) size i st))).
Proof.
  destruct st as [raw cursor]. cbn [fst]. intros H. unfold total_inner.
  destruct (Nat.eqb_spec cursor (length segs - 1)) as [E|E];
    cbn [negb andb]; [exact H|].
  destruct (negb _); cbn [completed fst]; [|exact H].
  pose proof (link_keeps segs raw cursor H) as Hk.
  rewrite (relinked_length _ _ H) in Hk. specialize (Hk E).
  destruct (link cursor raw); exact Hk.
Qed.

Lemma total_outer_keeps (segs : list Segment) (baseSize : Z) (remainder : Q)
    (g : nat) (st : list Segment * nat) :
  relinked segs (fst st) ->
  relinked segs
    (fst (completed (total_outer (length segs) baseSize remainder g st))).
Proof.
  intros H. unfold total_outer.
  apply (for_loop_invariant (fun st => relinked segs (fst st))); [|exact H].
  intros i st'. apply total_inner_keeps.
Qed.

Lemma completed_fmap {A B : Type} (f : A -> B) (c : Completion A) :
  completed (f <$> c) = f (completed c).
Proof. now destruct c. Qed.

(** In every mode, returning or not, the grouper changes links only and
    leaves the last segment not linked. *)
Lemma auto_grouped_keeps (mode : AutoGroupMode) (val : Q)
    (raw : list Segment) :
  closed raw -> relinked raw (completed (auto_grouped mode val raw)).
Proof.
  intros Hc. destruct mode.
  - rewrite auto_grouped_time. cbn [completed]. split.
    + apply time_links_fields.
    + intros seg Hseg. rewrite time_links_last in Hseg. now apply Hc.
  - cbn [auto_grouped completed]. split.
    + apply imap_count_link_fields.
    + intros seg Hseg.
      rewrite last_lookup, length_imap, list_lookup_imap in Hseg.
      destruct (raw !! pred (length raw)) as [old|] eqn:Hold;
        [|discriminate].
      injection Hseg as <-. unfold count_link.
      replace (pred (length raw) <? length raw - 1) with false
        by (symmetry; apply Nat.ltb_ge; lia).
      rewrite andb_false_r. apply Hc. now rewrite last_lookup.
  - unfold auto_grouped. cbn zeta.
    destruct (Js.quot _ _) as [quotient|]; [|now split].
    destruct (Js.rem _ _) as [remainder|]; [|now split].
    rewrite completed_fmap.
    apply (for_loop_invariant (fun st => relinked raw (fst st)));
      [|now split].
    intros g st. apply total_outer_keeps.
Qed.

Lemma auto_grouped_returns (mode : AutoGroupMode) (val : Q)
    (raw : list Segment) :
  mode <> ModeTotal ->
  auto_grouped mode val raw
  = Returned (completed (auto_grouped mode val raw)).
Proof.
  intros Hmode. destruct mode; [|reflexivity|contradiction].
  now rewrite auto_grouped_time.
Qed.

Lemma reset_segments_closed (segs : list Segment) :
  closed (map reset_segment segs).
Proof.
  intros seg Hseg. apply last_Some_elem_of in Hseg.
  apply list_elem_of_fmap in Hseg as (old & -> & _). reflexivity.
Qed.

Lemma groupCount_closed_selected (s : State) :
  closed (segments s) ->
  Forall (fun seg => selected seg = true) (segments s) ->
  groupCount s = length (buildGroups (segments s)).
Proof.
  intros Hc Hsel. rewrite buildGroups_all_selected by assumption.
  rewrite groupCount_eq, chains_length.
  apply closed_last_linked in Hc. rewrite Hc, Nat.add_0_r.
  destruct (Nat.eqb_spec (count_unlinked (segments s)) 0) as [E|E];
    [|reflexivity].
  rewrite E. unfold last_linked in Hc.
  destruct (segments s) as [|seg rest] using rev_ind; [reflexivity|].
  rewrite last_snoc in Hc. rewrite count_unlinked_app in E.
  rewrite count_unlinked_cons, Hc in E. lia.
Qed.

Lemma selected_of_fields (l k : list Segment) :
  map (set_linkNext false) l = map reset_segment k ->
  Forall (fun seg => selected seg = true) l.
Proof.
  intros H. apply Forall_forall. intros seg Hin.
  apply list_elem_of_lookup in Hin as [i Hi].
  apply (f_equal (fun l => selected <$> l !! i)) in H.
  change (map ?f ?l) with (f <$> l) in H.
  rewrite !list_lookup_fmap, Hi in H.
  destruct (k !! i); [|discriminate]. now injection H.
Qed.

Lemma reset_fields (segs : list Segment) :
  map (set_linkNext false) (map reset_segment segs) = map reset_segment segs.
Proof. rewrite map_map. now apply map_ext. Qed.

(** X6: the grouper and its three modes.  On an empty list it returns
    and changes nothing, not even the dialog.  It returns in count mode
    and in time mode for every value, and in total mode for every whole
    value.  Whether it returns or throws, it keeps the number of segments
    and their ids, times and text, leaves every segment selected and the
    last one not linked, ticks the select-all box, and the group counter
    of the page is then the number of groups the export makes; the dialog
    is closed when it returns and stays as it was when it throws. *)
Theorem applyAutoGroup_every_mode_X6 :
  forall s : State,
    let s' := completed (applyAutoGroup s) in
    (segments s = [] -> applyAutoGroup s = Returned s)
    /\ (autoGroupMode s <> ModeTotal -> applyAutoGroup s = Returned s')
    /\ (forall G : Z,
          (autoGroupValue s == inject_Z G)%Q ->
          (Z.of_nat (length (segments s)) < 2 ^ 53)%Z ->
          applyAutoGroup s = Returned s')
    /\ (segments s <> [] ->
        length (segments s') = length (segments s)
        /\ map (set_linkNext false) (segments s')
           = map reset_segment (segments s)
        /\ Forall (fun seg => selected seg = true) (segments s')
        /\ closed (segments s')
        /\ selectAll s' = true
        /\ groupCount s' = length (buildGroups (segments s'))
        /\ (applyAutoGroup s = Returned s' -> showAutoGroupModal s' = false)
        /\ (applyAutoGroup s = Thrown s' ->
            showAutoGroupModal s' = showAutoGroupModal s)).
Proof.
  intros s s'. subst s'.
  destruct (segments s) as [|seg0 rest0] eqn:Hsegs.
  { rewrite (applyAutoGroup_empty s Hsegs). cbn [completed].
    split; [reflexivity|]. split; [reflexivity|]. split; [reflexivity|].
    intros H. contradiction. }
  assert (Hne : segments s <> []) by (rewrite Hsegs; discriminate).
  rewrite <- Hsegs.
  split; [intros E; contradiction|].
  split.
  { intros Hmode. rewrite applyAutoGroup_eq by exact Hne.
    now rewrite (auto_grouped_returns _ _ _ Hmode). }
  split.
  { intros G HG Hbound. destruct (autoGroupMode s) eqn:Hmode.
    - rewrite applyAutoGroup_eq by exact Hne.
      rewrite Hmode. now rewrite auto_grouped_time.
    - rewrite applyAutoGroup_eq by exact Hne. now rewrite Hmode.
    - now rewrite (applyAutoGroup_total s G). }
  intros _. rewrite applyAutoGroup_eq by exact Hne.
  pose proof (auto_grouped_keeps (autoGroupMode s)
                (js_max 1 (autoGroupValue s)) _
                (reset_segments_closed (segments s))) as [Hf Hc].
  rewrite reset_fields in Hf.
  assert (Hsel : Forall (fun seg => selected seg = true)
                   (completed (auto_grouped (autoGroupMode s)
                                 (js_max 1 (autoGroupValue s))
                                 (map reset_segment (segments s)))))
    by (eapply selected_of_fields, Hf).
  assert (Hlen : length (completed (auto_grouped (autoGroupMode s)
                                      (js_max 1 (autoGroupValue s))
                                      (map reset_segment (segments s))))
                 = length (segments s)).
  { rewrite <- (length_map (set_linkNext false)), Hf. apply length_map. }
  destruct (auto_grouped _ _ _) as [raw|raw];
    cbn [completed segments with_showAutoGroupModal with_segments] in *;
    (split; [exact Hlen|]); (split; [exact Hf|]); (split; [exact Hsel|]);
    (split; [exact Hc|]); (split; [reflexivity|]);
    (split; [now apply groupCount_closed_selected|]);
    split; intros H; try reflexivity; discriminate H.
Qed.

Lemma applyAutoGroup_every_mode_X6_witness :
  let s := with_autoGroup ModeTime (5 # 2)
             (with_segments
                (map (fun k => mkSegment k 0 1 "s" false true) [1; 2; 3]%Z)
                initial) in
  applyAutoGroup s = Returned (completed (applyAutoGroup s))
  /\ groupCount (completed (applyAutoGroup s))
     = length (buildGroups (segments (completed (applyAutoGroup s)))).
Proof.
  cbn zeta.
  destruct (applyAutoGroup_every_mode_X6
              (with_autoGroup ModeTime (5 # 2)
                 (with_segments
                    (map (fun k => mkSegment k 0 1 "s" false true)
                       [1; 2; 3]%Z) initial)))
    as (_ & Hret & _ & H).
  split; [apply Hret; discriminate|].
  apply H. discriminate.
Defined.

Lemma reset_of_fields (l k : list Segment) :
  map (set_linkNext false) l = map (set_linkNext false) k ->
  map reset_segment l = map reset_segment k.
Proof.
  intros H. apply (f_equal (map (set_selected true))) in H.
  rewrite !map_map in H. exact H.
Qed.

Lemma reset_segment_twice (segs : list Segment) :
  map reset_segment (map reset_segment segs) = map reset_segment segs.
Proof. rewrite map_map. now apply map_ext. Qed.

(** X7: grouping again with the same mode and value changes nothing:
    the second run resets the links the first one made and puts them back
    where they were. *)
Theorem applyAutoGroup_idempotent_X7 :
  forall s s' : State,
    applyAutoGroup s = Returned s' -> applyAutoGroup s' = Returned s'.
Proof.
  intros s s' Hrun. destruct (segments s) as [|seg0 rest0] eqn:Hsegs.
  { rewrite applyAutoGroup_empty in Hrun by exact Hsegs.
    injection Hrun as <-. now apply applyAutoGroup_empty. }
  assert (Hne : segments s <> []) by (rewrite Hsegs; discriminate).
  rewrite applyAutoGroup_eq in Hrun by exact Hne.
  pose proof (auto_grouped_keeps (autoGroupMode s)
                (js_max 1 (autoGroupValue s)) _
                (reset_segments_closed (segments s))) as [Hf _].
  destruct (auto_grouped _ _ _) as [raw|raw] eqn:E; [|discriminate Hrun].
  injection Hrun as <-. cbn [completed] in Hf.
  apply reset_of_fields in Hf. rewrite reset_segment_twice in Hf.
  rewrite applyAutoGroup_eq.
  - cbn [segments autoGroupMode autoGroupValue with_showAutoGroupModal
           with_segments resetGroupingState with_selectAll].
    fold reset_segment. rewrite Hf, E. reflexivity.
  - cbn [segments with_showAutoGroupModal with_segments].
    intros E0. rewrite E0, Hsegs in Hf. discriminate Hf.
Qed.

Lemma applyAutoGroup_idempotent_X7_witness :
  exists s',
    applyAutoGroup
      (with_autoGroup ModeCount 2
         (with_segments
            (map (fun k => mkSegment k 0 1 "s" false true) [1; 2; 3]%Z)
            initial)) = Returned s'
    /\ applyAutoGroup s' = Returned s'.
Proof.
  eexists. split; [vm_compute; reflexivity|].
  apply (applyAutoGroup_idempotent_X7
           (with_autoGroup ModeCount 2
              (with_segments
                 (map (fun k => mkSegment k 0 1 "s" false true) [1; 2; 3]%Z)
                 initial))).
  vm_compute. reflexivity.
Defined.

Lemma time_links_nonempty (val : Q) (d : Q) (seg : Segment)
    (rest : list Segment) :
  exists x l, time_links val d (seg :: rest) = x :: l.
Proof.
  destruct rest as [|next rest]; [cbn; eauto|].
  rewrite time_links_cons. destruct (Js.lt _ _); eauto.
Qed.

Lemma chains_head_nonempty (segs : list Segment) chain more :
  chains segs = chain :: more -> chain <> [].
Proof.
  intros E. destruct (chains_maximal_runs segs) as (_ & H & _).
  rewrite E in H. now apply Forall_cons in H as [[Hne _] _].
Qed.

Lemma running_duration_cons (d : Q) (seg : Segment) (group : list Segment) :
  running_duration d (seg :: group)
  = running_duration (Js.add d (Js.sub (end_ seg) (start seg))) group.
Proof. reflexivity. Qed.

Lemma time_links_reach (val : Q) (segs : list Segment) :
  forall d : Q,
    Forall (fun seg => linkNext seg = false) segs ->
    (d < val)%Q -> (0 < val)%Q ->
    groups_reach val d (chains (time_links val d segs)).
Proof.
  induction segs as [|seg [|next rest] IH]; intros d Hall Hd Hval.
  - exact I.
  - cbn [time_links]. rewrite chains_cons. cbn [chains].
    now destruct (linkNext seg).
  - apply Forall_cons in Hall as [Hseg Hall].
    rewrite time_links_cons.
    set (d1 := Js.add d (Js.sub (end_ seg) (start seg))).
    destruct (time_links_nonempty val d1 next rest) as (x1 & l1 & E1).
    destruct (time_links_nonempty val 0%Q next rest) as (x0 & l0 & E0).
    destruct (Js.lt d1 val) eqn:Hlt.
    + apply Js_lt_true in Hlt. specialize (IH _ Hall Hlt Hval).
      rewrite chains_cons. cbn [set_linkNext linkNext].
      rewrite E1 in *.
      destruct (chains_nonempty x1 l1) as (chain & more & Hch).
      rewrite Hch in *. pose proof (chains_head_nonempty _ _ _ Hch) as Hne.
      destruct more as [|m more]; [exact I|].
      destruct IH as (H1 & H2 & H3). cbn [groups_reach].
      split; [|split; [|exact H3]].
      * rewrite running_duration_cons. exact H1.
      * destruct chain as [|c0 chain]; [contradiction|].
        change (removelast (set_linkNext true seg :: c0 :: chain))
          with (set_linkNext true seg :: removelast (c0 :: chain)).
        rewrite running_duration_cons. exact H2.
    + apply Js_lt_false in Hlt. specialize (IH 0%Q Hall Hval Hval).
      rewrite chains_cons, Hseg. rewrite E0 in *.
      destruct (chains_nonempty x0 l0) as (chain & more & Hch).
      rewrite Hch in *. cbn [groups_reach].
      split; [|split; [|exact IH]].
      * rewrite running_duration_cons. exact Hlt.
      * exact Hd.
Qed.

Lemma groups_reach_lookup (val : Q) (groups : list (list Segment)) :
  forall (d : Q) (i : nat) (group : list Segment),
    groups_reach val d groups ->
    groups !! i = Some group -> i + 1 < length groups ->
    (val <= running_duration (if i =? 0 then d else 0) group)%Q
    /\ (running_duration (if i =? 0 then d else 0) (removelast group)
        < val)%Q.
Proof.
  induction groups as [|g [|g' more] IH]; intros d i group Hr Hi Hlen.
  - discriminate.
  - cbn in Hlen. lia.
  - destruct Hr as (H1 & H2 & H3). destruct i as [|i].
    + injection Hi as <-. split; assumption.
    + cbn [lookup list_lookup] in Hi. cbn [length] in Hlen.
      destruct (IH 0%Q i group H3 Hi) as [A B]; [cbn [length]; lia|].
      cbn [Nat.eqb]. destruct (i =? 0); split; assumption.
Qed.

(** X8: in time mode with [T] seconds (raised to at least 1, and not
    necessarily whole), the duration of every group the export makes but
    the last one, added up member after member in doubles as the loop
    adds it, is at least [T], and is less than [T] without the last
    member: a group is closed by the segment with which the running sum
    reaches [T]. *)
Theorem time_mode_groups_X8 :
  forall (s s' : State) (i : nat) (group : list Segment),
    autoGroupMode s = ModeTime ->
    applyAutoGroup s = Returned s' ->
    buildGroups (segments s') !! i = Some group ->
    i + 1 < length (buildGroups (segments s')) ->
    (js_max 1 (autoGroupValue s) <= running_duration 0 group)%Q
    /\ (running_duration 0 (removelast group)
        < js_max 1 (autoGroupValue s))%Q.
Proof.
  intros s s' i group Hmode Hrun Hi Hlen.
  destruct (segments s) as [|seg0 rest0] eqn:Hsegs.
  { rewrite applyAutoGroup_empty in Hrun by exact Hsegs.
    injection Hrun as <-. rewrite Hsegs in Hi. discriminate Hi. }
  assert (Hne : segments s <> []) by (rewrite Hsegs; discriminate).
  rewrite applyAutoGroup_time in Hrun by assumption. injection Hrun as <-.
  cbn [segments with_showAutoGroupModal with_segments] in Hi, Hlen.
  set (val := js_max 1 (autoGroupValue s)) in *.
  assert (Hpos : (0 < val)%Q)
    by (pose proof (js_max_ge_1 (autoGroupValue s)); unfold val; lra).
  assert (Hsel : Forall (fun seg => selected seg = true)
                   (time_links val 0 (map reset_segment (segments s)))).
  { eapply selected_of_fields. rewrite time_links_fields. apply reset_fields. }
  rewrite (buildGroups_all_selected _ Hsel) in Hi, Hlen.
  assert (Hfresh : Forall (fun seg => linkNext seg = false)
                     (map reset_segment (segments s))).
  { eapply Forall_impl; [apply reset_segments_fresh|]. now intros x [_ H]. }
  pose proof (time_links_reach val (map reset_segment (segments s)) 0%Q
                Hfresh Hpos Hpos) as Hreach.
  destruct (groups_reach_lookup _ _ 0%Q i group Hreach Hi Hlen) as [A B].
  destruct (i =? 0); split; assumption.
Qed.

Lemma time_mode_groups_X8_witness :
  exists group,
    buildGroups
      (time_links 2 0
         (map reset_segment
            (map (fun k => mkSegment k 0 1 "s" false true) [1; 2; 3]%Z)))
      !! 0%nat = Some group
    /\ (2 <= running_duration 0 group)%Q.
Proof.
  eexists. split; [vm_compute; reflexivity|].
  eapply (time_mode_groups_X8
            (with_autoGroup ModeTime 2
               (with_segments
                  (map (fun k => mkSegment k 0 1 "s" false true) [1; 2; 3]%Z)
                  initial)) _ 0%nat).
  - reflexivity.
  - vm_compute. reflexivity.
  - vm_compute. reflexivity.
  - vm_compute. lia.
Defined.

(** The running sum is not the exact duration: with segments that end at
    0.18, 0.68 and 1 second the three durations add up to 1 second
    exactly, and to less than 1 in doubles, so with [T = 1] the third
    segment is linked to the fourth. *)
Example time_mode_rounded_sum :
  let a := Js.round64 (18 # 100) in
  let b := Js.round64 (68 # 100) in
  let segs := [mkSegment 1 0 a "s" true false;
               mkSegment 2 a b "s" true false;
               mkSegment 3 b 1 "s" true false;
               mkSegment 4 1 2 "s" true false;
               mkSegment 5 2 3 "s" true false] in
  (fun s => map linkNext (segments s))
  <$> applyAutoGroup (with_autoGroup ModeTime 1 (with_segments segs initial))
  = Returned [true; true; true; false; false]
  /\ (total_duration (take 3 segs) == 1)%Q
  /\ (running_duration 0 (take 3 segs) < 1)%Q.
Proof. vm_compute. repeat split; reflexivity. Qed.

Ltac js_compare :=
  repeat match goal with
         | H : Js.le _ _ = true |- _ => apply Js_le_true in H
         | H : Js.le _ _ = false |- _ => apply Js_le_false in H
         | H : Js.eq _ _ = true |- _ => apply Js_eq_true in H
         | H : Js.eq _ _ = false |- _ => apply Js_eq_false in H
         end.

(** The value the dialog stores in total mode is clamped to the same
    number of groups as the value it had. *)
Lemma modal_clamp (v n : Q) :
  (1 <= n)%Q ->
  js_min (js_max 1 (js_min (if Js.eq v 0 then 1 else v) n)) n
  = js_min (js_max 1 v) n.
Proof.
  intros Hn. unfold js_min, js_max.
  destruct (Js.eq v 0) eqn:E0;
    repeat match goal with
           | |- context [Js.le ?a ?b] =>
               lazymatch a with
               | context [Js.le _ _] => fail
               | _ => destruct (Js.le a b) eqn:?
               end
           end;
    try reflexivity; exfalso; js_compare; lra.
Qed.

Lemma openAutoGroupModal_fields (s : State) :
  segments (openAutoGroupModal s) = segments s
  /\ autoGroupMode (openAutoGroupModal s) = autoGroupMode s
  /\ forall raw : list Segment,
       length raw = length (segments s) ->
       auto_grouped (autoGroupMode s)
         (js_max 1 (autoGroupValue (openAutoGroupModal s))) raw
       = auto_grouped (autoGroupMode s) (js_max 1 (autoGroupValue s)) raw.
Proof.
  unfold openAutoGroupModal.
  destruct (autoGroupMode s) eqn:Hmode;
    [repeat split; cbn; congruence..|].
  destruct (Nat.eqb_spec (length (segments s)) 0) as [E|E].
  - repeat split; cbn; congruence.
  - split; [reflexivity|]. split; [reflexivity|]. intros raw Hraw.
    cbn [autoGroupValue with_showAutoGroupModal with_autoGroup].
    unfold auto_grouped. cbn zeta. rewrite Hraw, modal_clamp; [reflexivity|].
    change 1%Q with (inject_Z 1). rewrite <- Zle_Qle. lia.
Qed.

(** X9: opening the dialog before grouping does not change the result:
    the value it clamps in total mode is clamped again by the grouper,
    so the segments after [applyAutoGroup] are the same with and without
    [openAutoGroupModal]. *)
Theorem openAutoGroupModal_then_apply_X9 :
  forall s : State,
    segments <$> applyAutoGroup (openAutoGroupModal s)
    = segments <$> applyAutoGroup s.
Proof.
  intros s.
  destruct (openAutoGroupModal_fields s) as (Hsegs & Hmode & Hval).
  destruct (segments s) as [|seg0 rest0] eqn:E.
  { rewrite (applyAutoGroup_empty s E).
    rewrite (applyAutoGroup_empty (openAutoGroupModal s) Hsegs).
    unfold fmap, Completion_fmap. now rewrite Hsegs, E. }
  assert (Hne : segments s <> []) by (rewrite E; discriminate).
  rewrite <- E in *.
  rewrite (applyAutoGroup_eq s Hne).
  rewrite (applyAutoGroup_eq (openAutoGroupModal s))
    by (rewrite Hsegs; exact Hne).
  rewrite Hsegs, Hmode, Hval by apply length_map.
  destruct (auto_grouped _ _ _); reflexivity.
Qed.

Example modal_clamps_the_value :
  autoGroupValue
    (openAutoGroupModal
       (with_autoGroup ModeTotal 9
          (with_segments
             (map (fun k => mkSegment k 0 1 "s" true false) [1; 2]%Z)
             initial))) = 2%Q.
Proof. reflexivity. Qed.

(** ** Audio preparation *)

Lemma sqrt2_pos : (0 < sqrt2)%Q.
Proof. reflexivity. Qed.

Lemma mix_sample (left right : list Q) (i : nat) :
  i < length left `min` length right ->
  exists l r,
    left !! i = Some l /\ right !! i = Some r
    /\ (l' ← left !! i; r' ← right !! i; Js.div (l' + r') sqrt2)
       = Some ((l + r) / sqrt2)%Q.
Proof.
  intros Hi.
  destruct (lookup_lt_is_Some_2 left i) as [l Hl]; [lia|].
  destruct (lookup_lt_is_Some_2 right i) as [r Hr]; [lia|].
  exists l, r. rewrite Hl, Hr. cbn [mbind option_bind].
  split; [reflexivity|]. split; [reflexivity|].
  apply Js_div_pos, sqrt2_pos.
Qed.

Lemma mixToMono_stereo (d rate : Q) (left right : list Q)
    (others : list (list Q)) :
  exists mono,
    mixToMono (mkAudioBuffer d rate (left :: right :: others)) = Some mono
    /\ length mono = length left `min` length right
    /\ forall i l r,
         left !! i = Some l -> right !! i = Some r ->
         mono !! i = Some ((l + r) / sqrt2)%Q.
Proof.
  unfold mixToMono. cbn [channelData length Nat.eqb lookup list_lookup].
  cbn [mbind option_bind].
  destruct (mapM _ (seq 0 (length left `min` length right)))
    as [mono|] eqn:E.
  - exists mono. destruct (mapM_seq_lookup _ _ _ E) as [Hlen Hlk].
    split; [reflexivity|]. split; [exact Hlen|].
    intros i l r Hl Hr.
    assert (Hi : i < length left `min` length right).
    { apply lookup_lt_Some in Hl, Hr. lia. }
    rewrite (Hlk i Hi), Hl, Hr. cbn [mbind option_bind].
    apply Js_div_pos, sqrt2_pos.
  - exfalso. apply mapM_None_1, Exists_exists in E.
    destruct E as (i & Hi & Hnone). apply elem_of_seq in Hi.
    destruct (mix_sample left right i) as (l & r & _ & _ & H); [lia|].
    congruence.
Qed.

(** X10: a buffer of one channel is passed on as it is; with two or
    more channels the mix is defined, has the length of the shorter of
    the first two channels, holds [(left[i] + right[i]) / sqrt(2)] at
    every index, and does not depend on the channels after the second;
    a buffer without channels cannot be read. *)
Theorem mixToMono_channels_X10 :
  forall (d rate : Q) (left right : list Q) (others : list (list Q)),
    mixToMono (mkAudioBuffer d rate [left]) = Some left
    /\ mixToMono (mkAudioBuffer d rate []) = None
    /\ mixToMono (mkAudioBuffer d rate (left :: right :: others))
       = mixToMono (mkAudioBuffer d rate [left; right])
    /\ exists mono,
         mixToMono (mkAudioBuffer d rate (left :: right :: others))
         = Some mono
         /\ length mono = length left `min` length right
         /\ forall i l r,
              left !! i = Some l -> right !! i = Some r ->
              mono !! i = Some ((l + r) / sqrt2)%Q.
Proof.
  intros d rate left right others.
  split; [reflexivity|]. split; [reflexivity|]. split; [reflexivity|].
  apply mixToMono_stereo.
Qed.

Lemma mixToMono_channels_X10_witness :
  exists mono,
    mixToMono (mkAudioBuffer 1 2 [[1; 0]%Q; [1; 2; 3]%Q; [9]%Q]) = Some mono
    /\ mono !! 1%nat = Some ((0 + 2) / sqrt2)%Q.
Proof.
  destruct (mixToMono_channels_X10 1 2 [1; 0]%Q [1; 2; 3]%Q [[9]%Q])
    as (_ & _ & _ & mono & Hrun & _ & H).
  exists mono. split; [exact Hrun|]. apply H; reflexivity.
Defined.

Lemma mixToMono_length (buffer : AudioBuffer) (first : list Q)
    (mono : list Q) :
  channelData buffer !! 0 = Some first ->
  mixToMono buffer = Some mono ->
  length mono
  = match channelData buffer with
    | [_] => length first
    | _ => match channelData buffer !! 1 with
           | Some second => length first `min` length second
           | None => 0
           end
    end.
Proof.
  destruct buffer as [d rate channels]. cbn [channelData].
  destruct channels as [|c0 [|c1 others]]; intros H0 Hmix.
  - discriminate.
  - injection H0 as <-. cbn in Hmix. congruence.
  - injection H0 as <-.
    destruct (mixToMono_stereo d rate c0 c1 others) as (m & Hm & Hlen & _).
    rewrite Hm in Hmix. injection Hmix as <-. exact Hlen.
Qed.

(** X11: for a buffer whose channels are not empty and whose sample rate
    is positive, the audio posted to the worker is defined: at 16000 Hz
    it is the mono mix itself, and at any other rate it has
    [max(1, round(n * 16000 / rate))] samples for a mix of [n], the first
    of which is the first of the mix. *)
Theorem handleFileUpload_audio_X11 :
  forall (buffer : AudioBuffer) (mono : list Q),
    mixToMono buffer = Some mono -> mono <> [] ->
    (0 < sampleRate buffer)%Q ->
    exists audio,
      handleFileUpload_audio buffer = Some audio
      /\ ((sampleRate buffer == 16000)%Q -> audio = mono)
      /\ (~ (sampleRate buffer == 16000)%Q ->
          length audio
          = Z.to_nat (Z.max 1 (Js.round (inject_Z (Z.of_nat (length mono))
                                         * (16000 / sampleRate buffer))%Q))
          /\ exists x y, mono !! 0 = Some x /\ audio !! 0 = Some y
                         /\ (y == x)%Q).
Proof.
  intros buffer mono Hmix Hne Hrate.
  unfold handleFileUpload_audio. rewrite Hmix. cbn [mbind option_bind].
  assert (Hs : ~ (sampleRate buffer == 0)%Q)
    by (intros E; rewrite E in Hrate; lra).
  assert (Ht : ~ (TARGET_SAMPLE_RATE == 0)%Q) by discriminate.
  destruct (Js.eq (sampleRate buffer) TARGET_SAMPLE_RATE) eqn:E.
  - exists mono. unfold resampleToRate. rewrite E.
    split; [reflexivity|]. split; [reflexivity|].
    intros Hn. apply Js_eq_true in E. contradiction.
  - destruct (resampleToRate_runs mono _ _ Hne Hs Ht E)
      as (audio & Hrun & Hlen & Hlk).
    exists audio. split; [exact Hrun|]. split.
    + intros Heq. apply Js_eq_false in E. contradiction.
    + intros _. split; [exact Hlen|].
      assert (H0 : 0 < length audio)
        by (rewrite Hlen; apply resample_length_pos).
      pose proof (ratio_nonzero _ _ Hs Ht) as Hr.
      assert (Hn : 0 < length mono) by (destruct mono; [done|cbn; lia]).
      destruct (position_in_range _ _ 0 Hn Hr) as [P0 Pn];
        [apply resample_length_pos|].
      destruct (resample_at_in_range mono _ 0 Hr P0 Pn)
        as (a & b & Ha & _ & Hat).
      cbn zeta in Ha, Hat.
      assert (Ez : (inject_Z (Z.of_nat 0)
                    / (TARGET_SAMPLE_RATE / sampleRate buffer) == 0)%Q)
        by (change (inject_Z (Z.of_nat 0)) with 0%Q; field; split; assumption).
      rewrite (Qfloor_comp _ _ Ez) in Ha, Hat.
      change (Qfloor 0) with 0%Z in Ha, Hat. rewrite array_get_zero in Ha.
      exists a. eexists. split; [exact Ha|].
      split; [rewrite (Hlk 0 H0); exact Hat|].
      rewrite Ez. change (inject_Z 0) with 0%Q. ring.
Qed.

Lemma handleFileUpload_audio_X11_witness :
  exists audio,
    handleFileUpload_audio (mkAudioBuffer 1 8000 [[1; 2]%Q]) = Some audio
    /\ length audio = 4.
Proof.
  destruct (handleFileUpload_audio_X11
              (mkAudioBuffer 1 8000 [[1; 2]%Q]) [1; 2]%Q)
    as (audio & Hrun & _ & H).
  - reflexivity.
  - discriminate.
  - reflexivity.
  - exists audio. split; [exact Hrun|].
    destruct H as [-> _]; [discriminate|reflexivity].
Defined.

(** ** Slices and PCM blocks of the export *)

Lemma subarray_nat {A : Type} (l : list A) (a b : nat) :
  subarray l (Z.of_nat a) (Z.of_nat b)
  = take (b `min` length l - a `min` length l) (drop (a `min` length l) l).
Proof.
  unfold subarray, relative_index.
  destruct (Z.ltb_spec (Z.of_nat a) 0); [lia|].
  destruct (Z.ltb_spec (Z.of_nat b) 0); [lia|].
  repeat f_equal; lia.
Qed.

Lemma subarray_length {A : Type} (l : list A) (from to : Z) :
  (0 <= from)%Z -> (0 <= to)%Z ->
  length (subarray l from to)
  = Z.to_nat (Z.min to (Z.of_nat (length l))
              - Z.min from (Z.of_nat (length l))).
Proof.
  intros Hf Ht.
  rewrite <- (Z2Nat.id from), <- (Z2Nat.id to) by assumption.
  rewrite subarray_nat, length_take, length_drop. lia.
Qed.

Lemma subarray_lookup {A : Type} (l : list A) (from to : Z) (k : nat) :
  (0 <= from)%Z -> (Z.of_nat k < to - from)%Z ->
  subarray l from to !! k = l !! (Z.to_nat from + k).
Proof.
  intros Hf Hk.
  assert (Ht : (0 <= to)%Z) by lia.
  rewrite <- (Z2Nat.id from) at 1 by assumption.
  rewrite <- (Z2Nat.id to) at 1 by assumption.
  rewrite subarray_nat.
  destruct (decide (Z.to_nat from + k < length l)) as [Hin|Hout].
  - rewrite lookup_take_lt by lia. rewrite lookup_drop. f_equal. lia.
  - rewrite (lookup_ge_None_2 l) by lia.
    apply lookup_ge_None_2. rewrite length_take, length_drop. lia.
Qed.

(** X12: the export cuts every channel of the buffer, in order, between
    the two sample indices of the group; for times that are not negative
    a slice has [min(end, n) - min(start, n)] samples for a channel of
    [n], none when the end is not after the start, and its sample [k] is
    the channel's sample [start + k]: a range that runs past the end of
    the recording is cut there instead of failing. *)
Theorem export_slices_X12 :
  forall (buffer : AudioBuffer) (group : list Segment) (entry : ExportEntry),
    exportGroup buffer group = Some entry ->
    (0 <= startSample entry)%Z -> (0 <= endSample entry)%Z ->
    length (channels entry) = length (channelData buffer)
    /\ forall (c : nat) (data slice : list Q),
         channelData buffer !! c = Some data ->
         channels entry !! c = Some slice ->
         length slice
         = Z.to_nat (Z.min (endSample entry) (Z.of_nat (length data))
                     - Z.min (startSample entry) (Z.of_nat (length data)))
         /\ ((endSample entry <= startSample entry)%Z -> slice = [])
         /\ forall k : nat,
              (Z.of_nat k < endSample entry - startSample entry)%Z ->
              slice !! k = data !! (Z.to_nat (startSample entry) + k).
Proof.
  intros buffer group entry Hrun Hs He.
  apply exportGroup_entry in Hrun.
  destruct Hrun as (first & final & _ & _ & _ & _ & _ & _ & _ & Hch).
  rewrite Hch. split; [apply length_map|].
  intros c data slice Hdata Hslice.
  change (map ?f ?l) with (f <$> l) in Hslice.
  rewrite list_lookup_fmap, Hdata in Hslice. injection Hslice as <-.
  split; [now apply subarray_length|]. split.
  - intros Hle. apply length_zero_iff_nil.
    rewrite subarray_length by assumption. lia.
  - intros k Hk. now apply subarray_lookup.
Qed.

Lemma export_slices_X12_witness :
  exists entry,
    exportGroup (mkAudioBuffer 3 2 [[10; 11; 12; 13; 14; 15]%Q])
      [mkSegment 1 2 9 "late" true false] = Some entry
    /\ forall slice, channels entry !! 0%nat = Some slice -> length slice = 2.
Proof.
  eexists. split; [reflexivity|]. intros slice Hslice.
  destruct (export_slices_X12
              (mkAudioBuffer 3 2 [[10; 11; 12; 13; 14; 15]%Q])
              [mkSegment 1 2 9 "late" true false] _ eq_refl) as [_ H].
  - vm_compute. discriminate.
  - vm_compute. discriminate.
  - destruct (H 0%nat [10; 11; 12; 13; 14; 15]%Q slice eq_refl Hslice)
      as [Hlen _].
    rewrite Hlen. reflexivity.
Defined.

Lemma clamp_unit_spec (x : Q) :
  (-1 <= js_max (-1) (js_min 1 x) <= 1)%Q
  /\ ((x <= -1)%Q -> (js_max (-1) (js_min 1 x) == -1)%Q)
  /\ ((1 <= x)%Q -> (js_max (-1) (js_min 1 x) == 1)%Q)
  /\ ((-1 <= x <= 1)%Q -> (js_max (-1) (js_min 1 x) == x)%Q).
Proof.
  unfold js_max, js_min.
  destruct (Js.le 1 x) eqn:H1.
  - apply Js_le_true in H1.
    destruct (Js.le (-1) 1) eqn:H2; [|apply Js_le_false in H2; lra].
    repeat split; intros; lra.
  - apply Js_le_false in H1.
    destruct (Js.le (-1) x) eqn:H2.
    + apply Js_le_true in H2. repeat split; intros; lra.
    + apply Js_le_false in H2. repeat split; intros; lra.
Qed.

Lemma clamp_unit_mono (x1 x2 : Q) :
  (x1 <= x2)%Q ->
  (js_max (-1) (js_min 1 x1) <= js_max (-1) (js_min 1 x2))%Q.
Proof.
  intros H.
  destruct (clamp_unit_spec x1) as (R1 & A1 & B1 & C1).
  destruct (clamp_unit_spec x2) as (R2 & A2 & B2 & C2).
  destruct (Qlt_le_dec x1 (-1)) as [L1|L1].
  { rewrite A1 by lra. lra. }
  destruct (Qlt_le_dec 1 x2) as [L2|L2].
  { rewrite (B2 ltac:(lra)). lra. }
  rewrite C1, C2 by lra. exact H.
Qed.

Lemma toInt16_in_range (x : Q) :
  (-32768 <= trunc x <= 32767)%Z -> toInt16 x = trunc x.
Proof. intros H. unfold toInt16. rewrite Z.mod_small; lia. Qed.

Lemma Qceiling_le (x : Q) (k : Z) : (x <= inject_Z k)%Q -> (Qceiling x <= k)%Z.
Proof.
  intros H. rewrite <- (Qceiling_Z k). now apply Qceiling_resp_le.
Qed.

Lemma Qceiling_ge (x : Q) (k : Z) : (inject_Z k <= x)%Q -> (k <= Qceiling x)%Z.
Proof.
  intros H. rewrite Zle_Qle. eapply Qle_trans; [exact H|apply Qle_ceiling].
Qed.

Lemma Qfloor_le_Z (x : Q) (k : Z) : (x <= inject_Z k)%Q -> (Qfloor x <= k)%Z.
Proof.
  intros H. rewrite Zle_Qle. eapply Qle_trans; [apply Qfloor_le|exact H].
Qed.

Lemma Qfloor_ge (x : Q) (k : Z) : (inject_Z k <= x)%Q -> (k <= Qfloor x)%Z.
Proof.
  intros H. rewrite <- (Qfloor_Z k). now apply Qfloor_resp_le.
Qed.

(** The sample written for a clamped value [s], without the wrap. *)
Lemma pcm_of_clamped (s : Q) :
  (-1 <= s <= 1)%Q ->
  toInt16 (if Js.lt s 0 then s * 32768 else s * 32767)%Q
  = (if Js.lt s 0 then Qceiling (s * 32768) else Qfloor (s * 32767))
  /\ (-32768
      <= (if Js.lt s 0 then Qceiling (s * 32768) else Qfloor (s * 32767))
      <= 32767)%Z.
Proof.
  intros Hs. destruct (Js.lt s 0) eqn:E.
  - apply Js_lt_true in E.
    assert (R : (-32768 <= Qceiling (s * 32768) <= 0)%Z).
    { split; [apply Qceiling_ge|apply Qceiling_le];
        [change (inject_Z (-32768)) with (-32768)%Q
        |change (inject_Z 0) with 0%Q]; lra. }
    assert (T : trunc (s * 32768) = Qceiling (s * 32768)).
    { unfold trunc. destruct (Js.le 0 (s * 32768)) eqn:F; [|reflexivity].
      apply Js_le_true in F. lra. }
    split; [|lia]. rewrite toInt16_in_range; rewrite T; [reflexivity|lia].
  - apply Js_lt_false in E.
    assert (R : (0 <= Qfloor (s * 32767) <= 32767)%Z).
    { split; [apply Qfloor_ge|apply Qfloor_le_Z];
        [change (inject_Z 0) with 0%Q
        |change (inject_Z 32767) with 32767%Q]; lra. }
    assert (T : trunc (s * 32767) = Qfloor (s * 32767)).
    { unfold trunc. destruct (Js.le 0 (s * 32767)) eqn:F; [reflexivity|].
      apply Js_le_false in F. lra. }
    split; [|lia]. rewrite toInt16_in_range; rewrite T; [reflexivity|lia].
Qed.

Lemma pcm_sample_value (x : Q) :
  floatTo16BitPCM_sample x
  = (let s := js_max (-1) (js_min 1 x) in
     if Js.lt s 0 then Qceiling (s * 32768) else Qfloor (s * 32767)).
Proof.
  unfold floatTo16BitPCM_sample. cbn zeta.
  apply pcm_of_clamped, clamp_unit_spec.
Qed.

(** X13: the 16-bit sample of any number lies in [-32768, 32767] and
    never wraps around; numbers from 1 up give 32767 and numbers down
    from -1 give -32768; the sign is kept; and a larger input never gives
    a smaller sample. *)
Theorem floatTo16BitPCM_range_X13 :
  forall x : Q,
    (-32768 <= floatTo16BitPCM_sample x <= 32767)%Z
    /\ ((1 <= x)%Q -> floatTo16BitPCM_sample x = 32767%Z)
    /\ ((x <= -1)%Q -> floatTo16BitPCM_sample x = (-32768)%Z)
    /\ ((0 <= x)%Q -> (0 <= floatTo16BitPCM_sample x)%Z)
    /\ ((x <= 0)%Q -> (floatTo16BitPCM_sample x <= 0)%Z)
    /\ forall x' : Q,
         (x <= x')%Q ->
         (floatTo16BitPCM_sample x <= floatTo16BitPCM_sample x')%Z.
Proof.
  intros x. rewrite pcm_sample_value. cbn zeta.
  destruct (clamp_unit_spec x) as (R & A & B & C).
  pose proof (pcm_of_clamped _ R) as [_ Hrange].
  split; [exact Hrange|].
  set (s := js_max (-1) (js_min 1 x)) in *.
  split; [|split; [|split; [|split]]].
  - intros H1. specialize (B H1).
    destruct (Js.lt s 0) eqn:E; [apply Js_lt_true in E; lra|].
    rewrite (Qfloor_comp (s * 32767) 32767) by (rewrite B; reflexivity).
    reflexivity.
  - intros H1. specialize (A H1).
    destruct (Js.lt s 0) eqn:E; [|apply Js_lt_false in E; lra].
    rewrite (Qceiling_comp (s * 32768) (-32768)) by (rewrite A; reflexivity).
    reflexivity.
  - intros H0. destruct (Js.lt s 0) eqn:E.
    + apply Js_lt_true in E.
      destruct (Qlt_le_dec 1 x); [rewrite B in E by lra|rewrite C in E by lra];
        lra.
    + apply Js_lt_false in E. apply Qfloor_ge.
      change (inject_Z 0) with 0%Q. lra.
  - intros H0. destruct (Js.lt s 0) eqn:E.
    + apply Js_lt_true in E. apply Qceiling_le.
      change (inject_Z 0) with 0%Q. lra.
    + apply Js_lt_false in E.
      assert (Es : (s == 0)%Q).
      { destruct (Qlt_le_dec x (-1));
          [rewrite A in E by lra|rewrite C in E |- * by lra]; lra. }
      rewrite (Qfloor_comp (s * 32767) 0) by (rewrite Es; reflexivity).
      reflexivity.
  - intros x' Hle. rewrite pcm_sample_value. cbn zeta.
    pose proof (clamp_unit_mono x x' Hle) as Hm. fold s in Hm.
    destruct (clamp_unit_spec x') as (R' & _).
    set (s' := js_max (-1) (js_min 1 x')) in *.
    destruct (Js.lt s 0) eqn:E, (Js.lt s' 0) eqn:E';
      first [apply Js_lt_true in E|apply Js_lt_false in E];
      first [apply Js_lt_true in E'|apply Js_lt_false in E'].
    + apply Qceiling_resp_le. lra.
    + transitivity 0%Z.
      * apply Qceiling_le. change (inject_Z 0) with 0%Q. lra.
      * apply Qfloor_ge. change (inject_Z 0) with 0%Q. lra.
    + lra.
    + apply Qfloor_resp_le. lra.
Qed.

Lemma floatTo16BitPCM_range_X13_witness :
  floatTo16BitPCM_sample (3 # 2) = 32767%Z
  /\ (floatTo16BitPCM_sample (-(1 # 2)) <= floatTo16BitPCM_sample (1 # 3))%Z.
Proof.
  split.
  - apply (proj1 (proj2 (floatTo16BitPCM_range_X13 (3 # 2)))). discriminate.
  - apply (proj2 (proj2 (proj2 (proj2 (proj2
             (floatTo16BitPCM_range_X13 (-(1 # 2)))))))). discriminate.
Defined.

Example pcm_samples :
  floatTo16BitPCM [0; 1 # 2; -(1 # 2); 1; -1; 2; -3]%Q
  = [0; 16383; -16384; 32767; -32768; 32767; -32768]%Z.
Proof. reflexivity. Qed.

Lemma encode_loop_done (fuel i : nat) (left : list Z) right :
  length left <= i -> encode_loop fuel i left right = [].
Proof.
  intros H. destruct fuel; [reflexivity|]. cbn [encode_loop].
  now replace (i <? length left) with false
    by (symmetry; apply Nat.ltb_ge; exact H).
Qed.

Lemma encode_loop_step (fuel i : nat) (left : list Z) right :
  i < length left ->
  encode_loop (S fuel) i left right
  = (take (maxSamples `min` (length left - i)) (drop i left),
     (fun channel =>
        subarray channel (Z.of_nat i) (Z.of_nat (i + maxSamples))) <$> right)
    :: encode_loop fuel (i + maxSamples) left right.
Proof.
  intros H. cbn [encode_loop].
  replace (i <? length left) with true
    by (symmetry; apply Nat.ltb_lt; exact H).
  rewrite subarray_nat. repeat f_equal; lia.
Qed.

Lemma encode_loop_left (left : list Z) right :
  forall fuel i : nat,
    i <= length left -> length left - i <= fuel ->
    concat (map fst (encode_loop fuel i left right)) = drop i left
    /\ Forall (fun block => 1 <= length (fst block) <= maxSamples)
         (encode_loop fuel i left right).
Proof.
  induction fuel as [|fuel IH]; intros i Hi Hfuel.
  - cbn. split; [|constructor]. rewrite drop_ge by lia. reflexivity.
  - destruct (decide (i < length left)) as [Hlt|Hge].
    + rewrite encode_loop_step by exact Hlt. cbn [map concat fst].
      destruct (decide (i + maxSamples <= length left)) as [Hfit|Hpast].
      * destruct (IH (i + maxSamples)) as [IHc IHf]; [lia| |].
        { unfold maxSamples in *. lia. }
        rewrite IHc. split.
        -- replace (maxSamples `min` (length left - i)) with maxSamples by lia.
           rewrite <- drop_drop. apply take_drop.
        -- constructor; [|exact IHf]. cbn [fst].
           rewrite length_take, length_drop. unfold maxSamples in *. lia.
      * rewrite encode_loop_done by lia. cbn [concat]. split.
        -- rewrite app_nil_r. apply take_ge. rewrite length_drop. lia.
        -- constructor; [|constructor]. cbn [fst].
           rewrite length_take, length_drop. unfold maxSamples in *. lia.
    + rewrite encode_loop_done by lia. cbn. split; [|constructor].
      rewrite drop_ge by lia. reflexivity.
Qed.

Lemma encode_loop_right (left r : list Z) :
  length r = length left ->
  forall fuel i : nat,
    map snd (encode_loop fuel i left (Some r))
    = map (fun block => Some (fst block)) (encode_loop fuel i r None).
Proof.
  intros Hlen. induction fuel as [|fuel IH]; intros i; [reflexivity|].
  cbn [encode_loop]. rewrite Hlen.
  destruct (i <? length left); [|reflexivity].
  cbn [map snd fst fmap option_fmap option_map]. now rewrite IH.
Qed.

Lemma encode_loop_mono_right (left : list Z) :
  forall fuel i : nat,
    Forall (fun block => snd block = None) (encode_loop fuel i left None).
Proof.
  induction fuel as [|fuel IH]; intros i; [constructor|].
  cbn [encode_loop]. destruct (i <? length left); constructor; [reflexivity|].
  apply IH.
Qed.

Lemma encode_loop_lengths (left : list Z) right right' :
  forall fuel i : nat,
    map (fun block => length (fst block)) (encode_loop fuel i left right)
    = map (fun block => length (fst block)) (encode_loop fuel i left right').
Proof.
  induction fuel as [|fuel IH]; intros i; [reflexivity|].
  cbn [encode_loop]. destruct (i <? length left); [|reflexivity].
  cbn [map fst]. now rewrite IH.
Qed.

Lemma encode_loop_same_lengths (left r : list Z) :
  length r = length left ->
  forall fuel i : nat,
    map (fun block => length (fst block)) (encode_loop fuel i r None)
    = map (fun block => length (fst block)) (encode_loop fuel i left None).
Proof.
  intros Hr. induction fuel as [|fuel IH]; intros i; [reflexivity|].
  cbn [encode_loop]. rewrite Hr.
  destruct (i <? length left) eqn:E; [|reflexivity].
  cbn [map fst]. rewrite IH. f_equal.
  rewrite !subarray_nat, !length_take, !length_drop, Hr. reflexivity.
Qed.

(** X14: the encoder is given every sample of the group exactly once
    and in order, in blocks of 1 to 1152 samples: the left blocks put
    together are the converted first channel; a mono group never passes
    a right block; and for a second channel of the same length the right
    blocks put together are the converted second channel, each as long as
    the left block it is passed with. *)
Theorem encodeMP3_blocks_X14 :
  forall (channels : list (list Q)) (first : list Q),
    channels !! 0 = Some first ->
    exists blocks,
      encodeMP3_blocks channels = Some blocks
      /\ concat (map fst blocks) = floatTo16BitPCM first
      /\ Forall (fun block => 1 <= length (fst block) <= 1152) blocks
      /\ (channels !! 1 = None ->
          Forall (fun block => snd block = None) blocks)
      /\ (forall second : list Q,
            channels !! 1 = Some second -> length second = length first ->
            exists rights,
              map snd blocks = map Some rights
              /\ concat rights = floatTo16BitPCM second
              /\ map length rights = map length (map fst blocks)).
Proof.
  intros channels first Hfirst. unfold encodeMP3_blocks. rewrite Hfirst.
  cbn [mbind option_bind]. eexists. split; [reflexivity|].
  set (left := floatTo16BitPCM first).
  destruct (encode_loop_left left (floatTo16BitPCM <$> channels !! 1)
              (length left) 0) as [Hc Hf]; [lia..|].
  split; [exact Hc|]. split; [exact Hf|]. split.
  - intros ->. apply encode_loop_mono_right.
  - intros second -> Hlen. cbn [fmap option_fmap option_map].
    set (r := floatTo16BitPCM second).
    assert (Hr : length r = length left)
      by (unfold r, left, floatTo16BitPCM; rewrite !length_map; exact Hlen).
    exists (map fst (encode_loop (length left) 0 r None)).
    split; [|split].
    + rewrite encode_loop_right by exact Hr. now rewrite map_map.
    + rewrite <- Hr.
      now destruct (encode_loop_left r None (length r) 0) as [-> _]; [lia..|].
    + rewrite !map_map.
      transitivity (map (fun block : list Z * option (list Z) =>
                           length (fst block))
                      (encode_loop (length left) 0 left None)).
      * now apply encode_loop_same_lengths.
      * apply encode_loop_lengths.
Qed.

Lemma encodeMP3_blocks_X14_witness :
  exists blocks,
    encodeMP3_blocks [[0; 1]%Q] = Some blocks
    /\ concat (map fst blocks) = [0; 32767]%Z.
Proof.
  destruct (encodeMP3_blocks_X14 [[0; 1]%Q] [0; 1]%Q eq_refl)
    as (blocks & Hrun & Hcat & _).
  exists blocks. split; [exact Hrun|]. rewrite Hcat. reflexivity.
Defined.

(** ** Worker and page *)

Section WorkerFacts.

Context {Raw : Type} (invalidLength : string).

Lemma chunk_callbacks_shape (t : Transcriber Raw) (jobId total : Z)
    (stamps : bool) (chunks : list Raw) :
  forall (processed : Z) (collected : list Raw) posted thrown,
    chunk_callbacks t jobId total stamps processed collected chunks
    = (posted, thrown) ->
    forall (i : nat) (m : WorkerMessage),
      posted !! i = Some m ->
      exists partialChunks,
        m = Partial jobId (processed + Z.of_nat i + 1) total partialChunks.
Proof.
  induction chunks as [|chunk rest IH];
    intros processed collected posted thrown H i m Hm.
  - injection H as <- <-. discriminate Hm.
  - cbn [chunk_callbacks] in H.
    destruct (decode_asr t (collected ++ [chunk]) stamps) as [msg|optional].
    + injection H as <- <-. discriminate Hm.
    + destruct (chunk_callbacks t jobId total stamps (processed + 1)
                  (collected ++ [chunk]) rest) as [posted' thrown'] eqn:E.
      injection H as <- <-. destruct i as [|i].
      * injection Hm as <-. eexists. f_equal. lia.
      * destruct (IH _ _ _ _ E i m Hm) as [cs ->]. eexists. f_equal. lia.
Qed.

(** The worker answers every request, whatever the engine and the audio
    are. *)
Lemma worker_onmessage_answers (t : Settled Raw) (jobId : Z)
    (payload : TranscribePayload) :
  is_Some (worker_onmessage invalidLength t jobId payload).
Proof.
  unfold worker_onmessage. destruct t as [message|t]; [eauto|].
  cbn zeta. destruct (if Js.eq _ _ then _ else _) as [samples|]; [|eauto].
  rewrite estimate_is_spec. cbn [mbind option_bind].
  destruct (transcribe t samples _ _ _) as [chunks result].
  destruct (chunk_callbacks t jobId _ _ 0 [] chunks) as [posted thrown].
  eauto.
Qed.

Lemma worker_onmessage_shape (t : Settled Raw) (jobId : Z)
    (payload : TranscribePayload) (messages : list WorkerMessage) :
  worker_onmessage invalidLength t jobId payload = Some messages ->
  exists posted final total,
    messages = posted ++ [final]
    /\ is_final final = true /\ jobId_of final = jobId
    /\ (1 <= total)%Z
    /\ forall (i : nat) (m : WorkerMessage),
         posted !! i = Some m ->
         exists partialChunks,
           m = Partial jobId (Z.of_nat i + 1) total partialChunks.
Proof.
  unfold worker_onmessage. destruct t as [message|t].
  - intros [= <-]. exists [], (Error jobId (error_message message)), 1%Z.
    repeat split; try reflexivity. intros i m H. discriminate H.
  - cbn zeta. destruct (if Js.eq _ _ then _ else _) as [samples|].
    + rewrite estimate_is_spec. cbn [mbind option_bind].
      set (total := estimateTotal_spec _ _ _ _).
      destruct (transcribe t samples _ _ _) as [chunks result].
      destruct (chunk_callbacks t jobId total _ 0 [] chunks)
        as [posted thrown] eqn:E.
      intros [= <-]. eexists posted, _, total.
      split; [reflexivity|].
      split; [destruct thrown; [reflexivity|destruct result; reflexivity]|].
      split; [destruct thrown; [reflexivity|destruct result; reflexivity]|].
      split; [apply estimate_spec_ge_1|].
      intros i m Hm.
      destruct (chunk_callbacks_shape _ _ _ _ _ _ _ _ _ E i m Hm)
        as [cs ->].
      eexists. f_equal.
    + intros [= <-].
      exists [], (Error jobId (error_message (Some invalidLength))), 1%Z.
      repeat split; try reflexivity. intros i m H. discriminate H.
Qed.

End WorkerFacts.

(** With an audio that is not empty and rates other than zero the samples
    handed to the engine are those of [resampleToRate]. *)
Lemma worker_resample_numbers (input : list Q) (sourceRate targetRate : Q) :
  input <> [] -> ~ (sourceRate == 0)%Q -> ~ (targetRate == 0)%Q ->
  exists output,
    resampleToRate input sourceRate targetRate = Some output
    /\ worker_resample input sourceRate targetRate = Audio (Num <$> output).
Proof.
  intros Hin Hs Ht. unfold worker_resample.
  destruct (Js.eq sourceRate targetRate) eqn:E.
  - exists input. unfold resampleToRate. rewrite E. split; reflexivity.
  - destruct (resampleToRate_runs input _ _ Hin Hs Ht E)
      as (output & -> & _). exists output. split; reflexivity.
Qed.

Lemma is_final_cases (data : WorkerMessage) :
  is_final data = true ->
  (exists chunks, data = Done (jobId_of data) chunks)
  \/ (exists message, data = Error (jobId_of data) message).
Proof. destruct data; try discriminate; intros _; eauto. Qed.

(** X15: whatever the engine does and whatever the audio and the rates
    are, the worker answers a request: it posts messages of the request's
    job id only, partial messages numbered 1, 2, 3, ... that all carry the
    same estimated total, which is at least 1, and then exactly one
    closing message, done or error, after which it posts nothing.  When
    the pipeline does not load, the answer is the one error message with
    the text of the load error, or the fixed text when it has none. *)
Theorem worker_stream_X15 :
  forall (Raw : Type) (invalidLength : string) (t : Settled Raw) (jobId : Z)
         (payload : TranscribePayload),
    exists messages : list WorkerMessage,
      worker_onmessage invalidLength t jobId payload = Some messages
      /\ Forall (fun m => jobId_of m = jobId) messages
      /\ (exists posted final total,
            messages = posted ++ [final]
            /\ is_final final = true
            /\ Forall (fun m => is_final m = false) posted
            /\ (1 <= total)%Z
            /\ forall (i : nat) (m : WorkerMessage),
                 posted !! i = Some m ->
                 exists partialChunks,
                   m = Partial jobId (Z.of_nat i + 1) total partialChunks)
      /\ (forall message,
            t = inl message ->
            messages = [Error jobId (default "转写失败" message)]).
Proof.
  intros Raw invalidLength t jobId payload.
  destruct (worker_onmessage_answers invalidLength t jobId payload)
    as [messages Hrun].
  exists messages. split; [exact Hrun|].
  destruct (worker_onmessage_shape invalidLength t jobId payload messages
              Hrun)
    as (posted & final & total & Hm & Hfin & Hid & Htotal & Hposted).
  assert (Hall : forall m, m ∈ posted ->
                   jobId_of m = jobId /\ is_final m = false).
  { intros m Hin. apply list_elem_of_lookup in Hin as [i Hi].
    destruct (Hposted i m Hi) as [cs ->]. split; reflexivity. }
  split; [|split].
  - rewrite Hm. apply Forall_app. split.
    + apply Forall_forall. intros m Hin. now apply Hall.
    + constructor; [exact Hid|constructor].
  - exists posted, final, total. split; [exact Hm|].
    split; [exact Hfin|]. split; [|split; [exact Htotal|exact Hposted]].
    apply Forall_forall. intros m Hin. now apply Hall.
  - intros message ->. cbn in Hrun. now injection Hrun as <-.
Qed.

Lemma worker_stream_X15_witness :
  exists messages : list WorkerMessage,
    worker_onmessage (Raw := unit) "invalid length" (inl None) 7
      (mkTranscribePayload (mkWorkerConfig "w" true false true "m")
         [0; 0]%Q 16000 15 5 true) = Some messages
    /\ messages = [Error 7 "转写失败"].
Proof.
  destruct (worker_stream_X15 unit "invalid length" (inl None) 7%Z
              (mkTranscribePayload (mkWorkerConfig "w" true false true "m")
                 [0; 0]%Q 16000 15 5 true))
    as (messages & Hrun & _ & _ & Hload).
  exists messages. split; [exact Hrun|]. apply (Hload None). reflexivity.
Defined.

(** What the worker posts when the resampling does not give numbers:
    with a request rate of 0 the array of infinite length cannot be made and the
    error of it is posted; with an engine rate of 0 the one sample is
    [NaN] and the engine runs on it. *)
Example worker_answers_without_numbers :
  let engine (rate : Q) : Settled unit :=
    inr (mkTranscriber unit (Some rate)
           (fun _ _ => inr (Some [WorkerChunk.mk (0, None)%Q "a"]))
           (fun samples _ _ _ =>
              match samples with
              | [NaN] => ([tt], inr None)
              | _ => ([], inl None)
              end)) in
  let request (rate : Q) : TranscribePayload :=
    mkTranscribePayload (mkWorkerConfig "w" true false true "m")
      [1; 2]%Q rate 15 5 true in
  worker_onmessage "invalid length" (engine 16000%Q) 7 (request 0%Q)
  = Some [Error 7 "invalid length"]
  /\ worker_onmessage "invalid length" (engine 0%Q) 7 (request 16000%Q)
     = Some [Partial 7 1 1 [WorkerChunk.mk (0, None)%Q "a"]; Done 7 []].
Proof. vm_compute. split; reflexivity. Qed.

Lemma deliver_app (l k : list WorkerMessage) (s : State) :
  deliver (l ++ k) s = deliver k (deliver l s).
Proof. unfold deliver. apply foldl_app. Qed.

Lemma onmessage_audioBuffer (data : WorkerMessage) (s : State) :
  audioBuffer (onmessage data s) = audioBuffer s.
Proof.
  unfold onmessage.
  destruct (negb (jobId_of data =? activeJobId s)%Z); [reflexivity|].
  destruct data; reflexivity.
Qed.

Lemma deliver_keeps (messages : list WorkerMessage) (s : State) :
  activeJobId (deliver messages s) = activeJobId s
  /\ audioBuffer (deliver messages s) = audioBuffer s.
Proof.
  revert s. induction messages as [|m l IH]; intros s; [split; reflexivity|].
  change (deliver (m :: l) s) with (deliver l (onmessage m s)).
  destruct (IH (onmessage m s)) as [-> ->].
  split; [apply onmessage_activeJobId|apply onmessage_audioBuffer].
Qed.

Lemma deliver_other_job (messages : list WorkerMessage) (s : State) :
  Forall (fun m => jobId_of m <> activeJobId s) messages ->
  deliver messages s = s.
Proof.
  induction 1 as [|m l Hm _ IH]; [reflexivity|].
  change (deliver (m :: l) s) with (deliver l (onmessage m s)).
  now rewrite onmessage_other_job.
Qed.

Lemma progressPercent_full (s : State) :
  (0 < totalChunks s)%Z -> (totalChunks s <= processedChunks s)%Z ->
  progressPercent s = Some 100%Z.
Proof.
  intros Ht Hge. rewrite progressPercent_value by lia. f_equal.
  apply Z.min_l, round_ge. change (inject_Z 100) with 100%Q.
  assert (1 <= inject_Z (processedChunks s) / inject_Z (totalChunks s))%Q.
  { apply Qle_shift_div_l; [now apply inject_Z_pos|].
    rewrite Zle_Qle in Hge. lra. }
  lra.
Qed.

Lemma onmessage_done (s : State) (chunks : list WorkerChunk.t) :
  let s' := onmessage (Done (activeJobId s) chunks) s in
  segments s'
  = imap (fresh_segment (from_option duration 0%Q (audioBuffer s))) chunks
  /\ status s' = "" /\ isLoading s' = false /\ isTranscribing s' = false
  /\ processedChunks s' = Z.of_nat (length chunks)
  /\ totalChunks s' = Z.of_nat (length chunks).
Proof.
  cbn zeta. unfold onmessage. cbn [jobId_of]. rewrite Z.eqb_refl.
  cbn [negb]. repeat split.
Qed.

Lemma onmessage_error (s : State) (message : string) :
  let s' := onmessage (Error (activeJobId s) message) s in
  segments s' = segments s
  /\ status s' <> "" /\ isLoading s' = false /\ isTranscribing s' = false
  /\ (message <> "" -> status s' = message).
Proof.
  cbn zeta. unfold onmessage. cbn [jobId_of]. rewrite Z.eqb_refl.
  cbn [negb]. split; [reflexivity|].
  cbn [status with_isTranscribing with_isLoading with_status isLoading
         isTranscribing].
  destruct (String.eqb_spec message "") as [->|Hne].
  - repeat split; [discriminate|contradiction].
  - repeat split; assumption.
Qed.

(** X16: when the page has handled every message the worker posts for
    the active job, it is no longer loading or transcribing.  If the
    stream closes with done, the segment list is made of the final
    chunks, the status is cleared, both counters are the number of
    chunks and the progress is 100 (0 for no chunk).  If it closes with
    an error, the status shows a text that is never empty and the
    segments are those of the last partial message. *)
Theorem page_after_job_X16 :
  forall (Raw : Type) (invalidLength : string) (t : Settled Raw)
         (payload : TranscribePayload)
         (s : State) (buffer : AudioBuffer) (messages : list WorkerMessage),
    audioBuffer s = Some buffer ->
    worker_onmessage invalidLength t (activeJobId s) payload
    = Some messages ->
    isLoading (deliver messages s) = false
    /\ isTranscribing (deliver messages s) = false
    /\ (forall chunks,
          last messages = Some (Done (activeJobId s) chunks) ->
          segments (deliver messages s)
          = imap (fresh_segment (duration buffer)) chunks
          /\ status (deliver messages s) = ""
          /\ processedChunks (deliver messages s)
             = Z.of_nat (length chunks)
          /\ totalChunks (deliver messages s) = Z.of_nat (length chunks)
          /\ progressPercent (deliver messages s)
             = Some (if (length chunks =? 0)%nat then 0%Z else 100%Z))
    /\ (forall message,
          last messages = Some (Error (activeJobId s) message) ->
          status (deliver messages s) <> ""
          /\ segments (deliver messages s)
             = segments (deliver (removelast messages) s)).
Proof.
  intros Raw invalidLength t payload s buffer messages Hbuf Hrun.
  destruct (worker_onmessage_shape invalidLength t _ payload messages Hrun)
    as (posted & final & total & -> & Hfin & Hid & _ & _).
  rewrite deliver_app, removelast_last, last_snoc.
  change (deliver [final] ?x) with (onmessage final x).
  destruct (deliver_keeps posted s) as [Hj Hb].
  set (s1 := deliver posted s) in *.
  destruct final as [| |j chunks|j message]; try discriminate Hfin;
    cbn [jobId_of] in Hid; subst j.
  - pose proof (onmessage_done s1 chunks) as H. cbn zeta in H.
    rewrite Hj in H. destruct H as (A & B & C & D & P & T).
    split; [exact C|]. split; [exact D|]. split.
    + intros chunks' [= <-]. rewrite A, Hb, Hbuf.
      split; [reflexivity|]. split; [exact B|]. split; [exact P|].
      split; [exact T|].
      destruct (Nat.eqb_spec (length chunks) 0) as [E0|E0].
      * unfold progressPercent. rewrite T, E0. reflexivity.
      * apply progressPercent_full; lia.
    + intros message [= ?].
  - pose proof (onmessage_error s1 message) as H. cbn zeta in H.
    rewrite Hj in H. destruct H as (A & B & C & D & _).
    split; [exact C|]. split; [exact D|]. split.
    + intros chunks [= ?].
    + intros message' [= <-]. split; [exact B|exact A].
Qed.

Lemma page_after_job_X16_witness :
  isLoading
    (deliver [Partial 1 1 1 [WorkerChunk.mk (0, None)%Q "a"]; Done 1 []]
       (snd (handleFileUpload_submit
               (handleFileUpload_decoded (mkAudioBuffer 3 2 [])
                  (handleFileUpload_begin initial))))) = false.
Proof.
  apply (page_after_job_X16 unit "invalid length"
           (inr (mkTranscriber unit (Some 16000%Q)
                   (fun _ _ => inr (Some [WorkerChunk.mk (0, None)%Q "a"]))
                   (fun _ _ _ _ => ([tt], inr None))))
           (mkTranscribePayload (mkWorkerConfig "w" true false true "m")
              [0; 0]%Q 16000 15 5 true)
           (snd (handleFileUpload_submit
                   (handleFileUpload_decoded (mkAudioBuffer 3 2 [])
                      (handleFileUpload_begin initial))))
           (mkAudioBuffer 3 2 [])).
  - reflexivity.
  - reflexivity.
Defined.

Lemma onmessage_partial_counters (s : State) (processed total : Z) chunks :
  let s' := onmessage (Partial (activeJobId s) processed total chunks) s in
  processedChunks s' = processed /\ totalChunks s' = total
  /\ isLoading s' = isLoading s /\ isTranscribing s' = isTranscribing s.
Proof.
  cbn zeta. unfold onmessage. cbn [jobId_of]. rewrite Z.eqb_refl.
  cbn [negb]. repeat split.
Qed.

(** X17: while the page handles the messages of the active job, after
    the [k]-th partial message the processed counter is [k] and the total
    is the worker's estimate, the same for the whole job and at least 1;
    the loading and transcribing flags stay as they were until the
    closing message. *)
Theorem progress_during_job_X17 :
  forall (Raw : Type) (invalidLength : string) (t : Settled Raw)
         (payload : TranscribePayload)
         (s : State) (messages : list WorkerMessage),
    worker_onmessage invalidLength t (activeJobId s) payload
    = Some messages ->
    exists total : Z,
      (1 <= total)%Z
      /\ forall k : nat,
           1 <= k < length messages ->
           processedChunks (deliver (take k messages) s) = Z.of_nat k
           /\ totalChunks (deliver (take k messages) s) = total
           /\ isLoading (deliver (take k messages) s) = isLoading s
           /\ isTranscribing (deliver (take k messages) s)
              = isTranscribing s.
Proof.
  intros Raw invalidLength t payload s messages Hrun.
  destruct (worker_onmessage_shape invalidLength t _ payload messages Hrun)
    as (posted & final & total & -> & _ & _ & Htotal & Hposted).
  exists total. split; [exact Htotal|].
  intros k Hk. rewrite length_app in Hk. cbn [length] in Hk.
  rewrite take_app_le by lia.
  induction k as [|k IH]; [lia|].
  destruct (lookup_lt_is_Some_2 posted k) as [m Hm]; [lia|].
  rewrite (take_S_r _ _ _ Hm), deliver_app.
  change (deliver [m] ?x) with (onmessage m x).
  destruct (Hposted k m Hm) as [cs ->].
  destruct (deliver_keeps (take k posted) s) as [Hj _].
  pose proof (onmessage_partial_counters (deliver (take k posted) s)
                (Z.of_nat k + 1) total cs) as H.
  cbn zeta in H. rewrite Hj in H. destruct H as (A & B & C & D).
  split; [rewrite A; lia|]. split; [exact B|].
  destruct k as [|k']; [split; assumption|].
  destruct IH as (_ & _ & IL & IT); [lia|].
  split; congruence.
Qed.

Lemma progress_during_job_X17_witness :
  processedChunks
    (deliver (take 1 [Partial 1 1 1 [WorkerChunk.mk (0, None)%Q "a"];
                      Done 1 []])
       (snd (handleFileUpload_submit initial))) = 1%Z.
Proof.
  destruct (progress_during_job_X17 unit "invalid length"
           (inr (mkTranscriber unit (Some 16000%Q)
                   (fun _ _ => inr (Some [WorkerChunk.mk (0, None)%Q "a"]))
                   (fun _ _ _ _ => ([tt], inr None))))
           (mkTranscribePayload (mkWorkerConfig "w" true false true "m")
              [0; 0]%Q 16000 15 5 true)
           (snd (handleFileUpload_submit initial))
           [Partial 1 1 1 [WorkerChunk.mk (0, None)%Q "a"]; Done 1 []]
           eq_refl) as (total & _ & H).
  destruct (H 1) as [Hp _]; [cbn; lia|exact Hp].
Defined.

(** ** Pipeline cache of the worker *)

Lemma needsRefresh_same (config : WorkerConfig) :
  needsRefresh (Some config) config = false.
Proof.
  unfold needsRefresh.
  rewrite !String.eqb_refl, !Bool.eqb_reflx. reflexivity.
Qed.

Lemma needsRefresh_false (cached config : WorkerConfig) :
  needsRefresh (Some cached) config = false -> cached = config.
Proof.
  unfold needsRefresh. intros H.
  destruct (String.eqb_spec (wasmPath cached) (wasmPath config)) as [E1|];
    [|discriminate H].
  destruct (Bool.eqb_spec (allowLocalModels cached) (allowLocalModels config))
    as [E2|]; [|discriminate H].
  destruct (Bool.eqb_spec (allowRemoteModels cached)
              (allowRemoteModels config)) as [E3|]; [|discriminate H].
  destruct (Bool.eqb_spec (useBrowserCache cached) (useBrowserCache config))
    as [E4|]; [|discriminate H].
  destruct (String.eqb_spec (localModelPath cached) (localModelPath config))
    as [E5|]; [|discriminate H].
  destruct cached, config. cbn in *. congruence.
Qed.

Lemma needsRefresh_other (cached config : WorkerConfig) :
  cached <> config -> needsRefresh (Some cached) config = true.
Proof.
  intros Hne. destruct (needsRefresh (Some cached) config) eqn:E;
    [reflexivity|].
  apply needsRefresh_false in E. contradiction.
Qed.

Lemma ensureTranscriber_loaded (config other : WorkerConfig) (p n : nat)
    (e : option WorkerConfig) :
  ensureTranscriber other (mkWorkerState (Some config) (Some p) e n)
  = if needsRefresh (Some config) other
    then (n, mkWorkerState (Some other) (Some n) (Some other) (S n))
    else (p, mkWorkerState (Some config) (Some p) e n).
Proof. reflexivity. Qed.

Lemma ensureTranscriber_result (config : WorkerConfig) (w : WorkerState) :
  exists p e,
    ensureTranscriber config w
    = (p, mkWorkerState (Some config) (Some p) e
            (pipelines (snd (ensureTranscriber config w))))
    /\ (env w = cachedConfig w -> e = Some config)
    /\ (pipelines (snd (ensureTranscriber config w)) = pipelines w
        \/ pipelines (snd (ensureTranscriber config w)) = S (pipelines w)).
Proof.
  unfold ensureTranscriber.
  destruct w as [cached promise e n]. cbn [transcriberPromise cachedConfig
    pipelines env].
  destruct promise as [p|].
  - destruct (needsRefresh cached config) eqn:Hr.
    + exists n, (Some config). cbn. auto.
    + destruct cached as [cached|]; [|discriminate Hr].
      apply needsRefresh_false in Hr. subst cached.
      exists p, e. cbn. auto.
  - exists n, (Some config). cbn. auto.
Qed.

(** X18: after a request the cache holds the request's configuration,
    and so do the engine settings if they agreed with the cache before;
    a next request with the same configuration gets the same promise
    back and loads nothing, also when that promise was rejected; a
    request that differs in any of the five settings makes one new call
    of [pipeline]. *)
Theorem ensureTranscriber_cache_X18 :
  forall (config : WorkerConfig) (w : WorkerState),
    let promise := fst (ensureTranscriber config w) in
    let w' := snd (ensureTranscriber config w) in
    cachedConfig w' = Some config
    /\ transcriberPromise w' = Some promise
    /\ (env w = cachedConfig w -> env w' = Some config)
    /\ ensureTranscriber config w' = (promise, w')
    /\ forall other : WorkerConfig,
         other <> config ->
         pipelines (snd (ensureTranscriber other w')) = S (pipelines w')
         /\ fst (ensureTranscriber other w') = pipelines w'.
Proof.
  intros config w. cbn zeta.
  destruct (ensureTranscriber_result config w) as (p & e & E & He & _).
  rewrite E. cbn [fst snd cachedConfig transcriberPromise env pipelines].
  set (n := pipelines _).
  split; [reflexivity|]. split; [reflexivity|]. split; [exact He|].
  split.
  - rewrite ensureTranscriber_loaded, needsRefresh_same. reflexivity.
  - intros other Hne.
    rewrite ensureTranscriber_loaded, needsRefresh_other by congruence.
    split; reflexivity.
Qed.

Lemma ensureTranscriber_cache_X18_witness :
  pipelines
    (snd (ensureTranscriber (mkWorkerConfig "w" true false true "m")
       (snd (ensureTranscriber (mkWorkerConfig "w" true true true "m")
               worker_start)))) = 2.
Proof.
  apply (proj2 (proj2 (proj2 (proj2
           (ensureTranscriber_cache_X18
              (mkWorkerConfig "w" true true true "m") worker_start))))
           (mkWorkerConfig "w" true false true "m")).
  discriminate.
Defined.

Example same_configuration_loads_once :
  let c := mkWorkerConfig "w" true true true "m" in
  pipelines (snd (ensureTranscriber c
                    (snd (ensureTranscriber c
                            (snd (ensureTranscriber c worker_start)))))) = 1.
Proof. reflexivity. Qed.

(** ** Runtime path *)

(** The loop returns the first base of the list that is a local path or
    whose probe answers ok, and the local path when there is none. *)
Lemma pickWasmPath_from_first (probe : string -> bool) (bases : list string) :
  (exists i : nat,
     bases !! i = Some (pickWasmPath_from probe bases)
     /\ (String.prefix "models/" (pickWasmPath_from probe bases) = true
         \/ probe (pickWasmPath_from probe bases) = true)
     /\ forall (j : nat) (base : string),
          j < i -> bases !! j = Some base ->
          String.prefix "models/" base = false /\ probe base = false)
  \/ (pickWasmPath_from probe bases = localWasmBase
      /\ forall base : string,
           In base bases ->
           String.prefix "models/" base = false /\ probe base = false).
Proof.
  induction bases as [|base rest IH].
  - right. split; [reflexivity|]. intros base [].
  - cbn [pickWasmPath_from].
    destruct (String.prefix "models/" base) eqn:Hlocal.
    { left. exists 0. split; [reflexivity|]. split; [now left|].
      intros j b Hj. lia. }
    destruct (probe base) eqn:Hprobe.
    { left. exists 0. split; [reflexivity|]. split; [now right|].
      intros j b Hj. lia. }
    destruct IH as [(i & Hi & Hok & Hbefore)|[Hnone Hall]].
    + left. exists (S i). split; [exact Hi|]. split; [exact Hok|].
      intros [|j] b Hj Hb.
      * injection Hb as <-. now split.
      * apply (Hbefore j b); [lia|exact Hb].
    + right. split; [exact Hnone|].
      intros b [<-|Hin]; [now split|now apply Hall].
Qed.

(** X19: on localhost the local runtime path is chosen whatever the
    probes answer, so no CDN is used; elsewhere the result is the first
    CDN, in list order, whose probe answers ok, and the local path when
    none does: the choice never fails, is always one of the listed bases,
    and no base listed before the chosen one is a local path or has a
    probe that answers ok. *)
Theorem pickWasmPath_choice_X19 :
  forall probe : string -> bool,
    pickWasmPath probe true = localWasmBase
    /\ In (pickWasmPath probe false) (wasmBases false)
    /\ (pickWasmPath probe false <> localWasmBase ->
        probe (pickWasmPath probe false) = true)
    /\ (forall base,
          In base (wasmBases false) -> base <> localWasmBase ->
          probe base = true ->
          pickWasmPath probe false <> localWasmBase)
    /\ ((forall base, In base (wasmBases false) -> base <> localWasmBase ->
                      probe base = false) ->
        pickWasmPath probe false = localWasmBase)
    /\ (forall isLocalhost : bool,
          exists i : nat,
            wasmBases isLocalhost !! i
            = Some (pickWasmPath probe isLocalhost)
            /\ forall (j : nat) (base : string),
                 j < i -> wasmBases isLocalhost !! j = Some base ->
                 base <> localWasmBase /\ probe base = false).
Proof.
  intros probe.
  assert (Hfirst : forall isLocalhost : bool,
            exists i : nat,
              wasmBases isLocalhost !! i
              = Some (pickWasmPath probe isLocalhost)
              /\ forall (j : nat) (base : string),
                   j < i -> wasmBases isLocalhost !! j = Some base ->
                   base <> localWasmBase /\ probe base = false).
  { intros isLocalhost. unfold pickWasmPath.
    destruct (pickWasmPath_from_first probe (wasmBases isLocalhost))
      as [(i & Hi & _ & Hbefore)|[_ Hall]].
    - exists i. split; [exact Hi|]. intros j base Hj Hbase.
      destruct (Hbefore j base Hj Hbase) as [Hlocal Hprobe].
      split; [|exact Hprobe]. intros ->. discriminate Hlocal.
    - exfalso. destruct (Hall localWasmBase) as [Hlocal _];
        [|discriminate Hlocal].
      destruct isLocalhost; cbn; auto. }
  split; [reflexivity|].
  cut (In (pickWasmPath probe false) (wasmBases false)
       /\ (pickWasmPath probe false <> localWasmBase ->
           probe (pickWasmPath probe false) = true)
       /\ (forall base,
             In base (wasmBases false) -> base <> localWasmBase ->
             probe base = true ->
             pickWasmPath probe false <> localWasmBase)
       /\ ((forall base, In base (wasmBases false) ->
                         base <> localWasmBase -> probe base = false) ->
           pickWasmPath probe false = localWasmBase)).
  { intros (A & B & C & D). repeat (split; [assumption|]). exact Hfirst. }
  clear Hfirst.
  unfold pickWasmPath. cbn [wasmBases pickWasmPath_from].
  change (String.prefix "models/" "https://cdn.jsdelivr.net/npm/onnxruntime-web/dist/") with false.
  change (String.prefix "models/" "https://unpkg.com/onnxruntime-web/dist/") with false.
  change (String.prefix "models/" "https://cdn.bootcdn.net/ajax/libs/onnxruntime-web/1.14.0/") with false.
  change (String.prefix "models/" localWasmBase) with true.
  cbn iota.
  destruct (probe "https://cdn.jsdelivr.net/npm/onnxruntime-web/dist/") eqn:P1;
    [|destruct (probe "https://unpkg.com/onnxruntime-web/dist/") eqn:P2;
      [|destruct (probe "https://cdn.bootcdn.net/ajax/libs/onnxruntime-web/1.14.0/") eqn:P3]].
  - repeat split; try (intros; discriminate); cbn; auto.
    intros H. rewrite H in P1; [discriminate|cbn; auto|discriminate].
  - repeat split; try (intros; discriminate); cbn; auto.
    intros H. rewrite H in P2; [discriminate|cbn; auto|discriminate].
  - repeat split; try (intros; discriminate); cbn; auto.
    intros H. rewrite H in P3; [discriminate|cbn; auto|discriminate].
  - repeat split; try (cbn; tauto).
    intros base [<-|[<-|[<-|[<-|[]]]]] Hne Hp; congruence.
Qed.

Lemma pickWasmPath_choice_X19_witness :
  pickWasmPath
    (fun base => String.eqb base "https://unpkg.com/onnxruntime-web/dist/")
    false
  <> localWasmBase.
Proof.
  apply (proj1 (proj2 (proj2 (proj2
           (pickWasmPath_choice_X19
              (fun base =>
                 String.eqb base "https://unpkg.com/onnxruntime-web/dist/")))))
           "https://unpkg.com/onnxruntime-web/dist/").
  - cbn. auto.
  - discriminate.
  - reflexivity.
Defined.

(** ** File names of the export *)

Lemma pretty_N_char_dashfree (x : N) :
  Ascii.eqb (pretty_N_char x) "-" = false.
Proof. unfold pretty_N_char. now repeat case_match. Qed.

Lemma pretty_N_go_dashfree (x : N) :
  forall s, dashfree s = true -> dashfree (pretty_N_go x s) = true.
Proof.
  induction (N.lt_wf_0 x) as [x _ IH]. intros s Hs.
  assert (x = 0 \/ 0 < x)%N as [->|Hx] by lia.
  - now rewrite pretty_N_go_0.
  - rewrite pretty_N_go_step by exact Hx. apply IH.
    + now apply N.div_lt.
    + cbn [dashfree]. now rewrite pretty_N_char_dashfree, Hs.
Qed.

Lemma pretty_nat_dashfree (n : nat) : dashfree (pretty n) = true.
Proof.
  unfold pretty, pretty_nat, pretty, pretty_N.
  case_decide; [reflexivity|]. now apply pretty_N_go_dashfree.
Qed.

Lemma dash_split (u : string) :
  forall v r1 r2 : string,
    dashfree u = true -> dashfree v = true ->
    u +:+ "-" +:+ r1 = v +:+ "-" +:+ r2 -> u = v.
Proof.
  induction u as [|c u IH]; intros [|c' v] r1 r2 Hu Hv E.
  - reflexivity.
  - cbn in E. injection E as <- _. cbn in Hv. discriminate Hv.
  - cbn in E. injection E as -> _. cbn in Hu. discriminate Hu.
  - cbn in E. injection E as -> E. cbn [dashfree] in Hu, Hv.
    apply andb_true_iff in Hu as [_ Hu]. apply andb_true_iff in Hv as [_ Hv].
    f_equal. exact (IH v r1 r2 Hu Hv E).
Qed.

Lemma fileName_index (i j : nat) (a b a' b' : Q) :
  fileName i a b = fileName j a' b' -> i = j.
Proof.
  unfold fileName. intros E.
  apply dash_split in E; try apply pretty_nat_dashfree.
  apply (inj pretty) in E. lia.
Qed.

Lemma exportFiles_names (entries : list ExportEntry) :
  NoDup (map fst (imap (fun index entry =>
                          (fileName index (startTime entry) (endTime entry),
                           entry)) entries)).
Proof.
  apply NoDup_alt. intros i j name Hi Hj.
  change (map ?f ?l) with (f <$> l) in Hi, Hj.
  rewrite list_lookup_fmap, list_lookup_imap in Hi, Hj.
  destruct (entries !! i) as [e|]; [|discriminate].
  destruct (entries !! j) as [e'|]; [|discriminate].
  cbn in Hi, Hj. injection Hi as Hi. injection Hj as Hj.
  rewrite <- Hj in Hi. exact (fileName_index _ _ _ _ _ _ Hi).
Qed.

(** X20: an export that succeeds makes one audio file, one transcript
    part and one player item per export group, in group order, and no two
    audio files have the same name, so no file of the archive replaces
    another one. *)
Theorem exportFiles_distinct_X20 :
  forall (s : State) (files : list (string * ExportEntry)),
    exportFiles s = Some files ->
    NoDup (map fst files)
    /\ NoDup (map fst (htmlData files))
    /\ exportEntries s = Some (map snd files)
    /\ length files = length (buildGroups (segments s))
    /\ length (txtParts files) = length (buildGroups (segments s))
    /\ length (htmlData files) = length (buildGroups (segments s)).
Proof.
  intros s files Hrun. unfold exportFiles in Hrun.
  destruct (exportEntries s) as [entries|] eqn:He; [|discriminate].
  cbn in Hrun. injection Hrun as <-.
  assert (Hlen : length entries = length (buildGroups (segments s))).
  { unfold exportEntries in He.
    destruct (audioBuffer s); [|discriminate]. cbn in He.
    symmetry. eapply length_mapM, He. }
  split; [apply exportFiles_names|]. split.
  { apply NoDup_alt. intros i j name Hi Hj. unfold htmlData in Hi, Hj.
    change (map ?f ?l) with (f <$> l) in Hi, Hj.
    rewrite !list_lookup_fmap, list_lookup_imap in Hi, Hj.
    destruct (entries !! i) as [e|]; [|discriminate].
    destruct (entries !! j) as [e'|]; [|discriminate].
    cbn in Hi, Hj. injection Hi as Hi. injection Hj as Hj.
    rewrite <- Hj in Hi.
    apply (fileName_index i j (startTime e) (endTime e)
             (startTime e') (endTime e')).
    change (String.append "audio/" ?x) with
      (String "a" (String "u" (String "d" (String "i" (String "o"
         (String "/" x)))))) in Hi.
    now injection Hi. }
  split.
  { f_equal. apply list_eq. intros i.
    change (map ?f ?l) with (f <$> l).
    rewrite list_lookup_fmap, list_lookup_imap.
    now destruct (entries !! i). }
  unfold txtParts, htmlData. rewrite !length_map, length_imap.
  repeat split; exact Hlen.
Qed.

Lemma exportFiles_distinct_X20_witness :
  map fst <$> exportFiles
    (with_audioBuffer (Some (mkAudioBuffer 3 2 [[10; 11; 12; 13; 14; 15]%Q]))
       (with_segments [mkSegment 1 0 1 "a" true false;
                       mkSegment 2 (3 # 2) (5 # 2) "b" true false] initial))
  = Some ["1-0.00-1.00.mp3"; "2-1.50-2.50.mp3"]
  /\ NoDup ["1-0.00-1.00.mp3"; "2-1.50-2.50.mp3"].
Proof.
  split; [reflexivity|].
  apply (proj1 (exportFiles_distinct_X20
           (with_audioBuffer
              (Some (mkAudioBuffer 3 2 [[10; 11; 12; 13; 14; 15]%Q]))
              (with_segments [mkSegment 1 0 1 "a" true false;
                              mkSegment 2 (3 # 2) (5 # 2) "b" true false]
                 initial))
           _ eq_refl)).
Defined.

(** ** A new upload and the job that is still running *)

(** X21: the start of an upload empties the segment list but leaves the
    active job id as it is, so until the new job is submitted the
    messages of the job that is still running are handled as before: a
    partial message fills the list again, and if the new file has been
    decoded by then a missing end time is taken from the new file's
    duration; a done message ends the loading state. *)
Theorem upload_does_not_supersede_X21 :
  forall (s : State) (buffer : AudioBuffer) (processed total : Z)
         (chunks : list WorkerChunk.t),
    segments (handleFileUpload_begin s) = []
    /\ activeJobId (handleFileUpload_decoded buffer
                      (handleFileUpload_begin s)) = activeJobId s
    /\ segments
         (onmessage (Partial (activeJobId s) processed total chunks)
            (handleFileUpload_begin s))
       = imap (fresh_segment (from_option duration 0%Q (audioBuffer s)))
           chunks
    /\ segments
         (onmessage (Partial (activeJobId s) processed total chunks)
            (handleFileUpload_decoded buffer (handleFileUpload_begin s)))
       = imap (fresh_segment (duration buffer)) chunks
    /\ isLoading (handleFileUpload_begin s) = true
    /\ isLoading
         (onmessage (Done (activeJobId s) chunks)
            (handleFileUpload_begin s)) = false.
Proof.
  intros s buffer processed total chunks.
  split; [reflexivity|]. split; [reflexivity|].
  split.
  { rewrite (onmessage_active_segments _ _ chunks); reflexivity. }
  split.
  { rewrite (onmessage_active_segments _ _ chunks); reflexivity. }
  split; [reflexivity|].
  unfold onmessage. cbn [jobId_of].
  change (activeJobId (handleFileUpload_begin s)) with (activeJobId s).
  rewrite Z.eqb_refl. reflexivity.
Qed.

(** ** Text of the segments *)

Lemma trimStart_first (s : string) (c : ascii) :
  first_char (trimStart s) = Some c -> is_space c = false.
Proof.
  induction s as [|a s IH]; [discriminate|].
  cbn [trimStart]. destruct (is_space a) eqn:E; [exact IH|].
  intros [= <-]. exact E.
Qed.

Lemma trimEnd_last (s : string) (c : ascii) :
  last_char (trimEnd s) = Some c -> is_space c = false.
Proof.
  induction s as [|a s IH]; [discriminate|].
  cbn [trimEnd]. destruct (trimEnd s) as [|b t] eqn:E.
  - destruct (is_space a) eqn:Ea; [discriminate|].
    intros [= <-]. exact Ea.
  - intros H. apply IH. exact H.
Qed.

Lemma trimEnd_first (s : string) (c : ascii) :
  first_char s = Some c -> is_space c = false ->
  first_char (trimEnd s) = Some c.
Proof.
  destruct s as [|a s]; [discriminate|]. intros [= ->] Hc.
  cbn [trimEnd]. destruct (trimEnd s); [now rewrite Hc|reflexivity].
Qed.

Lemma trimEnd_fixed (s : string) :
  (forall c, last_char s = Some c -> is_space c = false) ->
  trimEnd s = s.
Proof.
  induction s as [|a s IH]; [reflexivity|]. intros H.
  cbn [trimEnd]. destruct s as [|b t].
  - cbn [trimEnd]. now rewrite (H a eq_refl).
  - rewrite IH by exact H. reflexivity.
Qed.

Lemma trimEnd_twice (s : string) : trimEnd (trimEnd s) = trimEnd s.
Proof. apply trimEnd_fixed. intros c. apply trimEnd_last. Qed.

Lemma trimStart_fixed (s : string) :
  (forall c, first_char s = Some c -> is_space c = false) ->
  trimStart s = s.
Proof.
  destruct s as [|a s]; [reflexivity|]. intros H.
  cbn [trimStart]. now rewrite (H a eq_refl).
Qed.

Lemma trim_spec (s : string) :
  (forall c, first_char (trim s) = Some c -> is_space c = false)
  /\ (forall c, last_char (trim s) = Some c -> is_space c = false)
  /\ trim (trim s) = trim s.
Proof.
  assert (Hfirst : forall c, first_char (trim s) = Some c ->
                             is_space c = false).
  { unfold trim. intros c Hc.
    destruct (trimStart s) as [|a t] eqn:E; [discriminate Hc|].
    assert (Ha : is_space a = false)
      by (apply (trimStart_first s); now rewrite E).
    rewrite (trimEnd_first (String a t) a eq_refl Ha) in Hc.
    now injection Hc as <-. }
  split; [exact Hfirst|]. split.
  - unfold trim. apply trimEnd_last.
  - unfold trim at 1. rewrite (trimStart_fixed _ Hfirst).
    unfold trim. apply trimEnd_twice.
Qed.

(** X22: after a partial or done message of the active job no segment
    text begins or ends with a white space character (space, tab, line
    feed, vertical tab, form feed, carriage return), and trimming such a
    text again changes nothing. *)
Theorem segment_text_trimmed_X22 :
  forall (s : State) (data : WorkerMessage) (chunks : list WorkerChunk.t)
         (seg : Segment),
    jobId_of data = activeJobId s -> chunks_of data = Some chunks ->
    In seg (segments (onmessage data s)) ->
    (forall c, first_char (text seg) = Some c -> is_space c = false)
    /\ (forall c, last_char (text seg) = Some c -> is_space c = false)
    /\ trim (text seg) = text seg.
Proof.
  intros s data chunks seg Hid Hch Hin.
  rewrite (onmessage_active_segments data s chunks Hid Hch) in Hin.
  apply list_elem_of_In, list_elem_of_lookup in Hin as [i Hi].
  rewrite list_lookup_imap in Hi.
  destruct (chunks !! i) as [chunk|]; [|discriminate].
  injection Hi as <-. cbn [fresh_segment text]. apply trim_spec.
Qed.

Lemma segment_text_trimmed_X22_witness :
  trim "b" = "b".
Proof.
  apply (segment_text_trimmed_X22
           (snd (handleFileUpload_submit initial))
           (Done 1 [WorkerChunk.mk (0, None)%Q " b "])
           [WorkerChunk.mk (0, None)%Q " b "]
           (mkSegment 1 0 0 "b" true false)).
  - reflexivity.
  - reflexivity.
  - left. reflexivity.
Defined.

(** ** Group sizes of count mode *)

Lemma link_block_step (seg : Segment) (rest : list Segment) :
  link_block (seg :: rest)
  = match rest with
    | [] => [seg]
    | _ => set_linkNext true seg :: link_block rest
    end.
Proof. destruct rest; reflexivity. Qed.

(** One group of count mode, from position [j] of the group on. *)
Lemma count_block (val len off : nat) (block : list Segment) :
  1 <= val ->
  off mod val = 0 ->
  forall j : nat,
    Forall (fun seg => linkNext seg = false) block ->
    j + length block <= val ->
    (off + j + length block = len \/ j + length block = val) ->
    off + j + length block <= len ->
    imap (fun i => link_every val len (off + j + i)) block
    = link_block block.
Proof.
  intros Hval Hoff. induction block as [|seg rest IH];
    intros j Hfresh Hfit Hend Hlen; [reflexivity|].
  apply Forall_cons in Hfresh as [Hseg Hfresh].
  cbn [imap length] in *. rewrite link_block_step.
  assert (Hmod : (off + j + 0 + 1) mod val = (j + 1) mod val).
  { replace (off + j + 0 + 1) with (off + (j + 1)) by lia.
    rewrite <- Nat.Div0.add_mod_idemp_l, Hoff. reflexivity. }
  destruct rest as [|next rest'].
  - f_equal. unfold link_every. rewrite Hmod. cbn [length] in *.
    destruct Hend as [Hend|Hend].
    + replace (off + j + 0 <? len - 1) with false
        by (symmetry; apply Nat.ltb_ge; lia).
      now rewrite andb_false_r.
    + replace (j + 1) with val by lia. rewrite Nat.Div0.mod_same.
      reflexivity.
  - f_equal.
    + unfold link_every. rewrite Hmod. cbn [length] in *.
      rewrite Nat.mod_small by lia.
      replace (j + 1 =? 0) with false by (symmetry; apply Nat.eqb_neq; lia).
      replace (off + j + 0 <? len - 1) with true
        by (symmetry; apply Nat.ltb_lt; lia).
      reflexivity.
    + rewrite <- (IH (S j)); cbn [length] in *; try assumption; try lia.
      apply imap_ext. intros i x _. cbn [compose]. f_equal. lia.
Qed.

Lemma count_groups (val len : nat) :
  1 <= val ->
  forall (q : nat) (raw : list Segment) (off : nat),
    off mod val = 0 ->
    Forall (fun seg => linkNext seg = false) raw ->
    off + length raw = len ->
    q = length raw / val ->
    imap (fun i => link_every val len (off + i)) raw
    = link_groups (replicate q val
                   ++ (if length raw mod val =? 0 then []
                       else [length raw mod val])) raw.
Proof.
  intros Hval. induction q as [|q IH]; intros raw off Hoff Hfresh Hlen Hq.
  - assert (Hsmall : length raw < val).
    { symmetry in Hq. apply Nat.div_small_iff in Hq; lia. }
    rewrite Nat.mod_small by exact Hsmall. cbn [replicate app].
    destruct (Nat.eqb_spec (length raw) 0) as [E|E].
    + destruct raw; [reflexivity|discriminate E].
    + cbn [link_groups]. rewrite take_ge, drop_ge, app_nil_r by lia.
      rewrite <- (count_block val len off raw Hval Hoff 0); try assumption;
        try lia.
      apply imap_ext. intros i x _. f_equal. lia.
  - assert (Hbig : val <= length raw).
    { destruct (Nat.lt_ge_cases (length raw) val) as [H|H]; [|exact H].
      rewrite Nat.div_small in Hq by exact H. discriminate Hq. }
    cbn [replicate app link_groups].
    rewrite <- (take_drop val raw) at 1. rewrite imap_app.
    assert (Htake : length (take val raw) = val)
      by (rewrite length_take; lia).
    f_equal.
    + rewrite <- (count_block val len off (take val raw) Hval Hoff 0).
      * apply imap_ext. intros i x _. f_equal. lia.
      * now apply Forall_take.
      * lia.
      * right. lia.
      * lia.
    + rewrite Htake.
      assert (Hdrop : length (drop val raw) = length raw - val)
        by apply length_drop.
      assert (Hdiv : length raw = val + (length raw - val)) by lia.
      assert (Hq' : q = (length raw - val) / val).
      { rewrite Hdiv in Hq.
        replace (val + (length raw - val))
          with (1 * val + (length raw - val)) in Hq by lia.
        rewrite Nat.div_add_l in Hq by lia. lia. }
      assert (Hm : length raw mod val = (length raw - val) mod val).
      { rewrite Hdiv at 1.
        replace (val + (length raw - val))
          with ((length raw - val) + 1 * val) by lia.
        apply Nat.Div0.mod_add. }
      rewrite Hm, <- Hdrop.
      rewrite <- (IH (drop val raw) (off + val)).
      * apply imap_ext. intros i x _. cbn [compose]. f_equal. lia.
      * rewrite <- Nat.Div0.add_mod_idemp_r, Nat.Div0.mod_same, Nat.add_0_r.
        exact Hoff.
      * now apply Forall_drop.
      * rewrite Hdrop. lia.
      * rewrite Hdrop. exact Hq'.
Qed.

Lemma count_sizes_facts (total N : nat) :
  1 <= N ->
  Forall (fun size => 1 <= size) (count_sizes total N)
  /\ sum_list (count_sizes total N) = total
  /\ Forall (fun size => size <= N) (count_sizes total N).
Proof.
  intros HN. unfold count_sizes.
  pose proof (Nat.div_mod_eq total N) as Hdm.
  pose proof (Nat.mod_upper_bound total N ltac:(lia)) as Hlt.
  split; [|split].
  - apply Forall_app. split; [apply Forall_replicate; lia|].
    destruct (Nat.eqb_spec (total mod N) 0); repeat constructor. lia.
  - rewrite sum_list_app, sum_list_replicate.
    destruct (Nat.eqb_spec (total mod N) 0) as [E|E]; cbn; nia.
  - apply Forall_app. split; [apply Forall_replicate; lia|].
    destruct (Nat.eqb_spec (total mod N) 0); repeat constructor. lia.
Qed.

(** X23: in count mode on [total] segments the export makes groups of
    [P] segments each and, when [P] does not divide [total], one last
    group with the [total mod P] segments left over, where [P] is the
    smallest whole number of segments that is a multiple of the value of
    the dialog (raised to at least 1): the value itself when it is a whole
    number [N], and the numerator of the value in lowest terms in general
    (3 for 1.5, 5 for 2.5).  Put together the groups are the whole
    list. *)
Theorem count_mode_sizes_X23 :
  forall (s s' : State),
    autoGroupMode s = ModeCount ->
    applyAutoGroup s = Returned s' ->
    let P := period (js_max 1 (autoGroupValue s)) in
    1 <= P
    /\ map length (buildGroups (segments s'))
       = count_sizes (length (segments s)) P
    /\ concat (buildGroups (segments s')) = segments s'
    /\ (forall N : Z,
          (autoGroupValue s == inject_Z N)%Q -> P = Z.to_nat (Z.max 1 N)).
Proof.
  intros s s' Hmode Hrun P.
  assert (HN : 1 <= P).
  { pose proof (js_max_ge_1 (autoGroupValue s)) as Hval.
    pose proof (period_pos (js_max 1 (autoGroupValue s)) ltac:(lra)).
    unfold P, period. lia. }
  split; [exact HN|].
  assert (Hint : forall N : Z,
            (autoGroupValue s == inject_Z N)%Q -> P = Z.to_nat (Z.max 1 N)).
  { intros N HN'. unfold P.
    now rewrite (period_integer _ _ (js_max_integer _ _ HN')). }
  destruct (segments s) as [|seg0 rest0] eqn:Hsegs.
  { rewrite applyAutoGroup_empty in Hrun by exact Hsegs.
    injection Hrun as <-. rewrite Hsegs. cbn [length].
    unfold count_sizes. rewrite Nat.Div0.div_0_l, Nat.Div0.mod_0_l.
    repeat split; [reflexivity..|exact Hint]. }
  assert (Hne : segments s <> []) by (rewrite Hsegs; discriminate).
  rewrite <- Hsegs in *.
  rewrite applyAutoGroup_count in Hrun by assumption. injection Hrun as <-.
  cbn [segments with_showAutoGroupModal with_segments]. fold P.
  pose proof (reset_segments_fresh (segments s)) as Hfresh.
  assert (Hunl : Forall (fun seg => linkNext seg = false)
                   (map reset_segment (segments s))).
  { eapply Forall_impl; [exact Hfresh|]. now intros x [_ H]. }
  pose proof (count_groups P (length (segments s)) HN
                (length (segments s) / P)
                (map reset_segment (segments s)) 0) as Hcg.
  rewrite length_map in Hcg. cbn [Nat.add] in Hcg.
  fold (count_sizes (length (segments s)) P) in Hcg.
  change (fun i : nat => link_every P (length (segments s)) i)
    with (link_every P (length (segments s))) in Hcg.
  rewrite Hcg; [|apply Nat.Div0.mod_0_l|exact Hunl|reflexivity|reflexivity].
  destruct (count_sizes_facts (length (segments s)) P HN)
    as (Hpos & Hsum & _).
  destruct (buildGroups_link_groups (count_sizes (length (segments s)) P)
              (map reset_segment (segments s)) Hpos) as [Hg Hl];
    [now rewrite length_map|exact Hfresh|].
  split; [|split; [|exact Hint]].
  - rewrite Hg, map_map. etransitivity; [|exact Hl].
    apply map_ext. intros block. apply length_link_block.
  - rewrite Hg. apply concat_link_blocks. now rewrite length_map.
Qed.

Lemma count_mode_sizes_X23_witness :
  exists s' : State,
    applyAutoGroup
      (with_autoGroup ModeCount (5 # 2)
         (with_segments
            (map (fun k => mkSegment k 0 1 "s" false true)
               [1; 2; 3; 4; 5; 6; 7]%Z) initial)) = Returned s'
    /\ map length (buildGroups (segments s')) = [5; 2].
Proof.
  eexists. split; [vm_compute; reflexivity|].
  apply (count_mode_sizes_X23
           (with_autoGroup ModeCount (5 # 2)
              (with_segments
                 (map (fun k => mkSegment k 0 1 "s" false true)
                    [1; 2; 3; 4; 5; 6; 7]%Z) initial)));
    vm_compute; reflexivity.
Defined.

(** ** Total mode for a whole number of groups *)

(** X24: in total mode with a whole number [G] in the dialog, on a
    non-empty list of [total] segments ([total] below [2^53]; an array has
    fewer than [2^32] elements), [G] is clamped to [1..=total]; with
    [base = total / G] and [remainder = total mod G] the first
    [remainder] groups have [base+1] members and the others [base], taken
    in order; the grouper returns, sets [linkNext] on every member of a
    group but its last one, never on the last segment, and changes
    nothing else of the reset segments; with [G = 3] on 7 segments the
    group sizes are [3, 2, 2]. *)
Theorem total_mode_whole_groups_X24 :
  forall (s : State) (G : Z),
    segments s <> [] -> autoGroupMode s = ModeTotal ->
    (autoGroupValue s == inject_Z G)%Q ->
    (Z.of_nat (length (segments s)) < 2 ^ 53)%Z ->
    let total := length (segments s) in
    let sizes := total_group_sizes total (clamp_groups G total) in
    1 <= clamp_groups G total <= total
    /\ exists s',
         applyAutoGroup s = Returned s'
         /\ length (segments s') = total
         /\ map linkNext (segments s') = link_pattern sizes
         /\ map (set_linkNext false) (segments s')
            = map reset_segment (segments s)
         /\ map length (buildGroups (segments s')) = sizes
         /\ concat (buildGroups (segments s')) = segments s'
         /\ (forall seg, last (segments s') = Some seg ->
                         linkNext seg = false)
         /\ (total = 7 -> G = 3%Z ->
             map length (buildGroups (segments s')) = [3; 2; 2]).
Proof.
  intros s G Hne Hmode HG Hbound total sizes.
  assert (Hn : 1 <= total)
    by (subst total; destruct (segments s); [contradiction|cbn; lia]).
  pose proof (clamp_groups_range G total Hn) as Htg.
  split; [exact Htg|].
  eexists. split; [apply (applyAutoGroup_total s G); assumption|].
  cbn [segments with_showAutoGroupModal with_segments].
  fold total. fold sizes.
  pose proof (total_group_sizes_pos total _ Htg) as Hpos. fold sizes in Hpos.
  assert (Hsum : sum_list sizes = length (map reset_segment (segments s))).
  { rewrite length_map. apply total_group_sizes_sum. lia. }
  pose proof (reset_segments_fresh (segments s)) as Hfresh.
  destruct (buildGroups_link_groups sizes _ Hpos Hsum Hfresh) as [Hg Hl].
  assert (Hflags : map linkNext (link_groups sizes
                                   (map reset_segment (segments s)))
                   = link_pattern sizes).
  { apply link_groups_flags; [assumption..|].
    eapply Forall_impl; [exact Hfresh|]. now intros seg [_ H]. }
  assert (Hlen : map length
                   (buildGroups (link_groups sizes
                                   (map reset_segment (segments s))))
                 = sizes).
  { rewrite Hg, map_map.
    etransitivity; [|exact Hl].
    apply map_ext. intros block. apply length_link_block. }
  split; [rewrite length_link_groups; apply length_map|].
  split; [exact Hflags|].
  split; [rewrite link_groups_fields; apply reset_fields|].
  split; [exact Hlen|].
  split; [rewrite Hg; now apply concat_link_blocks|].
  split.
  - intros seg Hlast.
    assert (Hl' : last (map linkNext (link_groups sizes
                          (map reset_segment (segments s))))
                  = Some (linkNext seg))
      by (change (last (linkNext <$> link_groups sizes
                          (map reset_segment (segments s)))
                  = Some (linkNext seg));
          rewrite fmap_last, Hlast; reflexivity).
    rewrite Hflags, link_pattern_last in Hl'; [congruence|].
    intros E. rewrite E in Hsum. rewrite length_map in Hsum.
    cbn in Hsum. fold total in Hsum. lia.
  - intros H7 H3. rewrite Hlen. subst sizes. rewrite H7, H3. reflexivity.
Qed.

Lemma total_mode_whole_groups_X24_witness :
  exists s',
    applyAutoGroup
      (with_autoGroup ModeTotal 3
         (with_segments
            (map (fun k => mkSegment k 0 1 "s" false true)
               [1; 2; 3; 4; 5; 6; 7]%Z) initial)) = Returned s'
    /\ map length (buildGroups (segments s')) = [3; 2; 2].
Proof.
  destruct (total_mode_whole_groups_X24
              (with_autoGroup ModeTotal 3
                 (with_segments
                    (map (fun k => mkSegment k 0 1 "s" false true)
                       [1; 2; 3; 4; 5; 6; 7]%Z) initial)) 3%Z)
    as (_ & s' & Hrun & _ & _ & _ & _ & _ & _ & H7).
  - discriminate.
  - reflexivity.
  - reflexivity.
  - vm_compute. reflexivity.
  - exists s'. split; [exact Hrun|]. apply H7; reflexivity.
Defined.
